(** * A pointer-level model of rbtree.cpp

    The red-black tree of [rbtree.cpp] is a pointer-linked structure with
    parent links, mutated in place.  The model keeps it that way: nodes live
    in a heap (a finite map from addresses to node records), a [node_p] is
    an address or NULL, and every method of [class RBTree] is a function on
    the object state that may fault (a NULL or dangling dereference, or a
    read of an unset pointer) or run out of fuel (the bound put on the
    source's recursion and loops).

    The readers-writers monitor of the same file is modelled as a
    transition system at the end of the file. *)

From stdpp Require Import gmap strings list fin_maps pretty sorting.
From Stdlib Require Import ZArith Lia.

Open Scope Z_scope.

(** ** Results of running a method *)

Inductive result (A : Type) : Type :=
  | Ok (a : A)
  | Fault
  | OutOfFuel.
Arguments Ok {A} a.
Arguments Fault {A}.
Arguments OutOfFuel {A}.

(** ** Data model *)

(** [enum Color { red, black }] stored in a [bool] field: red is 0. *)
Notation red := false (only parsing).
Notation black := true (only parsing).

Definition addr := positive.
(** [node_p]: NULL is [None]. *)
Definition node_p := option addr.

(** [struct node]. The key is a C++ [int]; the tree only compares, copies
    and prints keys, so no wrap-around arithmetic is involved. *)
Record node := mk_node {
  key : Z;
  parent : node_p;
  left : node_p;
  right : node_p;
  color : bool
}.

(** [struct tmp_node]: an entry of the bulk-load input.  The parser gives
    the leaf marker [f] the key [-1]. *)
Record tmp_node := mk_tmp { tkey : Z; tcolor : bool }.

(** What the tree methods write to [cout]. *)
Inductive output :=
  | OutKey (k : Z)          (* cout << key << " " *)
  | OutNotFound (k : Z).    (* the "Error: couldn't find" line *)

(** [class RBTree] together with the heap its nodes live in and the output
    stream it prints to.  [last] is a pointer member that no constructor
    initialises: [None] stands for the unset pointer.  The [tmp_node]
    objects are never written after parsing, so [last] and [tmp_tree] hold
    them by value. *)
Record RBTree := mk_RBTree {
  mem : gmap addr node;
  root : node_p;
  last : option tmp_node;
  tmp_tree : list tmp_node;
  prefix_tree : string;
  cout : list output
}.

Definition set_mem (m : gmap addr node) (t : RBTree) : RBTree :=
  mk_RBTree m (root t) (last t) (tmp_tree t) (prefix_tree t) (cout t).
Definition set_root (r : node_p) (t : RBTree) : RBTree :=
  mk_RBTree (mem t) r (last t) (tmp_tree t) (prefix_tree t) (cout t).
Definition set_last (l : option tmp_node) (t : RBTree) : RBTree :=
  mk_RBTree (mem t) (root t) l (tmp_tree t) (prefix_tree t) (cout t).
Definition set_prefix_tree (s : string) (t : RBTree) : RBTree :=
  mk_RBTree (mem t) (root t) (last t) (tmp_tree t) s (cout t).
Definition set_cout (o : list output) (t : RBTree) : RBTree :=
  mk_RBTree (mem t) (root t) (last t) (tmp_tree t) (prefix_tree t) o.

(** [RBTree()] and [RBTree(vector<tmp_node_p>)]. *)
Definition RBTree_new (t_rbt : list tmp_node) : RBTree :=
  mk_RBTree ∅ None None t_rbt "" [].

(** ** The state-and-fault monad of the methods *)

Definition M (A : Type) : Type := RBTree → result (A * RBTree).

Definition ret {A} (a : A) : M A := λ st, Ok (a, st).
Definition bind {A B} (m : M A) (k : A → M B) : M B :=
  λ st, match m st with
        | Ok (a, st') => k a st'
        | Fault => Fault
        | OutOfFuel => OutOfFuel
        end.
Definition fault {A} : M A := λ _, Fault.
Definition out_of_fuel {A} : M A := λ _, OutOfFuel.

Notation "'let*' x ':=' m 'in' k" := (bind m (λ x, k))
  (at level 10, x pattern, m at level 100, k at level 200).
Notation "m ';;;' k" := (bind m (λ _, k))
  (at level 100, k at level 200, right associativity).

(** Short-circuit [&&] and [||] on conditions that read memory. *)
Definition andM (a b : M bool) : M bool :=
  let* x := a in if x then b else ret false.
Definition orM (a b : M bool) : M bool :=
  let* x := a in if x then ret true else b.

Definition ptr_eqb (p q : node_p) : bool := bool_decide (p = q).
Definition is_null (p : node_p) : bool :=
  match p with None => true | Some _ => false end.

(** *** Memory accesses *)

Definition deref (p : node_p) : M node := λ st,
  match p with
  | None => Fault
  | Some a => match mem st !! a with
              | Some n => Ok (n, st)
              | None => Fault
              end
  end.

Definition update (p : node_p) (f : node → node) : M unit := λ st,
  match p with
  | None => Fault
  | Some a => match mem st !! a with
              | Some n => Ok (tt, set_mem (<[a := f n]> (mem st)) st)
              | None => Fault
              end
  end.

Definition get_key (p : node_p) : M Z := let* n := deref p in ret (key n).
Definition get_parent (p : node_p) : M node_p := let* n := deref p in ret (parent n).
Definition get_left (p : node_p) : M node_p := let* n := deref p in ret (left n).
Definition get_right (p : node_p) : M node_p := let* n := deref p in ret (right n).
Definition get_color (p : node_p) : M bool := let* n := deref p in ret (color n).

Definition put_key (p : node_p) (v : Z) : M unit :=
  update p (λ n, mk_node v (parent n) (left n) (right n) (color n)).
Definition put_parent (p : node_p) (v : node_p) : M unit :=
  update p (λ n, mk_node (key n) v (left n) (right n) (color n)).
Definition put_left (p : node_p) (v : node_p) : M unit :=
  update p (λ n, mk_node (key n) (parent n) v (right n) (color n)).
Definition put_right (p : node_p) (v : node_p) : M unit :=
  update p (λ n, mk_node (key n) (parent n) (left n) v (color n)).
Definition put_color (p : node_p) (v : bool) : M unit :=
  update p (λ n, mk_node (key n) (parent n) (left n) (right n) v).

Definition get_root : M node_p := λ st, Ok (root st, st).
Definition put_root (r : node_p) : M unit := λ st, Ok (tt, set_root r st).

(** [new node(key)]: some address that is not in use; the constructor
    leaves the links NULL and the color red. *)
Definition new_node (k : Z) : M node_p := λ st,
  let a := fresh (dom (mem st)) in
  Ok (Some a, set_mem (<[a := mk_node k None None None red]> (mem st)) st).

(** [delete p]: the node is gone, later accesses through [p] fault. *)
Definition delete_ptr (p : node_p) : M unit := λ st,
  match p with
  | None => Ok (tt, st)
  | Some a => match mem st !! a with
              | Some _ => Ok (tt, set_mem (delete a (mem st)) st)
              | None => Fault
              end
  end.

Definition print (o : output) : M unit := λ st,
  Ok (tt, set_cout (cout st ++ [o]) st).
Definition append_prefix (s : string) : M unit := λ st,
  Ok (tt, set_prefix_tree (prefix_tree st +:+ s) st).
Definition put_prefix (s : string) : M unit := λ st,
  Ok (tt, set_prefix_tree s st).
Definition put_last (l : tmp_node) : M unit := λ st,
  Ok (tt, set_last (Some l) st).
Definition get_tmp_tree : M (list tmp_node) := λ st, Ok (tmp_tree st, st).

(** ** The tree engine *)

(** [RBTree::search_helper]. *)
Fixpoint search_helper (fuel : nat) (n : node_p) (k : Z) : M node_p :=
  match fuel with
  | O => out_of_fuel
  | S fuel =>
    let* stop := orM (ret (is_null n))
                     (let* nk := get_key n in ret (k =? nk)) in
    if stop then ret n
    else
      let* nk := get_key n in
      if k <? nk then
        let* l := get_left n in search_helper fuel l k
      else
        let* r := get_right n in search_helper fuel r k
  end.

(** [RBTree::search_tree]. *)
Definition search_tree (fuel : nat) (k : Z) : M node_p :=
  let* r := get_root in search_helper fuel r k.

(** [RBTree::insert_helper]. *)
Fixpoint insert_helper (fuel : nat) (rt n : node_p) : M node_p :=
  match fuel with
  | O => out_of_fuel
  | S fuel =>
    if is_null rt then ret n
    else
      let* nk := get_key n in
      let* rk := get_key rt in
      (if nk <? rk then
         let* l := get_left rt in
         let* l' := insert_helper fuel l n in
         put_left rt l' ;;;
         let* l'' := get_left rt in
         put_parent l'' rt
       else
         let* nk := get_key n in
         let* rk := get_key rt in
         if nk >? rk then
           let* r := get_right rt in
           let* r' := insert_helper fuel r n in
           put_right rt r' ;;;
           let* r'' := get_right rt in
           put_parent r'' rt
         else ret tt) ;;;
      ret rt
  end.

(** [RBTree::rotate_right]; the reference parameter [root] is always bound
    to the member [root]. *)
Definition rotate_right (n : node_p) : M unit :=
  let* l := get_left n in
  let* lr := get_right l in
  put_left n lr ;;;
  let* nl := get_left n in
  (if negb (is_null nl) then put_parent nl n else ret tt) ;;;
  let* np := get_parent n in
  put_parent l np ;;;
  let* np := get_parent n in
  (if is_null np then put_root l
   else
     let* npl := get_left np in
     if ptr_eqb n npl then put_left np l
     else put_right np l) ;;;
  put_right l n ;;;
  put_parent n l.

(** [RBTree::rotate_left]. *)
Definition rotate_left (n : node_p) : M unit :=
  let* r := get_right n in
  let* rl := get_left r in
  put_right n rl ;;;
  let* nr := get_right n in
  (if negb (is_null nr) then put_parent nr n else ret tt) ;;;
  let* np := get_parent n in
  put_parent r np ;;;
  let* np := get_parent n in
  (if is_null np then put_root r
   else
     let* npl := get_left np in
     if ptr_eqb n npl then put_left np r
     else put_right np r) ;;;
  put_left r n ;;;
  put_parent n r.

(** [RBTree::fix_insert]: one round of the [while] loop per unit of fuel;
    [n] is the loop variable [node]. *)
Fixpoint fix_insert (fuel : nat) (n : node_p) : M unit :=
  match fuel with
  | O => out_of_fuel
  | S fuel =>
    let* continue :=
      andM (let* rt := get_root in ret (negb (ptr_eqb n rt)))
        (andM (let* c := get_color n in ret (negb (eqb c black)))
              (let* p := get_parent n in
               let* pc := get_color p in ret (eqb pc red))) in
    if continue then
      let* p := get_parent n in
      let* g := get_parent p in
      let* gl := get_left g in
      if ptr_eqb p gl then
        let* uncle := get_right g in
        let* uncle_red :=
          andM (ret (negb (is_null uncle)))
               (let* uc := get_color uncle in ret (eqb uc red)) in
        if uncle_red then
          put_color g red ;;;
          put_color p black ;;;
          put_color uncle black ;;;
          fix_insert fuel g
        else
          let* pr := get_right p in
          let* np :=
            (if ptr_eqb n pr then
               rotate_left p ;;;
               let n' := p in
               let* p' := get_parent n' in
               ret (n', p')
             else ret (n, p)) in
          let p := np.2 in
          rotate_right g ;;;
          put_color p black ;;;
          put_color g red ;;;
          fix_insert fuel p
      else
        let* uncle := get_left g in
        let* uncle_red :=
          andM (ret (negb (is_null uncle)))
               (let* uc := get_color uncle in ret (eqb uc red)) in
        if uncle_red then
          put_color g red ;;;
          put_color p black ;;;
          put_color uncle black ;;;
          fix_insert fuel g
        else
          let* pl := get_left p in
          let* np :=
            (if ptr_eqb n pl then
               rotate_right p ;;;
               let n' := p in
               let* p' := get_parent n' in
               ret (n', p')
             else ret (n, p)) in
          let p := np.2 in
          rotate_left g ;;;
          put_color p black ;;;
          put_color g red ;;;
          fix_insert fuel p
    else
      let* rt := get_root in
      put_color rt black
  end.

(** [RBTree::insert_node]. *)
Definition insert_node (fuel : nat) (k : Z) : M unit :=
  let* found := search_tree fuel k in
  if is_null found then
    let* npt := new_node k in
    let* rt := get_root in
    let* rt' := insert_helper fuel rt npt in
    put_root rt' ;;;
    fix_insert fuel npt
  else ret tt.

(** [RBTree::red_child]. *)
Definition red_child (n : node_p) : M bool :=
  orM (andM (let* l := get_left n in ret (negb (is_null l)))
            (let* l := get_left n in
             let* c := get_color l in ret (eqb c red)))
      (andM (let* r := get_right n in ret (negb (is_null r)))
            (let* r := get_right n in
             let* c := get_color r in ret (eqb c red))).

(** [RBTree::is_on_left]. *)
Definition is_on_left (n : node_p) : M bool :=
  let* p := get_parent n in
  let* pl := get_left p in
  ret (ptr_eqb n pl).

(** [RBTree::sibling]. *)
Definition sibling (n : node_p) : M node_p :=
  let* p := get_parent n in
  if is_null p then ret None
  else
    let* onl := is_on_left n in
    if onl then
      let* p := get_parent n in get_right p
    else
      let* p := get_parent n in get_left p.

(** [RBTree::min]: one round of the [while] loop per unit of fuel. *)
Fixpoint min (fuel : nat) (tmp : node_p) : M node_p :=
  match fuel with
  | O => out_of_fuel
  | S fuel =>
    let* l := get_left tmp in
    if negb (is_null l) then min fuel l
    else ret tmp
  end.

(** [RBTree::swap_keys]. *)
Definition swap_keys (u v : node_p) : M unit :=
  let* tmp := get_key u in
  let* vk := get_key v in
  put_key u vk ;;;
  put_key v tmp.

(** [RBTree::replace]. *)
Definition replace (fuel : nat) (n : node_p) : M node_p :=
  let* both :=
    andM (let* l := get_left n in ret (negb (is_null l)))
         (let* r := get_right n in ret (negb (is_null r))) in
  if both then
    let* r := get_right n in min fuel r
  else
    let* none :=
      andM (let* l := get_left n in ret (is_null l))
           (let* r := get_right n in ret (is_null r)) in
    if none then ret None
    else
      let* l := get_left n in
      if negb (is_null l) then get_left n
      else get_right n.

(** [RBTree::fix_double_black]. *)
Fixpoint fix_double_black (fuel : nat) (n : node_p) : M unit :=
  match fuel with
  | O => out_of_fuel
  | S fuel =>
    let* rt := get_root in
    if ptr_eqb n rt then ret tt
    else
      let* sib := sibling n in
      let* par := get_parent n in
      if is_null sib then fix_double_black fuel par
      else
        let* sc := get_color sib in
        if eqb sc red then
          put_color par red ;;;
          put_color sib black ;;;
          let* onl := is_on_left sib in
          (if onl then rotate_right par else rotate_left par) ;;;
          fix_double_black fuel n
        else
          let* rc := red_child sib in
          if rc then
            let* left_red :=
              andM (let* sl := get_left sib in ret (negb (is_null sl)))
                   (let* sl := get_left sib in
                    let* c := get_color sl in ret (eqb c red)) in
            (if left_red then
               let* onl := is_on_left sib in
               if onl then
                 let* c := get_color sib in
                 let* sl := get_left sib in
                 put_color sl c ;;;
                 let* pc := get_color par in
                 put_color sib pc ;;;
                 rotate_right par
               else
                 let* pc := get_color par in
                 let* sl := get_left sib in
                 put_color sl pc ;;;
                 rotate_right sib ;;;
                 rotate_left par
             else
               let* onl := is_on_left sib in
               if onl then
                 let* pc := get_color par in
                 let* sr := get_right sib in
                 put_color sr pc ;;;
                 rotate_left sib ;;;
                 rotate_right par
               else
                 let* c := get_color sib in
                 let* sr := get_right sib in
                 put_color sr c ;;;
                 let* pc := get_color par in
                 put_color sib pc ;;;
                 rotate_left par) ;;;
            put_color par black
          else
            put_color sib red ;;;
            let* pc := get_color par in
            if eqb pc black then fix_double_black fuel par
            else put_color par black
  end.

(** [RBTree::delete_helper]. *)
Fixpoint delete_helper (fuel : nat) (n : node_p) : M unit :=
  match fuel with
  | O => out_of_fuel
  | S fuel =>
    let* m := replace fuel n in
    let* bb :=
      andM (orM (ret (is_null m))
                (let* mc := get_color m in ret (eqb mc black)))
           (let* nc := get_color n in ret (eqb nc black)) in
    let* par := get_parent n in
    if is_null m then
      let* rt := get_root in
      (if ptr_eqb n rt then put_root None
       else
         (if bb then fix_double_black fuel n
          else
            let* s := sibling n in
            if negb (is_null s) then
              let* s := sibling n in put_color s red
            else ret tt) ;;;
         let* onl := is_on_left n in
         if onl then put_left par None
         else put_right par None) ;;;
      delete_ptr n
    else
      let* one_child :=
        orM (let* l := get_left n in ret (is_null l))
            (let* r := get_right n in ret (is_null r)) in
      if one_child then
        let* rt := get_root in
        if ptr_eqb n rt then
          let* mk := get_key m in
          put_key n mk ;;;
          put_right n None ;;;
          put_left n None ;;;
          delete_ptr m
        else
          let* onl := is_on_left n in
          (if onl then put_left par m
           else put_right par m) ;;;
          delete_ptr n ;;;
          put_parent m par ;;;
          if bb then fix_double_black fuel m
          else put_color m black
      else
        swap_keys m n ;;;
        delete_helper fuel m
  end.

(** [RBTree::delete_node]. *)
Definition delete_node (fuel : nat) (k : Z) : M unit :=
  let* rt := get_root in
  if is_null rt then ret tt
  else
    let* n := search_tree fuel k in
    if is_null n then print (OutNotFound k)
    else delete_helper fuel n.

(** [RBTree::in_order_helper] and [RBTree::in_order]. *)
Fixpoint in_order_helper (fuel : nat) (rt : node_p) : M unit :=
  match fuel with
  | O => out_of_fuel
  | S fuel =>
    if is_null rt then ret tt
    else
      let* l := get_left rt in
      in_order_helper fuel l ;;;
      let* k := get_key rt in
      print (OutKey k) ;;;
      let* r := get_right rt in
      in_order_helper fuel r
  end.

Definition in_order (fuel : nat) : M unit :=
  let* rt := get_root in in_order_helper fuel rt.

(** [last->key]: reading through the unset pointer is undefined. *)
Definition get_last_key : M Z := λ st,
  match last st with
  | Some t => Ok (tkey t, st)
  | None => Fault
  end.

(** [to_string(int)]. *)
Definition to_string (k : Z) : string := pretty k.

(** [RBTree::prefix_order_helper]. *)
Fixpoint prefix_order_helper (fuel : nat) (n : node_p) : M unit :=
  match fuel with
  | O => out_of_fuel
  | S fuel =>
    if is_null n then ret tt
    else
      let* col := get_color n in
      let c := if col then "b" else "r" in
      let* k := get_key n in
      append_prefix (to_string k +:+ c +:+ ",") ;;;
      let* l := get_left n in
      (if is_null l then append_prefix "f," else ret tt) ;;;
      let* emit :=
        andM (let* r := get_right n in ret (is_null r))
             (let* lk := get_last_key in
              let* k := get_key n in ret (negb (lk =? k))) in
      (if emit then append_prefix "f," else ret tt) ;;;
      let* l := get_left n in
      prefix_order_helper fuel l ;;;
      let* r := get_right n in
      prefix_order_helper fuel r
  end.

(** [RBTree::prefix_order] and [RBTree::get_prefix_tree]. *)
Definition prefix_order (fuel : nat) : M unit :=
  put_prefix "" ;;;
  let* rt := get_root in
  prefix_order_helper fuel rt.


(** [RBTree::build_tree_helper]. *)
Fixpoint build_tree_helper (fuel : nat) (n : node_p) (curr : tmp_node)
  : M node_p :=
  match fuel with
  | O => out_of_fuel
  | S fuel =>
    if is_null n then
      let* n' := new_node (tkey curr) in
      put_color n' (tcolor curr) ;;;
      ret n'
    else
      let* nk := get_key n in
      (if tkey curr >? nk then
         let* r := get_right n in
         let* r' := build_tree_helper fuel r curr in
         put_right n r' ;;;
         let* r'' := get_right n in
         put_parent r'' n
       else
         let* l := get_left n in
         let* l' := build_tree_helper fuel l curr in
         put_left n l' ;;;
         let* l'' := get_left n in
         put_parent l'' n) ;;;
      ret n
  end.

(** The [while] loop of [RBTree::build_tree] over the rest of the vector. *)
Fixpoint build_tree_loop (fuel : nat) (rest : list tmp_node) : M unit :=
  match rest with
  | [] => ret tt
  | curr :: rest =>
    (if negb (tkey curr =? -1) then
       put_last curr ;;;
       let* rt := get_root in
       build_tree_helper fuel rt curr ;;;
       ret tt
     else ret tt) ;;;
    build_tree_loop fuel rest
  end.

(** [RBTree::build_tree]; dereferencing [begin()] of an empty vector is
    undefined. *)
Definition build_tree (fuel : nat) : M unit :=
  let* ts := get_tmp_tree in
  match ts with
  | [] => fault
  | root_tmp :: rest =>
    let* rt := get_root in
    let* rt' := build_tree_helper fuel rt root_tmp in
    put_root rt' ;;;
    build_tree_loop fuel rest
  end.

(** ** The tree a heap holds

    The tree the class owns, as a value: every node with its address, so
    that the heap, all links included, is a function of the tree. *)

Inductive tree :=
  | E
  | T (a : addr) (c : bool) (l : tree) (k : Z) (r : tree).

Definition ptr_of (t : tree) : node_p :=
  match t with E => None | T a _ _ _ _ => Some a end.

(** An absent child counts as black. *)
Definition color_of (t : tree) : bool :=
  match t with E => black | T _ c _ _ _ => c end.

(** The heap cells of a tree whose root has parent link [par]. *)
Fixpoint cells (par : node_p) (t : tree) : list (addr * node) :=
  match t with
  | E => []
  | T a c l k r =>
    (a, mk_node k par (ptr_of l) (ptr_of r) c)
      :: cells (Some a) l ++ cells (Some a) r
  end.

Fixpoint addrs (t : tree) : list addr :=
  match t with
  | E => []
  | T a _ l _ r => a :: addrs l ++ addrs r
  end.

(** Keys in in-order. *)
Fixpoint keys (t : tree) : list Z :=
  match t with
  | E => []
  | T _ _ l k r => keys l ++ k :: keys r
  end.

(** Number of nodes on the longest path from the root down. *)
Fixpoint height (t : tree) : nat :=
  match t with
  | E => O
  | T _ _ l _ r => S (height l `max` height r)
  end.

Definition heap_of (t : tree) : gmap addr node := list_to_map (cells None t).

(** No node is shared: all addresses differ. *)
Definition wf (t : tree) : Prop := NoDup (addrs t).

(** The state [s] with its heap and root replaced by those of [t]. *)
Definition St (s : RBTree) (t : tree) : RBTree :=
  mk_RBTree (heap_of t) (ptr_of t) (last s) (tmp_tree s) (prefix_tree s)
    (cout s).

(** The object [st] holds exactly the tree [t]. *)
Definition rep (st : RBTree) (t : tree) : Prop :=
  mem st = heap_of t ∧ root st = ptr_of t ∧ wf t.

(** *** Trees with a hole: the path from a node up to the root *)

Inductive frame :=
  | FL (a : addr) (c : bool) (k : Z) (r : tree)   (* the hole is the left child *)
  | FR (a : addr) (c : bool) (l : tree) (k : Z).  (* the hole is the right child *)

Definition fill (f : frame) (t : tree) : tree :=
  match f with
  | FL a c k r => T a c t k r
  | FR a c l k => T a c l k t
  end.

Definition faddr (f : frame) : addr :=
  match f with FL a _ _ _ => a | FR a _ _ _ => a end.
Definition fsib (f : frame) : tree :=
  match f with FL _ _ _ r => r | FR _ _ l _ => l end.
Definition fcolor (f : frame) : bool :=
  match f with FL _ c _ _ => c | FR _ c _ _ => c end.

(** Innermost frame first. *)
Fixpoint plug (ctx : list frame) (t : tree) : tree :=
  match ctx with
  | [] => t
  | f :: ctx => plug ctx (fill f t)
  end.

Definition par_of (ctx : list frame) : node_p :=
  match ctx with [] => None | f :: _ => Some (faddr f) end.

Definition frame_cell (f : frame) (hole par : node_p) : addr * node :=
  match f with
  | FL a c k r => (a, mk_node k par hole (ptr_of r) c)
  | FR a c l k => (a, mk_node k par (ptr_of l) hole c)
  end.

Fixpoint ctx_cells (ctx : list frame) (hole : node_p) : list (addr * node) :=
  match ctx with
  | [] => []
  | f :: ctx =>
    frame_cell f hole (par_of ctx)
      :: cells (Some (faddr f)) (fsib f) ++ ctx_cells ctx (Some (faddr f))
  end.

Fixpoint ctx_addrs (ctx : list frame) : list addr :=
  match ctx with
  | [] => []
  | f :: ctx => faddr f :: addrs (fsib f) ++ ctx_addrs ctx
  end.

(** ** Red-black invariants (section 3 of the specification)

    Invariant 1 (every node red or black, the empty child black) is built
    into [color] being a [bool] and [color_of E = black]. *)

(** Invariant 2: the root is black or the tree is empty. *)
Definition inv_root (t : tree) : Prop := color_of t = black.

(** Invariant 3: a red node never has a red child ([c] is [false] at a
    red node). *)
Fixpoint inv_red (t : tree) : Prop :=
  match t with
  | E => True
  | T _ c l _ r =>
    (if c then True else color_of l = black ∧ color_of r = black)
    ∧ inv_red l ∧ inv_red r
  end.

(** Invariant 4: [bh t n] says every path from the root of [t] to an empty
    child passes through [n] black nodes, and so below every node. *)
Fixpoint bh (t : tree) (n : nat) : Prop :=
  match t with
  | E => n = O
  | T _ c l _ r =>
    if c then match n with O => False | S m => bh l m ∧ bh r m end
    else bh l n ∧ bh r n
  end.
Definition inv_bh (t : tree) : Prop := ∃ n, bh t n.

(** Invariant 5: keys to the left are less, keys to the right greater. *)
Fixpoint inv_bst (t : tree) : Prop :=
  match t with
  | E => True
  | T _ _ l k r =>
    Forall (λ x, x < k) (keys l) ∧ Forall (λ x, k < x) (keys r)
    ∧ inv_bst l ∧ inv_bst r
  end.

Definition rb_inv (t : tree) : Prop :=
  inv_root t ∧ inv_red t ∧ inv_bh t ∧ inv_bst t.

(** Invariants 1-5 hold of the object. *)
Definition valid (st : RBTree) : Prop := ∃ t, rep st t ∧ rb_inv t.

(** ** What the methods compute, on trees *)

(** The subtree the descent of [search_helper] stops at. *)
Fixpoint lookup_tree (k : Z) (t : tree) : tree :=
  match t with
  | E => E
  | T _ _ l k' r =>
    if k =? k' then t
    else if k <? k' then lookup_tree k l
    else lookup_tree k r
  end.

(** A small tree used to instantiate the theorems below:
    10 (black) with the red children 5 and 15. *)
Definition ex_tree : tree :=
  T 1%positive black (T 2%positive red E 5 E) 10 (T 3%positive red E 15 E).
Definition ex_state : RBTree := St (RBTree_new []) ex_tree.

(** ** The readers-writers monitor [rw_monitor]

    The four methods run under the mutex [cond_lock], so each is atomic up
    to a call of [pthread_cond_wait], which releases the mutex and blocks
    the caller on a condition variable.  A method that waits is therefore
    two atomic steps: up to the wait, and from the return of the wait
    (after a signal, with the mutex taken again) to the end.  Between the
    signal and that return any other thread may take the mutex first: that
    is how condition variables of POSIX threads behave.

    Threads are numbered; the [int] argument of the methods is that
    number. *)

Module Monitor.

Definition tid := nat.

Record rw_monitor := mk_monitor {
  num_readers : Z;
  num_writers : Z;
  readers_wait : Z;
  writers_wait : Z;
  (* threads blocked inside pthread_cond_wait, longest wait first *)
  can_read : list tid;
  can_write : list tid;
  (* threads that were signalled and have not yet left pthread_cond_wait *)
  woken_read : list tid;
  woken_write : list tid;
  (* threads between the return of begin_read and the call of end_read *)
  reading : list tid;
  (* threads between the return of begin_write and the call of end_write *)
  writing : list tid
}.

(** The constructor [rw_monitor()]. *)
Definition init : rw_monitor := mk_monitor 0 0 0 0 [] [] [] [] [] [].

Definition idle (t : tid) (m : rw_monitor) : bool :=
  bool_decide (t ∉ can_read m ++ can_write m ++ woken_read m ++ woken_write m
                   ++ reading m ++ writing m).

Definition remove_tid (t : tid) (l : list tid) : list tid :=
  filter (λ x, x ≠ t) l.

(** [pthread_cond_signal]: wakes one blocked thread, if there is one. *)
Definition signal_read (m : rw_monitor) : rw_monitor :=
  match can_read m with
  | [] => m
  | t :: rest =>
    mk_monitor (num_readers m) (num_writers m) (readers_wait m)
      (writers_wait m) rest (can_write m) (woken_read m ++ [t])
      (woken_write m) (reading m) (writing m)
  end.
Definition signal_write (m : rw_monitor) : rw_monitor :=
  match can_write m with
  | [] => m
  | t :: rest =>
    mk_monitor (num_readers m) (num_writers m) (readers_wait m)
      (writers_wait m) (can_read m) rest (woken_read m)
      (woken_write m ++ [t]) (reading m) (writing m)
  end.
(** [pthread_cond_broadcast(&can_read)]: wakes every blocked reader. *)
Definition broadcast_read (m : rw_monitor) : rw_monitor :=
  mk_monitor (num_readers m) (num_writers m) (readers_wait m)
    (writers_wait m) [] (can_write m) (woken_read m ++ can_read m)
    (woken_write m) (reading m) (writing m).

(** [begin_read] from [num_readers++] to the end. *)
Definition begin_read_admit (reader : tid) (m : rw_monitor) : rw_monitor :=
  broadcast_read
    (mk_monitor (num_readers m + 1) (num_writers m) (readers_wait m)
       (writers_wait m) (can_read m) (can_write m) (woken_read m)
       (woken_write m) (reading m ++ [reader]) (writing m)).

(** [begin_read], up to the wait if it waits. *)
Definition begin_read (reader : tid) (m : rw_monitor) : rw_monitor :=
  if (num_writers m =? 1) || (writers_wait m >? 0) then
    mk_monitor (num_readers m) (num_writers m) (readers_wait m + 1)
      (writers_wait m) (can_read m ++ [reader]) (can_write m)
      (woken_read m) (woken_write m) (reading m) (writing m)
  else begin_read_admit reader m.

(** [begin_read] from the return of [pthread_cond_wait]: the condition is
    not tested again. *)
Definition begin_read_resume (reader : tid) (m : rw_monitor) : rw_monitor :=
  begin_read_admit reader
    (mk_monitor (num_readers m) (num_writers m) (readers_wait m - 1)
       (writers_wait m) (can_read m) (can_write m)
       (remove_tid reader (woken_read m)) (woken_write m) (reading m)
       (writing m)).

(** [end_read]: [num_readers-- == 0] compares the value before the
    decrement. *)
Definition end_read (reader : tid) (m : rw_monitor) : rw_monitor :=
  let old := num_readers m in
  let m' :=
    mk_monitor (num_readers m - 1) (num_writers m) (readers_wait m)
      (writers_wait m) (can_read m) (can_write m) (woken_read m)
      (woken_write m) (remove_tid reader (reading m)) (writing m) in
  if old =? 0 then signal_write m' else m'.

(** [begin_write] from [num_writers = 1] to the end. *)
Definition begin_write_admit (writer : tid) (m : rw_monitor) : rw_monitor :=
  mk_monitor (num_readers m) 1 (readers_wait m) (writers_wait m)
    (can_read m) (can_write m) (woken_read m) (woken_write m) (reading m)
    (writing m ++ [writer]).

(** [begin_write], up to the wait if it waits. *)
Definition begin_write (writer : tid) (m : rw_monitor) : rw_monitor :=
  if (num_writers m =? 1) || (num_readers m >? 0) then
    mk_monitor (num_readers m) (num_writers m) (readers_wait m)
      (writers_wait m + 1) (can_read m) (can_write m ++ [writer])
      (woken_read m) (woken_write m) (reading m) (writing m)
  else begin_write_admit writer m.

(** [begin_write] from the return of [pthread_cond_wait]. *)
Definition begin_write_resume (writer : tid) (m : rw_monitor) : rw_monitor :=
  begin_write_admit writer
    (mk_monitor (num_readers m) (num_writers m) (readers_wait m)
       (writers_wait m - 1) (can_read m) (can_write m) (woken_read m)
       (remove_tid writer (woken_write m)) (reading m) (writing m)).

(** [end_write]. *)
Definition end_write (writer : tid) (m : rw_monitor) : rw_monitor :=
  let m' :=
    mk_monitor (num_readers m) 0 (readers_wait m) (writers_wait m)
      (can_read m) (can_write m) (woken_read m) (woken_write m)
      (reading m) (remove_tid writer (writing m)) in
  if readers_wait m' >? 0 then signal_read m' else signal_write m'.

(** The atomic steps threads can take. *)
Inductive event :=
  | BeginRead (t : tid)       (* t calls begin_read *)
  | ResumeRead (t : tid)      (* t returns from the wait in begin_read *)
  | EndRead (t : tid)         (* t calls end_read *)
  | BeginWrite (t : tid)
  | ResumeWrite (t : tid)
  | EndWrite (t : tid).

(** A step is possible when the thread is where the event says: idle
    before a begin, woken before a resume, admitted before an end. *)
Definition step (m : rw_monitor) (e : event) : option rw_monitor :=
  match e with
  | BeginRead t => if idle t m then Some (begin_read t m) else None
  | ResumeRead t =>
    if bool_decide (t ∈ woken_read m) then Some (begin_read_resume t m)
    else None
  | EndRead t =>
    if bool_decide (t ∈ reading m) then Some (end_read t m) else None
  | BeginWrite t => if idle t m then Some (begin_write t m) else None
  | ResumeWrite t =>
    if bool_decide (t ∈ woken_write m) then Some (begin_write_resume t m)
    else None
  | EndWrite t =>
    if bool_decide (t ∈ writing m) then Some (end_write t m) else None
  end.

Fixpoint run (m : rw_monitor) (es : list event) : option rw_monitor :=
  match es with
  | [] => Some m
  | e :: es => match step m e with Some m' => run m' es | None => None end
  end.

(** The states some interleaving of the threads reaches. *)
Definition reachable (m : rw_monitor) : Prop := ∃ es, run init es = Some m.

(** Writers exclude each other and all readers. *)
Definition exclusive (m : rw_monitor) : Prop :=
  (length (writing m) ≤ 1)%nat
  ∧ (writing m ≠ [] → reading m = [] ∧ num_readers m = 0).

End Monitor.

(** *** Serialization *)

(** The token of a node: its key and the letter of its color. *)
Definition node_token (c : bool) (k : Z) : string :=
  to_string k +:+ (if c then "b" else "r").

(** Every token is followed by a comma. *)
Fixpoint render (ts : list string) : string :=
  match ts with
  | [] => ""
  | t :: ts => t +:+ "," +:+ render ts
  end.

(** The tokens [prefix_order_helper] writes for a tree when [last->key] is
    [lk]: a node, the markers of its absent children, then the left and
    the right subtree. *)
Fixpoint tokens (lk : Z) (t : tree) : list string :=
  match t with
  | E => []
  | T _ c l k r =>
    node_token c k
      :: (if is_null (ptr_of l) then ["f"] else [])
      ++ (if is_null (ptr_of r) && negb (lk =? k) then ["f"] else [])
      ++ tokens lk l ++ tokens lk r
  end.

(** The serialization as the specification words it: pre-order, an [f] in
    the place of every absent child, parent before the whole left subtree
    before the whole right subtree, without the [f] of the absent right
    child of the node whose key is [last->key]. *)
Fixpoint preorder_tokens (lk : Z) (t : tree) : list string :=
  match t with
  | E => ["f"]
  | T _ c l k r =>
    node_token c k
      :: preorder_tokens lk l
      ++ (if is_null (ptr_of r) && (lk =? k) then []
          else preorder_tokens lk r)
  end.

(** The entries of the bulk-load input that carry a key. *)
Definition keyed (e : tmp_node) : bool := negb (tkey e =? -1).

(** The value [build_tree] leaves in [last]: the last keyed entry after the
    first entry, if there is one. *)
Definition last_keyed (old : option tmp_node) (rest : list tmp_node)
  : option tmp_node :=
  foldl (λ acc e, if keyed e then Some e else acc) old rest.

(** A method that leaves the members [last] and [tmp_tree] alone. *)
Definition keeps_last {A} (m : M A) : Prop :=
  ∀ st a st', m st = Ok (a, st') →
    last st' = last st ∧ tmp_tree st' = tmp_tree st.

(** The object after bulk-loading the single entry [10b]. *)
Definition ex_built : RBTree :=
  match build_tree 3 (RBTree_new [mk_tmp 10 black]) with
  | Ok (_, st) => st
  | _ => RBTree_new []
  end.

(** *** The invariants, cut at a node

    Black height along the leftmost path, and balance: at every node both
    subtrees have the same black height.  [bh t n] is [balanced t] with
    [bhf t = n]. *)
Fixpoint bhf (t : tree) : nat :=
  match t with
  | E => O
  | T _ c l _ _ => (bhf l + if c then 1 else 0)%nat
  end.

Fixpoint balanced (t : tree) : Prop :=
  match t with
  | E => True
  | T _ _ l _ r => bhf l = bhf r ∧ balanced l ∧ balanced r
  end.

(** A context is balanced for a hole of black height [h]. *)
Fixpoint ctx_bal (ctx : list frame) (h : nat) : Prop :=
  match ctx with
  | [] => True
  | f :: ctx =>
    bhf (fsib f) = h ∧ balanced (fsib f)
    ∧ ctx_bal ctx (h + if fcolor f then 1 else 0)%nat
  end.

(** Invariant 3 in a context whose hole has a root of color [hc]. *)
Fixpoint ctx_red (ctx : list frame) (hc : bool) : Prop :=
  match ctx with
  | [] => True
  | f :: ctx =>
    inv_red (fsib f)
    ∧ (if fcolor f then True else hc = black ∧ color_of (fsib f) = black)
    ∧ ctx_red ctx (fcolor f)
  end.

(** The color of the root of a plugged context. *)
Fixpoint ctx_rootc (ctx : list frame) (hc : bool) : bool :=
  match ctx with
  | [] => hc
  | f :: ctx => ctx_rootc ctx (fcolor f)
  end.

(** The keys to the left and to the right of the hole. *)
Fixpoint ctx_kl (ctx : list frame) : list Z :=
  match ctx with
  | [] => []
  | FL _ _ _ _ :: ctx => ctx_kl ctx
  | FR _ _ l k :: ctx => ctx_kl ctx ++ keys l ++ [k]
  end.
Fixpoint ctx_kr (ctx : list frame) : list Z :=
  match ctx with
  | [] => []
  | FL _ _ k r :: ctx => k :: keys r ++ ctx_kr ctx
  | FR _ _ _ _ :: ctx => ctx_kr ctx
  end.

(** Where [insert_helper] links the new node [n] with key [k]. *)
Fixpoint ins (n : addr) (k : Z) (t : tree) : tree :=
  match t with
  | E => T n red E k E
  | T a c l ka r =>
    if k <? ka then T a c (ins n k l) ka r
    else if k >? ka then T a c l ka (ins n k r)
    else t
  end.

(** The object holding the tree [t] right after [new node(k)] returned the
    address [n]: the new node is in the heap, linked to nothing. *)
Definition Detached (s : RBTree) (t : tree) (n : addr) (k : Z) : RBTree :=
  set_mem (<[n := mk_node k None None None red]> (heap_of t)) (St s t).

(** [root->color = black]. *)
Definition blacken (t : tree) : tree :=
  match t with E => E | T a _ l k r => T a black l k r end.

(** What [fix_double_black] does to the context [ctx] of the node it is
    called on: the context [ctx'] it leaves is balanced for a hole one
    black node shorter ([h] instead of [S h]), and holds the same keys and
    nodes on either side; the parent of the node is still the same. *)
Definition dbl_post (ctx ctx' : list frame) (h : nat) : Prop :=
  ctx_bal ctx' h ∧ ctx_red ctx' black ∧ ctx_rootc ctx' black = black
  ∧ ctx_kl ctx' = ctx_kl ctx ∧ ctx_kr ctx' = ctx_kr ctx
  ∧ ctx_addrs ctx' ≡ₚ ctx_addrs ctx ∧ par_of ctx' = par_of ctx.

(** ** Fuel

    [mono m m']: whenever [m] returns, [m'] returns the same.  More fuel
    never changes the result of a run that returned. *)
Definition mono {A} (m m' : M A) : Prop :=
  ∀ st r, m st = Ok r → m' st = Ok r.

(** ** Sequences of operations *)

Inductive op :=
  | Insert (k : Z)
  | Delete (k : Z).

Definition apply_op (fuel : nat) (o : op) : M unit :=
  match o with
  | Insert k => insert_node fuel k
  | Delete k => delete_node fuel k
  end.

(** [steps st os sts]: the operations [os], run one after the other from
    [st], all return; [sts] are the states after each of them. *)
Inductive steps : RBTree → list op → list RBTree → Prop :=
  | steps_nil st : steps st [] []
  | steps_cons st o fuel st' os sts :
      apply_op fuel o st = Ok (tt, st') →
      steps st' os sts →
      steps st (o :: os) (st' :: sts).

(** The same run as a function, with the same fuel for every operation;
    it stops at the first operation that does not return. *)
Fixpoint exec (fuel : nat) (os : list op) (st : RBTree) : list RBTree :=
  match os with
  | [] => []
  | o :: os =>
    match apply_op fuel o st with
    | Ok (_, st') => st' :: exec fuel os st'
    | _ => []
    end
  end.

(** The keys of the tree after an operation, given the keys [L] before. *)
Definition keys_after (o : op) (L : list Z) (x : Z) : Prop :=
  match o with
  | Insert k => x = k ∨ x ∈ L
  | Delete k => x ∈ L ∧ x ≠ k
  end.

(** Three black nodes: the tree left by inserting 10, 20, 30, 40 and
    deleting 40. *)
Definition ex_black3 : tree :=
  T 2%positive black (T 1%positive black E 10 E) 20
    (T 3%positive black E 30 E).

(** Insert 10, 20, 30, 40 into the empty tree, then delete 40 and 20. *)
Definition ex_inserted : list RBTree :=
  exec 6 (Insert <$> [10; 20; 30; 40]) (RBTree_new []).
Definition ex_deleted : list RBTree :=
  exec 6 (Delete <$> [40; 20])
    (default (RBTree_new []) (list.last ex_inserted)).
Definition ex_final : RBTree :=
  default (RBTree_new []) (ex_deleted !! 1%nat).

(** ** Looking a key up

    [found st x]: [search_tree] returns a node of [st], and the node
    holds the key [x]. *)
Definition found (st : RBTree) (x : Z) : Prop :=
  ∃ fuel n, search_tree fuel x st = Ok (Some n, st)
            ∧ get_key (Some n) st = Ok (x, st).

(** The object after [insert_node(7)] on the example tree. *)
Definition ex_after_insert : RBTree :=
  default ex_state (head (exec 5 [Insert 7] ex_state)).

(** ** Bulk loading

    The object right after [new node(k)] returned [n] and [n->color] was
    set to [c]. *)
Definition DetachedC (s : RBTree) (t : tree) (n : addr) (k : Z) (c : bool)
  : RBTree :=
  set_mem (<[n := mk_node k None None None c]> (heap_of t)) (St s t).

(** Where [build_tree_helper] links the node [n] made for the entry [e]:
    to the right of smaller keys, to the left of all others. *)
Fixpoint bins (n : addr) (e : tmp_node) (t : tree) : tree :=
  match t with
  | E => T n (tcolor e) E (tkey e) E
  | T a c l k r =>
    if tkey e >? k then T a c l k (bins n e r)
    else T a c (bins n e l) k r
  end.


(** Trees without addresses. *)
Inductive shape :=
  | SE
  | ST (c : bool) (l : shape) (k : Z) (r : shape).

Fixpoint skel (t : tree) : shape :=
  match t with
  | E => SE
  | T _ c l k r => ST c (skel l) k (skel r)
  end.





(** The entries of the example tree as an input file lists them, with the
    markers of the absent children. *)
Definition ex_entries : list tmp_node :=
  [mk_tmp 10 black; mk_tmp 5 red; mk_tmp (-1) black; mk_tmp (-1) black;
   mk_tmp 15 red; mk_tmp (-1) black; mk_tmp (-1) black].

(** ** The monitor: threads and counters

    All threads the monitor knows: blocked, signalled, or admitted. *)
Definition monitor_threads (m : Monitor.rw_monitor) : list Monitor.tid :=
  Monitor.can_read m ++ Monitor.can_write m ++ Monitor.woken_read m
    ++ Monitor.woken_write m ++ Monitor.reading m ++ Monitor.writing m.

(** The counters agree with the places of the threads. *)
Definition counters_agree (m : Monitor.rw_monitor) : Prop :=
  NoDup (monitor_threads m)
  ∧ Monitor.num_readers m = Z.of_nat (length (Monitor.reading m))
  ∧ Monitor.readers_wait m
    = Z.of_nat (length (Monitor.can_read m) + length (Monitor.woken_read m))
  ∧ Monitor.writers_wait m
    = Z.of_nat (length (Monitor.can_write m) + length (Monitor.woken_write m))
  ∧ (Monitor.num_writers m = 0 ∨ Monitor.num_writers m = 1).


(** A reader is in, a writer waits for it; then the reader leaves and
    another reader arrives. *)
Definition ex_monitor : Monitor.rw_monitor :=
  default Monitor.init
    (Monitor.run Monitor.init [Monitor.BeginRead 1%nat; Monitor.BeginWrite 2%nat]).

(** ** Level order

    [RBTree::level_order_helper] and [RBTree::level_order].  The
    [queue<node_p>] is a list, front first; one round of the [while] loop
    per unit of fuel. *)
Fixpoint level_order_loop (fuel : nat) (q : list node_p) : M unit :=
  match q with
  | [] => ret tt
  | temp :: q =>
    match fuel with
    | O => out_of_fuel
    | S fuel =>
      let* k := get_key temp in
      print (OutKey k) ;;;
      let* l := get_left temp in
      let* q :=
        (if negb (is_null l) then let* l := get_left temp in ret (q ++ [l])
         else ret q) in
      let* r := get_right temp in
      let* q :=
        (if negb (is_null r) then let* r := get_right temp in ret (q ++ [r])
         else ret q) in
      level_order_loop fuel q
    end
  end.

Definition level_order_helper (fuel : nat) (rt : node_p) : M unit :=
  if is_null rt then ret tt
  else level_order_loop fuel [rt].

Definition level_order (fuel : nat) : M unit :=
  let* rt := get_root in level_order_helper fuel rt.

(** The non-empty children of the roots of a forest, left to right. *)
Definition kids (t : tree) : list tree :=
  match t with E => [] | T _ _ _ _ _ => [t] end.
Definition children (q : list tree) : list tree :=
  q ≫= λ t, match t with E => [] | T _ _ l _ r => kids l ++ kids r end.
Definition roots (q : list tree) : list Z :=
  q ≫= λ t, match t with E => [] | T _ _ _ k _ => [k] end.

(** The keys of a forest level by level: the roots from left to right,
    then the level below; [h] levels. *)
Fixpoint by_levels (h : nat) (q : list tree) : list Z :=
  match h with
  | O => []
  | S h => roots q ++ by_levels h (children q)
  end.

(** The keys in the order the queue hands them out. *)
Fixpoint bfs (fuel : nat) (q : list tree) : list Z :=
  match q with
  | [] => []
  | E :: _ => []
  | T _ _ l k r :: q =>
    match fuel with
    | O => []
    | S fuel => k :: bfs fuel (q ++ kids l ++ kids r)
    end
  end.

Definition size_forest (q : list tree) : nat :=
  length (q ≫= keys).

(** The example tree with [last] set, as after a bulk load. *)
Definition ex_loaded : RBTree :=
  St (set_last (Some (mk_tmp 15 red)) (RBTree_new ex_entries)) ex_tree.

(** Insert 10, 20, 30, 40 and delete them all again. *)
Definition ex_emptied : list RBTree :=
  exec 6 (Delete <$> [40; 20; 10; 30])
    (default (RBTree_new []) (list.last ex_inserted)).

(** The steps in which a thread returns from [pthread_cond_wait]. *)
Definition resume_event (e : Monitor.event) : bool :=
  match e with
  | Monitor.ResumeRead _ | Monitor.ResumeWrite _ => true
  | _ => false
  end.

(** Either no writer is in and [num_writers] is 0, or one writer is in,
    [num_writers] is 1 and no reader is in. *)
Definition one_writer (m : Monitor.rw_monitor) : Prop :=
  (Monitor.writing m = [] ∧ Monitor.num_writers m = 0)
  ∨ (∃ w, Monitor.writing m = [w] ∧ Monitor.num_writers m = 1
          ∧ Monitor.reading m = []).

(** Writer 1 is in; reader 2 and writer 3 wait. *)
Definition ex_monitor_busy : Monitor.rw_monitor :=
  default Monitor.init
    (Monitor.run Monitor.init
       [Monitor.BeginWrite 1%nat; Monitor.BeginRead 2%nat;
        Monitor.BeginWrite 3%nat]).

(** * Proofs *)

(** ** The monad, pointwise *)

Lemma bind_Ok {A B} (m : M A) (k : A → M B) st a st' :
  m st = Ok (a, st') → bind m k st = k a st'.
Proof. unfold bind. by intros ->. Qed.

Lemma bind_assoc {A B C} (m : M A) (f : A → M B) (g : B → M C) st :
  bind (bind m f) g st = bind m (λ x, bind (f x) g) st.
Proof. unfold bind. by destruct (m st) as [[??]| |]. Qed.

Lemma bind_ret {A B} (a : A) (k : A → M B) st : bind (ret a) k st = k a st.
Proof. done. Qed.

Lemma ptr_eqb_refl p : ptr_eqb p p = true.
Proof. by apply bool_decide_eq_true_2. Qed.

Lemma ptr_eqb_ne p q : p ≠ q → ptr_eqb p q = false.
Proof. apply bool_decide_eq_false_2. Qed.

(** ** Permutations of lists built from [::] and [++] *)

Definition one {A} (x : A) : list A := [x].

Lemma cons_one {A} (x : A) l : x :: l = one x ++ l.
Proof. done. Qed.
Lemma perm_init {A} (l r : list A) : l ++ [] ≡ₚ r ++ [] → l ≡ₚ r.
Proof. by rewrite !app_nil_r. Qed.
Lemma perm_rot {A} (l b r : list A) : l ≡ₚ r ++ b ++ [] → l ≡ₚ b ++ r.
Proof. intros ->. rewrite app_nil_r. apply Permutation_app_comm. Qed.

Ltac perm_flat := rewrite <- ?app_assoc; cbn [app].
Ltac perm_find n :=
  lazymatch goal with
  | |- ?X ++ _ ≡ₚ ?X ++ _ => apply Permutation_app_head
  | |- _ =>
    lazymatch n with
    | O => fail "perm: atom not found"
    | S ?m => apply perm_rot; perm_flat; perm_find m
    end
  end.
Ltac perm :=
  rewrite ?cons_one; rewrite ?app_nil_r; apply perm_init; perm_flat;
  repeat (lazymatch goal with
          | |- [] ≡ₚ [] => reflexivity
          | |- _ => perm_find 40%nat
          end).

(** ** Heap cells of a tree *)

Lemma fst_cells par t : (cells par t).*1 = addrs t.
Proof.
  revert par. induction t as [|a c l IHl k r IHr]; intros par; [done|].
  cbn. by rewrite fmap_app, IHl, IHr.
Qed.

Lemma fst_ctx_cells ctx hole : (ctx_cells ctx hole).*1 = ctx_addrs ctx.
Proof.
  revert hole. induction ctx as [|f ctx IH]; intros hole; [done|].
  cbn. rewrite fmap_app, fst_cells, IH. by destruct f.
Qed.

Lemma cells_plug ctx t :
  cells None (plug ctx t) ≡ₚ cells (par_of ctx) t ++ ctx_cells ctx (ptr_of t).
Proof.
  revert t. induction ctx as [|f ctx IH]; intros t; cbn.
  - by rewrite app_nil_r.
  - rewrite IH. destruct f; cbn; perm.
Qed.

Lemma addrs_plug ctx t : addrs (plug ctx t) ≡ₚ addrs t ++ ctx_addrs ctx.
Proof.
  revert t. induction ctx as [|f ctx IH]; intros t; cbn.
  - by rewrite app_nil_r.
  - rewrite IH. destruct f; cbn; perm.
Qed.

Lemma ptr_of_plug f ctx t t' :
  ptr_of (plug (f :: ctx) t) = ptr_of (plug (f :: ctx) t').
Proof.
  revert f t t'. induction ctx as [|g ctx IH]; intros f t t'.
  - by destruct f.
  - cbn. apply (IH g).
Qed.

Lemma ptr_of_plug_same ctx t t' :
  ptr_of t = ptr_of t' → ptr_of (plug ctx t) = ptr_of (plug ctx t').
Proof. destruct ctx; [done|]. intros _. apply ptr_of_plug. Qed.

Lemma ptr_of_plug_in ctx t a :
  ptr_of (plug ctx t) = Some a → a ∈ addrs t ++ ctx_addrs ctx.
Proof.
  revert t. induction ctx as [|f ctx IH]; intros t; cbn.
  - destruct t; [done|]. intros [= ->]. set_solver.
  - intros H. apply IH in H. destruct f; cbn in *; set_solver.
Qed.

(** The heap of a tree, cut at a node. *)
Lemma heap_of_perm t L :
  wf t → cells None t ≡ₚ L → heap_of t = list_to_map L.
Proof.
  intros Hwf HL. unfold heap_of. apply list_to_map_proper; [|done].
  by rewrite fst_cells.
Qed.

Lemma wf_perm t t' : addrs t ≡ₚ addrs t' → wf t → wf t'.
Proof. unfold wf. by intros ->. Qed.

Lemma wf_plug_perm ctx t t' :
  addrs t ≡ₚ addrs t' → wf (plug ctx t) → wf (plug ctx t').
Proof. intros H. apply wf_perm. by rewrite !addrs_plug, H. Qed.

(** ** Reading and writing the node in focus *)

Lemma lookup_focus ctx a c l k r :
  wf (plug ctx (T a c l k r)) →
  heap_of (plug ctx (T a c l k r)) !! a
  = Some (mk_node k (par_of ctx) (ptr_of l) (ptr_of r) c).
Proof.
  intros Hwf. rewrite (heap_of_perm _ _ Hwf (cells_plug _ _)). cbn.
  apply lookup_insert_eq.
Qed.

Lemma St_eq s t t' :
  heap_of t = heap_of t' → ptr_of t = ptr_of t' → St s t = St s t'.
Proof. unfold St. by intros -> ->. Qed.

Lemma deref_focus s ctx a c l k r :
  wf (plug ctx (T a c l k r)) →
  deref (Some a) (St s (plug ctx (T a c l k r)))
  = Ok (mk_node k (par_of ctx) (ptr_of l) (ptr_of r) c,
        St s (plug ctx (T a c l k r))).
Proof. intros Hwf. unfold deref. cbn. by rewrite lookup_focus. Qed.

Lemma update_focus s ctx a c l k r c' k' f :
  wf (plug ctx (T a c l k r)) →
  f (mk_node k (par_of ctx) (ptr_of l) (ptr_of r) c)
  = mk_node k' (par_of ctx) (ptr_of l) (ptr_of r) c' →
  update (Some a) f (St s (plug ctx (T a c l k r)))
  = Ok (tt, St s (plug ctx (T a c' l k' r))).
Proof.
  intros Hwf Hf. unfold update. cbn. rewrite lookup_focus by done.
  rewrite Hf. unfold St, set_mem. cbn. f_equal. f_equal.
  assert (Hwf' : wf (plug ctx (T a c' l k' r))) by (revert Hwf; by apply wf_plug_perm).
  f_equal.
  - rewrite (heap_of_perm _ _ Hwf (cells_plug _ _)).
    rewrite (heap_of_perm _ _ Hwf' (cells_plug _ _)). cbn.
    apply insert_insert_eq.
  - by apply ptr_of_plug_same.
Qed.

(** Split a list expression into its explicit cells and the rest. *)
Ltac split_list L k :=
  lazymatch L with
  | ?x :: ?l => split_list l ltac:(fun e r => k constr:(x :: e) r)
  | ?l1 ++ ?l2 =>
    split_list l1 ltac:(fun e1 r1 =>
      split_list l2 ltac:(fun e2 r2 => k constr:(e1 ++ e2) constr:(r1 ++ r2)))
  | [] => k constr:(@nil (addr * node)) constr:(@nil (addr * node))
  | ?a => k constr:(@nil (addr * node)) constr:(a)
  end.

Lemma heap_split t L E R :
  wf t → cells None t ≡ₚ L → L ≡ₚ E ++ R →
  heap_of t = list_to_map (E ++ R) ∧ NoDup (E.*1 ++ R.*1).
Proof.
  intros Hwf HL HE. split.
  - apply heap_of_perm; [done|]. by rewrite HL.
  - rewrite <- fmap_app, <- HE, <- HL, fst_cells. done.
Qed.

Lemma heap_join t L E R :
  wf t → cells None t ≡ₚ L → L ≡ₚ E ++ R →
  heap_of t = list_to_map (E ++ R).
Proof. intros ???. by eapply heap_split. Qed.

Lemma NoDup_cons_ne {A} (x y : A) l : NoDup (x :: l) → y ∈ l → x ≠ y.
Proof. intros [H _]%NoDup_cons ? ->. done. Qed.

(** All pairwise inequalities of the explicit head of a [NoDup] list. *)
Ltac nodup_facts H :=
  repeat (let H1 := fresh "Hne" in
          apply NoDup_cons in H as [H1 H];
          repeat (let H2 := fresh "Hne" in
                  apply not_elem_of_cons in H1 as [H2 H1]);
          clear H1).

(** [open_heap Hwf]: rewrite the heap of the tree of [Hwf] as insertions of
    its explicit cells into the heap of the rest. *)
Ltac open_heap_with Hwf ctx t Rk :=
  let HL := fresh "HL" in
  pose proof (cells_plug ctx t) as HL;
  cbn [cells ctx_cells frame_cell par_of ptr_of faddr fsib app plug fill] in HL;
  lazymatch type of HL with
  | _ ≡ₚ ?L =>
    split_list L ltac:(fun e r =>
      let e' := eval cbn [app] in e in
      Rk e' r HL)
  end.


(** Open the heaps of [plug ctx t] and [plug ctx t'] over a common rest. *)
Ltac open2 Hwf Hwf' ctx t t' :=
  let Hh := fresh "Hh" in let Hh' := fresh "Hh" in let Hnd := fresh "Hnd" in
  open_heap_with Hwf ctx t ltac:(fun e r HL =>
    destruct (heap_split _ _ e r Hwf HL ltac:(perm)) as [Hh Hnd]; clear HL;
    open_heap_with Hwf' ctx t' ltac:(fun e' r' HL' =>
      pose proof (heap_join _ _ e' r Hwf' HL' ltac:(perm)) as Hh'; clear HL'));
  cbn [fmap list_fmap app fst] in Hnd; nodup_facts Hnd; clear Hnd;
  unfold St; cbn [plug fill] in Hh, Hh' |- *; rewrite Hh, Hh'; clear Hh Hh';
  cbn [list_to_map foldr app fst snd];
  match goal with
  | |- context [list_to_map ?r] =>
    generalize (list_to_map r : gmap addr node); intros ?R
  end.

Ltac heap_run :=
  repeat first
    [ progress cbn [mem root last tmp_tree prefix_tree cout is_null negb
                    key parent left right color ptr_of]
    | rewrite lookup_insert_eq
    | rewrite lookup_insert_ne by congruence
    | rewrite ptr_eqb_refl
    | rewrite ptr_eqb_ne by congruence ].

Ltac heap_eq :=
  apply map_eq; intros ?i; rewrite !lookup_insert;
  repeat (case_decide; subst; try congruence).

Ltac heap_done :=
  cbn [ptr_of plug fill]; f_equal; f_equal; f_equal; try heap_eq.

Lemma rotate_right_focus s ctx x cx y cy α ky β kx γ :
  wf (plug ctx (T x cx (T y cy α ky β) kx γ)) →
  rotate_right (Some x) (St s (plug ctx (T x cx (T y cy α ky β) kx γ)))
  = Ok (tt, St s (plug ctx (T y cy α ky (T x cx β kx γ)))).
Proof.
  intros Hwf.
  assert (Hwf' : wf (plug ctx (T y cy α ky (T x cx β kx γ)))).
  { revert Hwf. apply wf_plug_perm. cbn. perm. }
  destruct ctx as [|[p cp kp ps|p cp [|q cq ql kq qr] kp] ctx]; destruct β as [|b cb bl kb br];
  match type of Hwf with wf (plug ?c ?t) =>
    match type of Hwf' with wf (plug _ ?t') => open2 Hwf Hwf' c t t' end end;
  cbv [rotate_right bind ret deref update get_left get_right get_parent get_key get_color
       put_left put_right put_parent put_key put_color put_root get_root set_mem set_root];
  heap_run; heap_done.
  all: by apply ptr_of_plug_same.
Qed.

Lemma rotate_left_focus s ctx x cx y cy α kx β ky γ :
  wf (plug ctx (T x cx α kx (T y cy β ky γ))) →
  rotate_left (Some x) (St s (plug ctx (T x cx α kx (T y cy β ky γ))))
  = Ok (tt, St s (plug ctx (T y cy (T x cx α kx β) ky γ))).
Proof.
  intros Hwf.
  assert (Hwf' : wf (plug ctx (T y cy (T x cx α kx β) ky γ))).
  { revert Hwf. apply wf_plug_perm. cbn. perm. }
  destruct ctx as [|[p cp kp ps|p cp [|q cq ql kq qr] kp] ctx]; destruct β as [|b cb bl kb br];
  match type of Hwf with wf (plug ?c ?t) =>
    match type of Hwf' with wf (plug _ ?t') => open2 Hwf Hwf' c t t' end end;
  cbv [rotate_left bind ret deref update get_left get_right get_parent get_key get_color
       put_left put_right put_parent put_key put_color put_root get_root set_mem set_root];
  heap_run; heap_done.
  all: by apply ptr_of_plug_same.
Qed.

Lemma get_root_St s t : get_root (St s t) = Ok (ptr_of t, St s t).
Proof. done. Qed.

Section focus.
Context (s : RBTree) (ctx : list frame) (a : addr) (c : bool)
        (l : tree) (k : Z) (r : tree).
Context (Hwf : wf (plug ctx (T a c l k r))).
Let st := St s (plug ctx (T a c l k r)).

Lemma get_key_focus : get_key (Some a) st = Ok (k, st).
Proof. unfold get_key, bind, st. by rewrite deref_focus. Qed.
Lemma get_parent_focus : get_parent (Some a) st = Ok (par_of ctx, st).
Proof. unfold get_parent, bind, st. by rewrite deref_focus. Qed.
Lemma get_left_focus : get_left (Some a) st = Ok (ptr_of l, st).
Proof. unfold get_left, bind, st. by rewrite deref_focus. Qed.
Lemma get_right_focus : get_right (Some a) st = Ok (ptr_of r, st).
Proof. unfold get_right, bind, st. by rewrite deref_focus. Qed.
Lemma get_color_focus : get_color (Some a) st = Ok (c, st).
Proof. unfold get_color, bind, st. by rewrite deref_focus. Qed.

Lemma put_color_focus c' :
  put_color (Some a) c' st = Ok (tt, St s (plug ctx (T a c' l k r))).
Proof. by apply update_focus. Qed.
Lemma put_key_focus k' :
  put_key (Some a) k' st = Ok (tt, St s (plug ctx (T a c l k' r))).
Proof. by apply update_focus. Qed.
Lemma put_left_same :
  put_left (Some a) (ptr_of l) st = Ok (tt, st).
Proof. by apply update_focus. Qed.
Lemma put_right_same :
  put_right (Some a) (ptr_of r) st = Ok (tt, st).
Proof. by apply update_focus. Qed.
Lemma put_parent_same :
  put_parent (Some a) (par_of ctx) st = Ok (tt, st).
Proof. by apply update_focus. Qed.

Lemma wf_focus c' k' : wf (plug ctx (T a c' l k' r)).
Proof. revert Hwf. by apply wf_plug_perm. Qed.
End focus.

(** Find the node [a] in a tree expression: the frames above it, innermost
    first, on top of [acc], and the subtree at [a]. *)
Ltac find_frames a t acc :=
  match t with
  | T a _ _ _ _ => constr:((acc, t))
  | T ?b ?c ?l ?k ?r => find_frames a l constr:(FL b c k r :: acc)
  | T ?b ?c ?l ?k ?r => find_frames a r constr:(FR b c l k :: acc)
  end.

Ltac focus_on a t k :=
  let res :=
    lazymatch t with
    | plug ?c0 ?t0 => find_frames a t0 c0
    | _ => find_frames a t (@nil frame)
    end in
  lazymatch res with
  | (?ctx, T a ?c ?l ?kk ?r) => k ctx c l kk r
  end.

Lemma wf_rotate_right ctx x cx y cy α ky β kx γ :
  wf (plug ctx (T x cx (T y cy α ky β) kx γ)) →
  wf (plug ctx (T y cy α ky (T x cx β kx γ))).
Proof. apply wf_plug_perm. cbn. perm. Qed.

Lemma wf_rotate_left ctx x cx y cy α kx β ky γ :
  wf (plug ctx (T x cx α kx (T y cy β ky γ))) →
  wf (plug ctx (T y cy (T x cx α kx β) ky γ)).
Proof. apply wf_plug_perm. cbn. perm. Qed.

Lemma blacken_root s t :
  wf t → t ≠ E →
  (let* rt := get_root in put_color rt black) (St s t)
  = Ok (tt, St s (blacken t)).
Proof.
  intros Hwf Hne. destruct t as [|a c l k r]; [done|].
  rewrite (bind_Ok _ _ _ _ _ (get_root_St s _)).
  apply (put_color_focus s [] a c l k r Hwf).
Qed.

Lemma blacken_black t : color_of t = black → blacken t = t.
Proof. destruct t; cbn; [done|]. by intros ->. Qed.

Lemma plug_not_E ctx a c l k r : plug ctx (T a c l k r) ≠ E.
Proof.
  revert a c l k r. induction ctx as [|f ctx IH]; intros a c l k r; [done|].
  cbn. destruct f; apply IH.
Qed.

(** One step of a method run on [St s t], given [Hwf : wf t]: the goal is
    [m (St s t) = _] and the first action of [m] is performed. *)
Ltac use_step L :=
  let H := fresh "Hstep" in
  pose proof L as H; cbn [plug fill ptr_of par_of faddr] in H;
  first [ rewrite (bind_Ok _ _ _ _ _ H) | rewrite H ]; clear H; cbv beta;
  cbn [par_of faddr ptr_of].

Ltac new_wf Hwf L :=
  let H := fresh "Hwf" in
  pose proof L as H; cbn [plug fill] in H; clear Hwf; rename H into Hwf.

Ltac head_action k :=
  lazymatch goal with
  | |- bind ?m _ ?st = _ => k m st
  | |- ?m ?st = _ => k m st
  end.

Ltac tstep Hwf :=
  lazymatch goal with
  | |- bind get_root (λ rt, put_color rt true) (St ?s ?t) = _ =>
    rewrite (blacken_root s t) by (done || apply plug_not_E)
  | |- bind (bind _ _) _ _ = _ => rewrite bind_assoc
  | |- bind (ret _) _ _ = _ => rewrite bind_ret; cbv beta
  | |- bind (andM _ _) _ _ = _ => unfold andM at 1
  | |- bind (orM _ _) _ _ = _ => unfold orM at 1
  | |- andM _ _ _ = _ => unfold andM at 1
  | |- orM _ _ _ = _ => unfold orM at 1
  | |- _ =>
    head_action ltac:(fun m st =>
      lazymatch st with
      | St ?s ?t =>
        lazymatch m with
        | get_root => use_step (get_root_St s t)
        | get_key (Some ?a) =>
          focus_on a t ltac:(fun ctx c l k r =>
            use_step (get_key_focus s ctx a c l k r Hwf))
        | get_parent (Some ?a) =>
          focus_on a t ltac:(fun ctx c l k r =>
            use_step (get_parent_focus s ctx a c l k r Hwf))
        | get_left (Some ?a) =>
          focus_on a t ltac:(fun ctx c l k r =>
            use_step (get_left_focus s ctx a c l k r Hwf))
        | get_right (Some ?a) =>
          focus_on a t ltac:(fun ctx c l k r =>
            use_step (get_right_focus s ctx a c l k r Hwf))
        | get_color (Some ?a) =>
          focus_on a t ltac:(fun ctx c l k r =>
            use_step (get_color_focus s ctx a c l k r Hwf))
        | put_color (Some ?a) ?c' =>
          focus_on a t ltac:(fun ctx c l k r =>
            use_step (put_color_focus s ctx a c l k r Hwf c');
            new_wf Hwf (wf_focus ctx a c l k r Hwf c' k))
        | put_key (Some ?a) ?k' =>
          focus_on a t ltac:(fun ctx c l k r =>
            use_step (put_key_focus s ctx a c l k r Hwf k');
            new_wf Hwf (wf_focus ctx a c l k r Hwf c k'))
        | put_left (Some ?a) _ =>
          focus_on a t ltac:(fun ctx c l k r =>
            use_step (put_left_same s ctx a c l k r Hwf))
        | put_right (Some ?a) _ =>
          focus_on a t ltac:(fun ctx c l k r =>
            use_step (put_right_same s ctx a c l k r Hwf))
        | put_parent (Some ?a) _ =>
          focus_on a t ltac:(fun ctx c l k r =>
            use_step (put_parent_same s ctx a c l k r Hwf))
        | rotate_right (Some ?a) =>
          focus_on a t ltac:(fun ctx c l k r =>
            lazymatch l with
            | T ?y ?cy ?α ?ky ?β =>
              use_step (rotate_right_focus s ctx a c y cy α ky β k r Hwf);
              new_wf Hwf (wf_rotate_right ctx a c y cy α ky β k r Hwf)
            end)
        | rotate_left (Some ?a) =>
          focus_on a t ltac:(fun ctx c l k r =>
            lazymatch r with
            | T ?y ?cy ?β ?ky ?γ =>
              use_step (rotate_left_focus s ctx a c y cy l k β ky γ Hwf);
              new_wf Hwf (wf_rotate_left ctx a c y cy l k β ky γ Hwf)
            end)
        end
      end)
  end.

Ltac tsteps Hwf := repeat (tstep Hwf).

(** ** Search *)

Ltac tstep' Hwf := tstep Hwf; cbv beta iota; cbn [is_null negb ptr_of par_of faddr].

Lemma search_helper_spec s k t :
  ∀ fuel ctx, wf (plug ctx t) → (height t < fuel)%nat →
  search_helper fuel (ptr_of t) k (St s (plug ctx t))
  = Ok (ptr_of (lookup_tree k t), St s (plug ctx t)).
Proof.
  induction t as [|a c l IHl k' r IHr]; intros fuel ctx Hwf Hfuel;
    (destruct fuel as [|fuel]; [cbn in Hfuel; lia|]).
  - reflexivity.
  - cbn [search_helper ptr_of lookup_tree]. cbn in Hfuel.
    repeat tstep' Hwf.
    destruct (k =? k') eqn:Hk.
    + cbv iota. reflexivity.
    + cbv iota. repeat tstep' Hwf.
      destruct (k <? k'); cbv iota; repeat tstep' Hwf.
      * apply (IHl fuel (FL a c k' r :: ctx)); [done|lia].
      * apply (IHr fuel (FR a c l k' :: ctx)); [done|lia].
Qed.

Lemma lookup_tree_keys k t :
  inv_bst t → (ptr_of (lookup_tree k t) ≠ None ↔ k ∈ keys t).
Proof.
  induction t as [|a c l IHl k' r IHr]; cbn.
  - intros _. split; [done|]. by intros ?%elem_of_nil.
  - intros (Hl & Hr & Hbl & Hbr).
    rewrite elem_of_app, elem_of_cons.
    rewrite Forall_forall in Hl, Hr.
    destruct (Z.eqb_spec k k') as [->|Hne]; [cbn; naive_solver|].
    destruct (Z.ltb_spec k k').
    + rewrite (IHl Hbl). split; [tauto|]. intros [?|[?|Hin]]; [done|lia|].
      apply Hr in Hin. lia.
    + rewrite (IHr Hbr). split; [tauto|]. intros [Hin|[?|?]]; [|lia|done].
      apply Hl in Hin. lia.
Qed.

Lemma rep_St st t : rep st t → st = St st t.
Proof. destruct st. intros (Hm & Hr & _). cbn in *. by subst. Qed.

Lemma search_tree_spec s k t fuel :
  wf t → (height t < fuel)%nat →
  search_tree fuel k (St s t) = Ok (ptr_of (lookup_tree k t), St s t).
Proof.
  intros Hwf Hfuel. unfold search_tree.
  rewrite (bind_Ok _ _ _ _ _ (get_root_St s t)).
  by apply (search_helper_spec s k t fuel []).
Qed.

Lemma ex_rep : rep ex_state ex_tree.
Proof.
  split; [reflexivity|]. split; [reflexivity|].
  unfold wf. cbn. repeat (apply NoDup_cons_2; [set_solver|]). apply NoDup_nil_2.
Defined.

Lemma ex_bst : inv_bst ex_tree.
Proof. cbn. repeat split; repeat constructor. Defined.

(** C5: on a tree that holds invariant 5, [search_tree] returns a node
    exactly when the key is among the keys of the tree, it returns the node
    the binary-search descent stops at, and it leaves the whole object
    state as it was. *)
Theorem search_tree_found_iff st t k fuel :
  rep st t → inv_bst t → (height t < fuel)%nat →
  ∃ r, search_tree fuel k st = Ok (r, st)
       ∧ r = ptr_of (lookup_tree k t)
       ∧ (r ≠ None ↔ k ∈ keys t).
Proof.
  intros Hrep Hbst Hfuel. exists (ptr_of (lookup_tree k t)).
  split; [|split; [done|by apply lookup_tree_keys]].
  rewrite (rep_St st t Hrep) at 1 2.
  apply search_tree_spec; [apply Hrep|done].
Qed.

Lemma search_tree_found_iff_witness :
  ∃ r, search_tree 3 15 ex_state = Ok (r, ex_state)
       ∧ r = ptr_of (lookup_tree 15 ex_tree)
       ∧ (r ≠ None ↔ 15 ∈ keys ex_tree).
Proof.
  apply (search_tree_found_iff ex_state ex_tree 15 3 ex_rep ex_bst).
  cbn. lia.
Defined.

(** C8: [delete_node] on an empty tree returns normally and changes
    nothing; [delete_node] of a key that is not in a non-empty tree writes
    the error line and leaves heap and root, hence keys, structure and
    colors, as they were. *)
Theorem delete_node_absent st t k fuel :
  rep st t → inv_bst t → k ∉ keys t → (height t < fuel)%nat →
  ∃ st', delete_node fuel k st = Ok (tt, st')
         ∧ mem st' = mem st ∧ root st' = root st ∧ rep st' t
         ∧ st' = (if is_null (root st) then st
                  else set_cout (cout st ++ [OutNotFound k]) st).
Proof.
  intros Hrep Hbst Hk Hfuel.
  assert (Hnone : ptr_of (lookup_tree k t) = None).
  { destruct (ptr_of (lookup_tree k t)) eqn:Hl; [|done].
    exfalso. apply Hk, lookup_tree_keys; [done|]. by rewrite Hl. }
  unfold delete_node.
  assert (Hroot : root st = ptr_of t) by apply Hrep.
  destruct (is_null (root st)) eqn:Hnull.
  - exists st. repeat split; try done; try apply Hrep.
    unfold bind, get_root. by rewrite Hnull.
  - exists (set_cout (cout st ++ [OutNotFound k]) st).
    repeat split; try apply Hrep.
    unfold bind at 1. unfold get_root. rewrite Hnull.
    rewrite (rep_St st t Hrep) at 1.
    rewrite (bind_Ok _ _ _ _ _ (search_tree_spec st k t fuel (proj2 (proj2 Hrep)) Hfuel)).
    rewrite Hnone. cbn. by rewrite <- (rep_St st t Hrep).
Qed.

Lemma delete_node_absent_witness :
  ∃ st', delete_node 3 11 ex_state = Ok (tt, st')
         ∧ mem st' = mem ex_state ∧ root st' = root ex_state ∧ rep st' ex_tree
         ∧ st' = (if is_null (root ex_state) then ex_state
                  else set_cout (cout ex_state ++ [OutNotFound 11]) ex_state).
Proof.
  apply (delete_node_absent ex_state ex_tree 11 3 ex_rep ex_bst).
  - cbn. rewrite !elem_of_cons, elem_of_nil. lia.
  - cbn. lia.
Defined.

(** C9: [insert_node] of a key that is already in the tree returns with the
    object state untouched: the same heap, so the same keys, links and
    colors, and the same root.  Nothing was rotated: the only rotations of
    [insert_node] are in [fix_insert], on the branch taken when the search
    returns NULL. *)
Theorem insert_node_present st t k fuel :
  rep st t → inv_bst t → k ∈ keys t → (height t < fuel)%nat →
  insert_node fuel k st = Ok (tt, st).
Proof.
  intros Hrep Hbst Hk Hfuel.
  apply lookup_tree_keys in Hk; [|done].
  unfold insert_node. rewrite (rep_St st t Hrep).
  rewrite !(bind_Ok _ _ _ _ _ (search_tree_spec st k t fuel (proj2 (proj2 Hrep)) Hfuel)).
  destruct (ptr_of (lookup_tree k t)); [done|congruence].
Qed.

Lemma insert_node_present_witness :
  insert_node 3 5 ex_state = Ok (tt, ex_state).
Proof.
  apply (insert_node_present ex_state ex_tree 5 3 ex_rep ex_bst).
  - cbn. rewrite !elem_of_cons. lia.
  - cbn. lia.
Defined.

(** ** The monitor *)

(** C3: the monitor does not keep writers apart from readers or from each
    other.  A thread woken from [pthread_cond_wait] goes on without
    testing its condition again, so a writer that takes the mutex between
    the signal and the wake-up is admitted together with the woken
    thread.  First run: writer 1 is in, reader 2 waits, writer 1 leaves
    and signals, writer 3 is admitted, reader 2 wakes up and is admitted
    too.  Second run: the same with a waiting writer 2. *)
Theorem monitor_admits_writer_with_others :
  (∃ m, Monitor.run Monitor.init
          [Monitor.BeginWrite 1%nat; Monitor.BeginRead 2%nat; Monitor.EndWrite 1%nat;
           Monitor.BeginWrite 3%nat; Monitor.ResumeRead 2%nat] = Some m
        ∧ Monitor.writing m = [3%nat] ∧ Monitor.reading m = [2%nat]
        ∧ Monitor.num_writers m = 1 ∧ Monitor.num_readers m = 1
        ∧ Monitor.reachable m ∧ ¬ Monitor.exclusive m)
  ∧ (∃ m, Monitor.run Monitor.init
          [Monitor.BeginWrite 1%nat; Monitor.BeginWrite 2%nat; Monitor.EndWrite 1%nat;
           Monitor.BeginWrite 3%nat; Monitor.ResumeWrite 2%nat] = Some m
        ∧ Monitor.writing m = [3%nat; 2%nat]
        ∧ Monitor.reachable m ∧ ¬ Monitor.exclusive m).
Proof.
  split.
  - eexists. split; [vm_compute; reflexivity|].
    repeat split; try reflexivity.
    + exists [Monitor.BeginWrite 1%nat; Monitor.BeginRead 2%nat;
              Monitor.EndWrite 1%nat; Monitor.BeginWrite 3%nat;
              Monitor.ResumeRead 2%nat].
      vm_compute. reflexivity.
    + intros [_ H]. cbn in H. by destruct H.
  - eexists. split; [vm_compute; reflexivity|].
    repeat split; try reflexivity.
    + exists [Monitor.BeginWrite 1%nat; Monitor.BeginWrite 2%nat;
              Monitor.EndWrite 1%nat; Monitor.BeginWrite 3%nat;
              Monitor.ResumeWrite 2%nat].
      vm_compute. reflexivity.
    + intros [H _]. cbn in H. lia.
Qed.

(** C4: [end_read] always lowers the reader count by one, but it signals a
    waiting writer when the count was zero before the decrement, not when
    it becomes zero.  When the last of the readers leaves while a writer
    waits (reader 1 in, writer 2 waits, reader 1 leaves) the count goes
    from 1 to 0 and the writer is left blocked; started from a count of
    zero the method signals and leaves the count at -1. *)
Theorem end_read_signals_on_zero_before :
  (∀ t m, Monitor.num_readers (Monitor.end_read t m)
          = Monitor.num_readers m - 1)
  ∧ (∃ m, Monitor.run Monitor.init
            [Monitor.BeginRead 1%nat; Monitor.BeginWrite 2%nat; Monitor.EndRead 1%nat]
          = Some m
          ∧ Monitor.num_readers m = 0 ∧ Monitor.reading m = []
          ∧ Monitor.can_write m = [2%nat] ∧ Monitor.woken_write m = [])
  ∧ (∀ t w, Monitor.end_read t
              (Monitor.mk_monitor 0 0 0 1 [] [w] [] [] [] [])
            = Monitor.mk_monitor (-1) 0 0 1 [] [] [] [w] [] []).
Proof.
  split; [|split].
  - intros t m. unfold Monitor.end_read, Monitor.signal_write.
    destruct (_ =? 0); [|done]. cbn. by destruct (Monitor.can_write m).
  - eexists. split; [vm_compute; reflexivity|]. done.
  - intros t w. reflexivity.
Qed.

(** ** Serialization *)

Lemma append_cons x (a b : string) : String x a +:+ b = String x (a +:+ b).
Proof. reflexivity. Qed.

Lemma append_assoc (a b c : string) : (a +:+ b) +:+ c = a +:+ b +:+ c.
Proof. induction a as [|x a IH]; [done|]. by rewrite !append_cons, IH. Qed.

Lemma append_nil_r (a : string) : a +:+ "" = a.
Proof. induction a as [|x a IH]; [done|]. by rewrite append_cons, IH. Qed.

Lemma render_app ts1 ts2 : render (ts1 ++ ts2) = render ts1 +:+ render ts2.
Proof.
  induction ts1 as [|t ts1 IH]; [done|]. cbn [render app].
  by rewrite IH, !append_assoc.
Qed.

Lemma append_prefix_St str s t :
  append_prefix str (St s t)
  = Ok (tt, St (set_prefix_tree (prefix_tree s +:+ str) s) t).
Proof. done. Qed.

Lemma put_prefix_St str s t :
  put_prefix str (St s t) = Ok (tt, St (set_prefix_tree str s) t).
Proof. done. Qed.

Lemma get_last_key_St s t :
  get_last_key (St s t)
  = match last s with Some e => Ok (tkey e, St s t) | None => Fault end.
Proof. done. Qed.

Lemma get_last_key_Some s t lt :
  last s = Some lt → get_last_key (St s t) = Ok (tkey lt, St s t).
Proof. intros H. unfold get_last_key. cbn. by rewrite H. Qed.

Lemma get_last_key_None s t :
  last s = None → get_last_key (St s t) = Fault.
Proof. intros H. unfold get_last_key. cbn. by rewrite H. Qed.

Ltac pstep Hwf :=
  first
    [ rewrite (bind_Ok _ _ _ _ _ (append_prefix_St _ _ _))
    | rewrite append_prefix_St
    | rewrite (bind_Ok _ _ _ _ _ (get_last_key_Some (mk_RBTree _ _ _ _ _ _) _ _ eq_refl)); cbv beta
    | tstep' Hwf ];
  unfold set_prefix_tree; cbn [mem root last tmp_tree prefix_tree cout].

Lemma prefix_order_helper_spec lt t :
  ∀ fuel s ctx, wf (plug ctx t) → last s = Some lt → (height t < fuel)%nat →
  prefix_order_helper fuel (ptr_of t) (St s (plug ctx t))
  = Ok (tt, St (set_prefix_tree
                  (prefix_tree s +:+ render (tokens (tkey lt) t)) s)
               (plug ctx t)).
Proof.
  induction t as [|a c l IHl k r IHr]; intros fuel s ctx Hwf Hlast Hfuel;
    (destruct fuel as [|fuel]; [cbn in Hfuel; lia|]).
  - cbn. unfold ret, St. cbn. by rewrite append_nil_r.
  - cbn [prefix_order_helper ptr_of is_null tokens]. cbn in Hfuel.
    assert (Hl : ∀ s', last s' = Some lt →
      prefix_order_helper fuel (ptr_of l) (St s' (plug ctx (T a c l k r)))
      = Ok (tt, St (set_prefix_tree
                      (prefix_tree s' +:+ render (tokens (tkey lt) l)) s')
                   (plug ctx (T a c l k r)))).
    { intros s' Hs'. apply (IHl fuel s' (FL a c k r :: ctx)); [done|done|lia]. }
    assert (Hr : ∀ s', last s' = Some lt →
      prefix_order_helper fuel (ptr_of r) (St s' (plug ctx (T a c l k r)))
      = Ok (tt, St (set_prefix_tree
                      (prefix_tree s' +:+ render (tokens (tkey lt) r)) s')
                   (plug ctx (T a c l k r)))).
    { intros s' Hs'. apply (IHr fuel s' (FR a c l k :: ctx)); [done|done|lia]. }
    clear IHl IHr. unfold set_prefix_tree.
    destruct s as [m0 r0 la tt0 p0 co]. cbn in Hlast. subst la.
    cbn [mem root last tmp_tree prefix_tree cout].
    do 4 pstep Hwf.
    destruct (is_null (ptr_of l)) eqn:Hnl; cbv iota.
    all: repeat pstep Hwf.
    all: destruct (is_null (ptr_of r)) eqn:Hnr; cbv iota.
    all: repeat pstep Hwf.
    all: try (destruct (tkey lt =? k) eqn:Hk; cbn [negb andb]; cbv iota).
    all: repeat pstep Hwf.
    all: rewrite (bind_Ok _ _ _ _ _ (Hl (mk_RBTree _ _ _ _ _ _) eq_refl)); cbv beta;
         unfold set_prefix_tree; cbn [mem root last tmp_tree prefix_tree cout].
    all: repeat pstep Hwf.
    all: rewrite (Hr (mk_RBTree _ _ _ _ _ _) eq_refl);
         unfold set_prefix_tree; cbn [mem root last tmp_tree prefix_tree cout].
    all: do 4 f_equal.
    all: unfold node_token; cbn [render app]; rewrite ?render_app;
         cbn [render]; rewrite ?append_assoc; reflexivity.
Qed.

Lemma bind_Fault {A B} (m : M A) (k : A → M B) st :
  m st = Fault → bind m k st = Fault.
Proof. unfold bind. by intros ->. Qed.

Lemma prefix_order_helper_null fuel st :
  prefix_order_helper (S fuel) None st = Ok (tt, st).
Proof. done. Qed.

Lemma prefix_order_helper_unset t :
  ∀ fuel s ctx, t ≠ E → wf (plug ctx t) → last s = None →
  (height t < fuel)%nat →
  prefix_order_helper fuel (ptr_of t) (St s (plug ctx t)) = Fault.
Proof.
  induction t as [|a c l IHl k r IHr]; intros fuel s ctx Hne Hwf Hlast Hfuel;
    [done|].
  destruct fuel as [|fuel]; [cbn in Hfuel; lia|].
  cbn [prefix_order_helper ptr_of is_null]. cbn in Hfuel.
  assert (Hl : ∀ s', last s' = None → l ≠ E →
    prefix_order_helper fuel (ptr_of l) (St s' (plug ctx (T a c l k r)))
    = Fault).
  { intros s' Hs' ?. apply (IHl fuel s' (FL a c k r :: ctx)); [done..|lia]. }
  assert (Hr : ∀ s', last s' = None → r ≠ E →
    prefix_order_helper fuel (ptr_of r) (St s' (plug ctx (T a c l k r)))
    = Fault).
  { intros s' Hs' ?. apply (IHr fuel s' (FR a c l k :: ctx)); [done..|lia]. }
  clear IHl IHr.
  destruct s as [m0 r0 la tt0 p0 co]. cbn in Hlast. subst la.
  do 4 pstep Hwf.
  assert (Hfin : ∀ p,
    (prefix_order_helper fuel (ptr_of l) ;;;
     let* r1 := get_right (Some a) in prefix_order_helper fuel r1)
      (St (mk_RBTree m0 r0 None tt0 p co) (plug ctx (T a c l k r))) = Fault
    ∨ r = E).
  { intros p. destruct r as [|ra rc rl rk rr]; [by right|left].
    destruct l as [|la lc ll lk lr].
    - destruct fuel as [|fuel]; [cbn in Hfuel; lia|].
      rewrite (bind_Ok _ _ _ _ _ (prefix_order_helper_null _ _)).
      pstep Hwf. by apply Hr.
    - apply bind_Fault. by apply Hl. }
  destruct (is_null (ptr_of l)) eqn:Hnl; cbv iota.
  all: repeat pstep Hwf.
  all: destruct r as [|ra rc rl rk rr]; cbn [ptr_of is_null]; cbv iota.
  all: repeat pstep Hwf.
  all: try (apply bind_Fault; by apply get_last_key_None).
  all: match goal with
       | |- _ (St (mk_RBTree _ _ _ _ ?p _) _) = _ =>
         by destruct (Hfin p) as [?|?]
       end.
Qed.

Lemma prefix_order_spec s t lt fuel :
  wf t → last s = Some lt → (height t < fuel)%nat →
  prefix_order fuel (St s t)
  = Ok (tt, St (set_prefix_tree (render (tokens (tkey lt) t)) s) t).
Proof.
  intros Hwf Hlast Hfuel. unfold prefix_order.
  rewrite (bind_Ok _ _ _ _ _ (put_prefix_St "" s t)).
  rewrite (bind_Ok _ _ _ _ _ (get_root_St _ t)).
  rewrite (prefix_order_helper_spec lt t fuel _ [] Hwf) by done.
  done.
Qed.

Lemma prefix_order_unset s t fuel :
  t ≠ E → wf t → last s = None → (height t < fuel)%nat →
  prefix_order fuel (St s t) = Fault.
Proof.
  intros Hne Hwf Hlast Hfuel. unfold prefix_order.
  rewrite (bind_Ok _ _ _ _ _ (put_prefix_St "" s t)).
  rewrite (bind_Ok _ _ _ _ _ (get_root_St _ t)).
  by apply (prefix_order_helper_unset t fuel _ []).
Qed.

Lemma prefix_order_empty st fuel :
  root st = None → prefix_order (S fuel) st = Ok (tt, set_prefix_tree "" st).
Proof.
  intros H. unfold prefix_order, bind, get_root, put_prefix. cbn.
  by rewrite H.
Qed.

(** ** What bulk loading leaves in [last] *)

Lemma keeps_ret {A} (a : A) : keeps_last (ret a).
Proof. intros st b st' [= <- <-]. done. Qed.

Lemma keeps_bind {A B} (m : M A) (k : A → M B) :
  keeps_last m → (∀ a, keeps_last (k a)) → keeps_last (bind m k).
Proof.
  intros Hm Hk st b st'. unfold bind.
  destruct (m st) as [[a st1]| |] eqn:E; [|done..].
  intros H. apply Hm in E as [E1 E2]. apply Hk in H as [H1 H2].
  split; congruence.
Qed.

Lemma keeps_deref p : keeps_last (deref p).
Proof.
  intros st n st'. unfold deref. destruct p as [a|]; [|done].
  destruct (mem st !! a); [|done]. by intros [= <- <-].
Qed.

Lemma keeps_update p f : keeps_last (update p f).
Proof.
  intros st n st'. unfold update. destruct p as [a|]; [|done].
  destruct (mem st !! a); [|done]. by intros [= <- <-].
Qed.

Lemma keeps_new_node k : keeps_last (new_node k).
Proof. intros st n st'. unfold new_node. by intros [= <- <-]. Qed.

Lemma keeps_get_root : keeps_last get_root.
Proof. intros st n st'. by intros [= <- <-]. Qed.

Lemma keeps_put_root r : keeps_last (put_root r).
Proof. intros st n st'. by intros [= <- <-]. Qed.

Ltac keeps :=
  repeat first
    [ apply keeps_ret | apply keeps_deref | apply keeps_update
    | apply keeps_new_node | apply keeps_get_root | apply keeps_put_root
    | assumption
    | apply keeps_bind; [|intros ?]
    | match goal with |- keeps_last (if ?b then _ else _) => destruct b end
    | progress unfold get_key, get_parent, get_left, get_right, get_color,
        put_key, put_parent, put_left, put_right, put_color ].

Lemma keeps_build_tree_helper fuel :
  ∀ n curr, keeps_last (build_tree_helper fuel n curr).
Proof.
  induction fuel as [|fuel IH]; intros n curr; [by intros ???|].
  cbn [build_tree_helper]. keeps; apply IH.
Qed.

Lemma build_tree_loop_last fuel rest :
  ∀ st st', build_tree_loop fuel rest st = Ok (tt, st') →
  last st' = last_keyed (last st) rest ∧ tmp_tree st' = tmp_tree st.
Proof.
  induction rest as [|curr rest IH]; intros st st'; cbn [build_tree_loop].
  - by intros [= <-].
  - unfold last_keyed, keyed. cbn [foldl].
    destruct (negb (tkey curr =? -1)).
    + unfold bind, put_last, get_root, ret.
      destruct (build_tree_helper fuel _ curr _) as [[rt st1]| |] eqn:E;
        [|done..].
      apply keeps_build_tree_helper in E as [E1 E2]. cbn in E1, E2.
      intros H. apply IH in H as [-> ->]. by rewrite E1, E2.
    + unfold bind at 1. unfold ret at 1. apply IH.
Qed.

Lemma build_tree_last fuel st st' e rest :
  tmp_tree st = e :: rest →
  build_tree fuel st = Ok (tt, st') →
  last st' = last_keyed (last st) rest.
Proof.
  intros Hts. unfold build_tree. unfold bind at 1, get_tmp_tree. rewrite Hts.
  unfold bind at 1. unfold get_root at 1.
  unfold bind at 1.
  destruct (build_tree_helper fuel (root st) e st) as [[rt st1]| |] eqn:E;
    [|done..].
  apply keeps_build_tree_helper in E as [E1 E2].
  unfold bind at 1, put_root at 1.
  intros H. apply build_tree_loop_last in H as [-> _]. by rewrite <- E1.
Qed.

(** C6 (as amended): with [last] set, [prefix_order] leaves in
    [prefix_tree] the tokens of the tree, each followed by a comma: a node
    as key and color letter, at once followed by an [f] for its absent
    left child and an [f] for its absent right child (the latter left out
    when the key of the node is [last->key]), then the tokens of the whole
    left subtree, then those of the whole right subtree.  Nothing else of
    the object changes. *)
Theorem prefix_order_tokens st t lt fuel :
  rep st t → last st = Some lt → (height t < fuel)%nat →
  prefix_order fuel st
  = Ok (tt, set_prefix_tree (render (tokens (tkey lt) t)) st).
Proof.
  intros Hrep Hlast Hfuel. rewrite (rep_St st t Hrep) at 1.
  rewrite (prefix_order_spec st t lt fuel) by (done || apply Hrep).
  do 2 f_equal. unfold St, set_prefix_tree. cbn.
  destruct Hrep as (-> & -> & _). done.
Qed.

Lemma prefix_order_tokens_witness :
  prefix_order 3 (set_last (Some (mk_tmp 15 red)) ex_state)
  = Ok (tt, set_prefix_tree "10b,5r,f,f,15r,f,"
              (set_last (Some (mk_tmp 15 red)) ex_state)).
Proof.
  apply (prefix_order_tokens (set_last (Some (mk_tmp 15 red)) ex_state)
           ex_tree (mk_tmp 15 red) 3).
  - apply ex_rep.
  - reflexivity.
  - cbn. lia.
Defined.

(** C6 as stated fails: in the tree left by bulk-loading
    [10b,5r,f,f,15r,f,f] and deleting 15, node 10 has a left child and no
    right child, and the marker of its absent right child is written
    before the left subtree, not after it. *)
Lemma prefix_order_marker_before_left_subtree :
  ∃ st', (build_tree 3 ;;; delete_node 3 15 ;;; prefix_order 3)
           (RBTree_new [mk_tmp 10 black; mk_tmp 5 red; mk_tmp (-1) black;
                        mk_tmp (-1) black; mk_tmp 15 red; mk_tmp (-1) black;
                        mk_tmp (-1) black])
         = Ok (tt, st')
    ∧ rep st' (T 1%positive black (T 2%positive red E 5 E) 10 E)
    ∧ last st' = Some (mk_tmp 15 red)
    ∧ prefix_tree st' = "10b,f,5r,f,f,"
    ∧ render (preorder_tokens 15
                (T 1%positive black (T 2%positive red E 5 E) 10 E))
      = "10b,5r,f,f,f,"
    ∧ prefix_tree st'
      ≠ render (preorder_tokens 15
                  (T 1%positive black (T 2%positive red E 5 E) 10 E)).
Proof.
  eexists. split; [vm_compute; reflexivity|].
  split; [|split; [reflexivity|split; [reflexivity|split; [reflexivity|]]]].
  - split; [vm_compute; reflexivity|]. split; [reflexivity|].
    unfold wf. cbn. repeat (apply NoDup_cons_2; [set_solver|]). apply NoDup_nil_2.
  - vm_compute. discriminate.
Qed.

Lemma last_keyed_acc acc rest :
  last_keyed acc rest = None
  ↔ acc = None ∧ Forall (λ x, keyed x = false) rest.
Proof.
  revert acc. unfold last_keyed.
  induction rest as [|x rest IH]; intros acc; cbn [foldl].
  - split; [by intros ->|by intros [-> _]].
  - rewrite IH, Forall_cons. destruct (keyed x); naive_solver.
Qed.

Lemma last_keyed_None rest :
  last_keyed None rest = None ↔ Forall (λ x, keyed x = false) rest.
Proof. rewrite last_keyed_acc. naive_solver. Qed.

(** C10 (as amended): [build_tree] leaves in [last] the last entry after
    the first one whose key is not -1, and leaves it unset when there is
    none.  For any later state of the object holding a tree [t]:
    serializing the empty tree never reads [last] and gives the empty
    string; serializing a non-empty tree with [last] unset is a read
    through an unset pointer; with [last] set it is defined. *)
Theorem prefix_order_reads_last e rest fuel0 st0 st t fuel :
  build_tree fuel0 (RBTree_new (e :: rest)) = Ok (tt, st0) →
  rep st t → last st = last st0 → (height t < fuel)%nat →
  last st0 = last_keyed None rest
  ∧ (last_keyed None rest = None ↔ Forall (λ x, keyed x = false) rest)
  ∧ prefix_order fuel st
    = match t, last_keyed None rest with
      | E, _ => Ok (tt, set_prefix_tree "" st)
      | _, None => Fault
      | _, Some lt => Ok (tt, set_prefix_tree (render (tokens (tkey lt) t)) st)
      end.
Proof.
  intros Hbuild Hrep Hlast Hfuel.
  apply build_tree_last with (e := e) (rest := rest) in Hbuild; [|done].
  cbn in Hbuild. rewrite Hbuild in Hlast. split; [done|]. split.
  - apply last_keyed_None.
  - destruct t as [|a c l k r].
    + destruct fuel as [|fuel]; [cbn in Hfuel; lia|].
      apply prefix_order_empty, Hrep.
    + rewrite (rep_St st _ Hrep) at 1.
      destruct (last_keyed None rest) as [lt|].
      * rewrite (prefix_order_spec st _ lt fuel) by (done || apply Hrep).
        do 2 f_equal. unfold St, set_prefix_tree. cbn.
        destruct Hrep as (-> & -> & _). done.
      * apply prefix_order_unset; (done || apply Hrep).
Qed.

Lemma prefix_order_reads_last_witness :
  last ex_built = last_keyed None []
  ∧ (last_keyed None [] = None ↔ Forall (λ x, keyed x = false) [])
  ∧ prefix_order 2 ex_built
    = match T 1%positive black E 10 E, last_keyed None [] with
      | E, _ => Ok (tt, set_prefix_tree "" ex_built)
      | _, None => Fault
      | _, Some lt =>
        Ok (tt, set_prefix_tree
                  (render (tokens (tkey lt) (T 1%positive black E 10 E)))
                  ex_built)
      end.
Proof.
  apply (prefix_order_reads_last (mk_tmp 10 black) [] 3 ex_built ex_built
           (T 1%positive black E 10 E) 2).
  - vm_compute. reflexivity.
  - split; [vm_compute; reflexivity|]. split; [reflexivity|].
    unfold wf. cbn. apply NoDup_singleton.
  - reflexivity.
  - cbn. lia.
Defined.

(** C10 as stated fails for the empty tree: an object that was never
    bulk-loaded, and one bulk-loaded from the single entry [10b] whose key
    was then deleted, both have [last] unset and are serialized to the
    empty string without a fault. *)
Lemma prefix_order_empty_tree_defined :
  last (RBTree_new []) = None
  ∧ prefix_order 1 (RBTree_new []) = Ok (tt, RBTree_new [])
  ∧ ∃ st', (build_tree 2 ;;; delete_node 2 10 ;;; prefix_order 2)
             (RBTree_new [mk_tmp 10 black]) = Ok (tt, st')
           ∧ last st' = None ∧ root st' = None ∧ prefix_tree st' = "".
Proof.
  split; [reflexivity|]. split; [reflexivity|].
  eexists. split; [vm_compute; reflexivity|]. done.
Qed.

(** ** The invariants in a context *)

Lemma plug_app c1 c2 t : plug (c1 ++ c2) t = plug c2 (plug c1 t).
Proof. revert t. induction c1 as [|f c1 IH]; intros t; [done|]. apply IH. Qed.

Lemma bh_balanced t n : bh t n ↔ balanced t ∧ bhf t = n.
Proof.
  revert n. induction t as [|a c l IHl k r IHr]; intros n; cbn.
  - naive_solver.
  - destruct c.
    + destruct n as [|m]; [split; [done|lia]|].
      rewrite IHl, IHr. split; [intros ((?&?)&?&?)|intros ((?&?&?)&?)].
      all: repeat split; (done || lia).
    + rewrite IHl, IHr. split; [intros ((?&?)&?&?)|intros ((?&?&?)&?)].
      all: repeat split; (done || lia).
Qed.

Lemma inv_bh_balanced t : inv_bh t ↔ balanced t.
Proof.
  unfold inv_bh. split.
  - intros [n H]. by apply bh_balanced in H as [? _].
  - intros H. exists (bhf t). by apply bh_balanced.
Qed.

Lemma bhf_fill f t :
  bhf (fsib f) = bhf t →
  bhf (fill f t) = (bhf t + if fcolor f then 1 else 0)%nat.
Proof. destruct f; cbn; lia. Qed.

Lemma balanced_plug ctx t :
  balanced (plug ctx t) ↔ balanced t ∧ ctx_bal ctx (bhf t).
Proof.
  revert t. induction ctx as [|f ctx IH]; intros t; cbn; [tauto|].
  rewrite IH. split.
  - intros [Hb Hc]. assert (bhf (fsib f) = bhf t ∧ balanced (fsib f) ∧ balanced t)
      as (?&?&?) by (destruct f; cbn in *; naive_solver).
    rewrite bhf_fill in Hc by done. done.
  - intros (Hb & He & Hs & Hc). rewrite bhf_fill by done.
    split; [|done]. destruct f; cbn in *; naive_solver.
Qed.

Lemma color_of_plug ctx t : color_of (plug ctx t) = ctx_rootc ctx (color_of t).
Proof.
  revert t. induction ctx as [|f ctx IH]; intros t; cbn; [done|].
  rewrite IH. by destruct f.
Qed.

Lemma inv_red_plug ctx t :
  inv_red (plug ctx t) ↔ inv_red t ∧ ctx_red ctx (color_of t).
Proof.
  revert t. induction ctx as [|f ctx IH]; intros t; cbn; [tauto|].
  rewrite IH. destruct f as [a c k r|a c l k]; cbn; destruct c; naive_solver.
Qed.

Lemma keys_plug ctx t : keys (plug ctx t) = ctx_kl ctx ++ keys t ++ ctx_kr ctx.
Proof.
  revert t. induction ctx as [|f ctx IH]; intros t; cbn.
  - by rewrite app_nil_r.
  - rewrite IH. destruct f; cbn; by rewrite <- ?app_assoc.
Qed.

Lemma ctx_red_weaken ctx hc : ctx_red ctx hc → ctx_red ctx black.
Proof. destruct ctx as [|f ctx]; [done|]. cbn. destruct (fcolor f); naive_solver. Qed.

Lemma ctx_red_black ctx hc : hc = black → ctx_red ctx black → ctx_red ctx hc.
Proof. by intros ->. Qed.

(** Invariant 5 says the in-order key list increases. *)
Lemma inv_bst_sorted t : inv_bst t ↔ StronglySorted Z.lt (keys t).
Proof.
  induction t as [|a c l IHl k r IHr]; cbn.
  - split; [constructor|done].
  - rewrite IHl, IHr, StronglySorted_app, StronglySorted_cons.
    rewrite !Forall_forall. split.
    + intros (Hl & Hr & Hsl & Hsr). repeat split; try done.
      intros x y Hx [->|Hy]%elem_of_cons; [by apply Hl|].
      apply Hl in Hx. apply Hr in Hy. lia.
    + intros (Hxy & Hsl & Hr & Hsr). repeat split; try done.
      intros x Hx. apply Hxy; [done|set_solver].
Qed.

(** ** Addresses that differ *)

Lemma ptr_of_plug_ctx f ctx t :
  ∃ b, ptr_of (plug (f :: ctx) t) = Some b ∧ b ∈ ctx_addrs (f :: ctx).
Proof.
  revert f t. induction ctx as [|g ctx IH]; intros f t.
  - exists (faddr f). split; [by destruct f|]. cbn. set_solver.
  - destruct (IH g (fill f t)) as (b & Hb & Hin). exists b. split; [done|].
    cbn in *. set_solver.
Qed.

Lemma focus_not_root f ctx t a :
  wf (plug (f :: ctx) t) → a ∈ addrs t →
  ptr_of (plug (f :: ctx) t) ≠ Some a.
Proof.
  intros Hwf Ha. destruct (ptr_of_plug_ctx f ctx t) as (b & -> & Hb).
  intros [= ->]. unfold wf in Hwf. rewrite addrs_plug in Hwf.
  apply NoDup_app in Hwf as (_ & Hd & _). by apply (Hd a).
Qed.

Lemma ptr_eqb_Some_None a : ptr_eqb (Some a) None = false.
Proof. done. Qed.

Lemma ptr_eqb_Some a b : a ≠ b → ptr_eqb (Some a) (Some b) = false.
Proof. intros H. apply ptr_eqb_ne. congruence. Qed.

Lemma ptr_eqb_sub a t : a ∉ addrs t → ptr_eqb (Some a) (ptr_of t) = false.
Proof.
  intros Ha. destruct t as [|b c l k r]; [done|]. apply ptr_eqb_Some.
  intros ->. apply Ha. cbn. set_solver.
Qed.

(** The explicit addresses of the tree of [Hwf] differ pairwise, and none
    of them is in the rest of the tree. *)
Ltac nodup_facts_in H :=
  repeat (let H1 := fresh "Hne" in
          apply NoDup_cons in H as [H1 H];
          repeat (let H2 := fresh "Hne" in
                  apply not_elem_of_cons in H1 as [H2 H1])).

Ltac wf_facts Hwf :=
  let H := fresh "Hnd" in
  pose proof Hwf as H; unfold wf in H;
  try rewrite addrs_plug in H;
  cbn [addrs plug fill app ctx_addrs faddr fsib] in H;
  rewrite <- ?app_assoc in H; cbn [app] in H;
  repeat (rewrite <- Permutation_middle in H; cbn [app] in H);
  nodup_facts_in H; clear H.

Ltac cond_simpl :=
  cbv beta iota;
  cbn [is_null negb ptr_of par_of faddr eqb andb orb fcolor fsib color_of
       fst snd];
  rewrite ?ptr_eqb_refl, ?ptr_eqb_Some_None;
  repeat (rewrite ptr_eqb_Some by congruence);
  repeat match goal with
         | H : ptr_eqb _ _ = _ |- _ => rewrite H
         | H : ?a ∉ _ |- context [ptr_eqb (Some ?a) (ptr_of ?t)] =>
           rewrite (ptr_eqb_sub a t) by (clear -H; set_solver)
         end;
  cbv beta iota; cbn [negb andb orb].

Ltac tstep'' Hwf := tstep Hwf; cond_simpl.
Ltac run Hwf := cond_simpl; repeat (tstep'' Hwf).

Lemma test_facts ctx g cg p cp n l k r kp sb kg u cu ul ku ur :
  wf (plug ctx (T g cg (T p cp (T n red l k r) kp sb) kg (T u cu ul ku ur))) →
  g ≠ p ∧ p ≠ n ∧ n ≠ u ∧ u ≠ g.
Proof. intros Hwf. wf_facts Hwf. repeat split; congruence. Qed.

(** ** Repair after insertion *)

Lemma sub_not_root ctx t a :
  wf (plug ctx t) → a ∈ addrs t → ptr_of t ≠ Some a →
  ptr_eqb (Some a) (ptr_of (plug ctx t)) = false.
Proof.
  intros Hwf Ha Hne. apply ptr_eqb_ne. intros Heq. symmetry in Heq. revert Heq.
  destruct ctx as [|f ctx]; [done|]. by apply focus_not_root.
Qed.

(** The exit of the loop of [fix_insert]. *)
Ltac fi_exit Hwf :=
  rewrite blacken_black
    by (rewrite ?color_of_plug; cbn [ctx_rootc fcolor color_of] in *; congruence);
  reflexivity.

Ltac list_eq :=
  repeat first [rewrite <- !app_assoc | progress cbn [app]]; reflexivity.

Ltac inv_solve :=
  rewrite ?balanced_plug, ?inv_red_plug, ?color_of_plug, ?keys_plug, ?addrs_plug;
  cbn in *; rewrite <- ?app_assoc; cbn;
  repeat match goal with
         | H : _ ∧ _ |- _ => destruct H
         | H : true = false |- _ => discriminate H
         | H : false = true |- _ => discriminate H
         end;
  repeat split; try done; try lia; try congruence;
  try match goal with
      | H : ctx_bal ?c ?a |- ctx_bal ?c ?b => replace b with a by lia; exact H
      | |- _ ≡ₚ _ => perm
      | |- @eq (list Z) _ _ => list_eq
      end.

Lemma fix_insert_ok s m :
  ∀ ctx n l k r fuel,
  (length ctx ≤ m)%nat →
  wf (plug ctx (T n red l k r)) →
  color_of l = black → color_of r = black → inv_red l → inv_red r →
  balanced l → balanced r → bhf l = bhf r →
  ctx_bal ctx (bhf l) → ctx_red ctx black → ctx_rootc ctx black = black →
  (length ctx < fuel)%nat →
  ∃ T', fix_insert fuel (Some n) (St s (plug ctx (T n red l k r)))
        = Ok (tt, St s T')
        ∧ addrs T' ≡ₚ addrs (plug ctx (T n red l k r))
        ∧ keys T' = keys (plug ctx (T n red l k r))
        ∧ color_of T' = black ∧ inv_red T' ∧ balanced T'.
Proof.
  induction m as [m IH] using lt_wf_ind.
  intros ctx n l k r fuel Hm Hwf Hcl Hcr Hrl Hrr Hbl Hbr Hh Hcb Hcred Hroot Hfuel.
  destruct fuel as [|fuel]; [lia|].
  cbn [fix_insert].
  destruct ctx as [|f ctx].
  { (* the node is the root *)
    exists (T n black l k r). split; [run Hwf; reflexivity|].
    cbn. repeat split; done. }
  destruct (fcolor f) eqn:Hcf.
  { (* black parent: nothing to repair *)
    exists (plug (f :: ctx) (T n red l k r)).
    split; [|inv_solve; by rewrite ?Hcf].
    assert (Hnr := sub_not_root ctx (fill f (T n red l k r)) n Hwf).
    destruct f as [p cp kp sb|p cp sb kp]; cbn in Hcf; subst cp.
    all: wf_facts Hwf; cbn [plug fill] in *.
    all: specialize (Hnr ltac:(cbn; set_solver) ltac:(cbn; congruence)).
    all: run Hwf; fi_exit Hwf. }
  (* red parent: there is a black grandparent *)
  destruct ctx as [|g ctx]; [cbn in Hroot; congruence|].
  assert (Hcg : fcolor g = black).
  { cbn in Hcred. rewrite Hcf in Hcred. destruct (fcolor g); naive_solver. }
  assert (Hnr := sub_not_root ctx (fill g (fill f (T n red l k r))) n Hwf).
  destruct f as [p cp kp sb|p cp sb kp]; cbn in Hcf; subst cp;
  destruct g as [g cg kg u|g cg u kg]; cbn in Hcg; subst cg;
  (destruct u as [|u [] ul ku ur]; [| |]).
  all: cbn [plug fill] in *.
  all: wf_facts Hwf.
  (* red uncle: recolor and go on from the grandparent *)
  all: try lazymatch goal with
    | Hwf : wf (plug ?c (T ?g true (T ?a false ?al ?ka ?ar) ?kg
                                  (T ?b false ?bl ?kb ?br))),
      IH : ∀ m0 : nat, _ |- _ =>
      destruct (IH (length c) ltac:(cbn in Hm; lia) c g
                  (T a true al ka ar) kg (T b true bl kb br) fuel
                  ltac:(done) ltac:(revert Hwf; by apply wf_plug_perm)
                  ltac:(inv_solve) ltac:(inv_solve) ltac:(inv_solve)
                  ltac:(inv_solve) ltac:(inv_solve) ltac:(inv_solve)
                  ltac:(inv_solve) ltac:(inv_solve) ltac:(inv_solve)
                  ltac:(inv_solve) ltac:(inv_solve))
        as (T' & Heq & Hperm & Hkeys & HcT & HrT & HbT)
    end.
  all: try clear IH.
  all: specialize (Hnr ltac:(cbn; set_solver) ltac:(cbn; congruence)).
  (* recoloring *)
  all: try (exists T'; split;
            [run Hwf; exact Heq|];
            split; [rewrite Hperm, !addrs_plug; reflexivity|];
            split; [rewrite Hkeys, !keys_plug; reflexivity|done]).
  (* black uncle: rotate; the next round of the loop stops *)
  all: eexists; (split; [|shelve]).
  all: run Hwf.
  all: (destruct fuel as [|fuel']; [cbn in Hfuel; lia|]); cbn [fix_insert].
  all: run Hwf.
  all: match goal with
       | |- context [ptr_eqb ?a (ptr_of ?t)] =>
         destruct (ptr_eqb a (ptr_of t)) eqn:Hrt
       end.
  all: run Hwf.
  all: try fi_exit Hwf.
  Unshelve.
  all: clear Hnr; try clear IH.
  all: inv_solve.
Qed.

(** ** Linking a new node *)

Lemma dom_heap_of t : dom (heap_of t) = list_to_set (addrs t).
Proof. unfold heap_of. rewrite dom_list_to_map_L. f_equal. apply fst_cells. Qed.

Lemma fresh_not_in t : fresh (dom (heap_of t)) ∉ addrs t.
Proof.
  intros Hin. pose proof (is_fresh (dom (heap_of t))) as Hf. apply Hf.
  rewrite dom_heap_of at 2. by apply elem_of_list_to_set.
Qed.

Lemma new_node_St s t k :
  new_node k (St s t)
  = Ok (Some (fresh (dom (heap_of t))),
        Detached s t (fresh (dom (heap_of t))) k).
Proof. done. Qed.

Lemma put_root_Detached_empty s n k :
  put_root (Some n) (Detached s E n k) = Ok (tt, St s (T n red E k E)).
Proof. done. Qed.

Lemma put_root_same s t : put_root (ptr_of t) (St s t) = Ok (tt, St s t).
Proof. done. Qed.

Lemma deref_Detached_new s t n k :
  deref (Some n) (Detached s t n k)
  = Ok (mk_node k None None None red, Detached s t n k).
Proof. unfold deref, Detached. cbn. by rewrite lookup_insert_eq. Qed.

Lemma deref_Detached s ctx a c l ka r n k :
  wf (plug ctx (T a c l ka r)) → n ∉ addrs (plug ctx (T a c l ka r)) →
  deref (Some a) (Detached s (plug ctx (T a c l ka r)) n k)
  = Ok (mk_node ka (par_of ctx) (ptr_of l) (ptr_of r) c,
        Detached s (plug ctx (T a c l ka r)) n k).
Proof.
  intros Hwf Hn. unfold deref, Detached. cbn.
  rewrite lookup_insert_ne.
  - by rewrite lookup_focus.
  - intros ->. apply Hn. rewrite addrs_plug. cbn. set_solver.
Qed.

Lemma wf_link_left ctx a c ka r n k :
  wf (plug ctx (T a c E ka r)) → n ∉ addrs (plug ctx (T a c E ka r)) →
  wf (plug ctx (T a c (T n red E k E) ka r)).
Proof.
  unfold wf. rewrite !addrs_plug. cbn. intros Hwf Hn.
  apply (NoDup_Permutation_proper (n :: a :: addrs r ++ ctx_addrs ctx));
    [perm|]. by apply NoDup_cons_2.
Qed.

Lemma wf_link_right ctx a c l ka n k :
  wf (plug ctx (T a c l ka E)) → n ∉ addrs (plug ctx (T a c l ka E)) →
  wf (plug ctx (T a c l ka (T n red E k E))).
Proof.
  unfold wf. rewrite !addrs_plug. cbn. intros Hwf Hn.
  apply (NoDup_Permutation_proper (n :: a :: (addrs l ++ []) ++ ctx_addrs ctx));
    [perm|]. by apply NoDup_cons_2.
Qed.

Lemma link_left s ctx a c ka r n k :
  wf (plug ctx (T a c E ka r)) → n ∉ addrs (plug ctx (T a c E ka r)) →
  (put_left (Some a) (Some n) ;;;
   let* l := get_left (Some a) in put_parent l (Some a))
    (Detached s (plug ctx (T a c E ka r)) n k)
  = Ok (tt, St s (plug ctx (T a c (T n red E k E) ka r))).
Proof.
  intros Hwf Hn. pose proof (wf_link_left _ _ _ _ _ _ k Hwf Hn) as Hwf'.
  unfold Detached.
  open2 Hwf' Hwf ctx (T a c (T n red E k E) ka r) (T a c E ka r).
  cbv [bind ret deref update get_left get_right get_parent get_key get_color
       put_left put_right put_parent put_key put_color put_root get_root
       set_mem set_root].
  heap_run; heap_done.
  by apply ptr_of_plug_same.
Qed.

Lemma link_right s ctx a c l ka n k :
  wf (plug ctx (T a c l ka E)) → n ∉ addrs (plug ctx (T a c l ka E)) →
  (put_right (Some a) (Some n) ;;;
   let* r := get_right (Some a) in put_parent r (Some a))
    (Detached s (plug ctx (T a c l ka E)) n k)
  = Ok (tt, St s (plug ctx (T a c l ka (T n red E k E)))).
Proof.
  intros Hwf Hn. pose proof (wf_link_right _ _ _ _ _ _ k Hwf Hn) as Hwf'.
  unfold Detached.
  open2 Hwf' Hwf ctx (T a c l ka (T n red E k E)) (T a c l ka E).
  cbv [bind ret deref update get_left get_right get_parent get_key get_color
       put_left put_right put_parent put_key put_color put_root get_root
       set_mem set_root].
  heap_run; heap_done.
  by apply ptr_of_plug_same.
Qed.

Lemma ptr_of_ins n k t : t ≠ E → ptr_of (ins n k t) = ptr_of t.
Proof.
  destruct t as [|a c l ka r]; [done|]. intros _. cbn.
  by destruct (k <? ka), (k >? ka).
Qed.

Lemma addrs_ins n k t : k ∉ keys t → addrs (ins n k t) ≡ₚ n :: addrs t.
Proof.
  induction t as [|a c l IHl ka r IHr]; [done|]. cbn.
  rewrite elem_of_app, elem_of_cons. intros Hk.
  destruct (Z.ltb_spec k ka); [|destruct (Z.gtb_spec k ka)].
  - cbn. rewrite IHl by tauto. perm.
  - cbn. rewrite IHr by tauto. perm.
  - exfalso. apply Hk. right. left. lia.
Qed.

Lemma get_key_Detached_new {B} s t n k (K : Z → M B) :
  bind (get_key (Some n)) K (Detached s t n k) = K k (Detached s t n k).
Proof. unfold get_key. by rewrite bind_assoc, (bind_Ok _ _ _ _ _ (deref_Detached_new _ _ _ _)). Qed.

Section detached.
Context {B : Type} (s : RBTree) (ctx : list frame) (a : addr) (c : bool)
        (l : tree) (ka : Z) (r : tree) (n : addr) (k : Z).
Context (Hwf : wf (plug ctx (T a c l ka r))).
Context (Hn : n ∉ addrs (plug ctx (T a c l ka r))).

Lemma get_key_Detached (K : Z → M B) :
  bind (get_key (Some a)) K (Detached s (plug ctx (T a c l ka r)) n k)
  = K ka (Detached s (plug ctx (T a c l ka r)) n k).
Proof.
  unfold get_key.
  by rewrite bind_assoc, (bind_Ok _ _ _ _ _ (deref_Detached _ _ _ _ _ _ _ _ _ Hwf Hn)).
Qed.

Lemma get_left_Detached (K : node_p → M B) :
  bind (get_left (Some a)) K (Detached s (plug ctx (T a c l ka r)) n k)
  = K (ptr_of l) (Detached s (plug ctx (T a c l ka r)) n k).
Proof.
  unfold get_left.
  by rewrite bind_assoc, (bind_Ok _ _ _ _ _ (deref_Detached _ _ _ _ _ _ _ _ _ Hwf Hn)).
Qed.

Lemma get_right_Detached (K : node_p → M B) :
  bind (get_right (Some a)) K (Detached s (plug ctx (T a c l ka r)) n k)
  = K (ptr_of r) (Detached s (plug ctx (T a c l ka r)) n k).
Proof.
  unfold get_right.
  by rewrite bind_assoc, (bind_Ok _ _ _ _ _ (deref_Detached _ _ _ _ _ _ _ _ _ Hwf Hn)).
Qed.
End detached.

Lemma insert_helper_null fuel n st :
  insert_helper (S fuel) None n st = Ok (n, st).
Proof. done. Qed.

Lemma insert_helper_spec s n k t :
  ∀ fuel ctx, t ≠ E → wf (plug ctx t) → n ∉ addrs (plug ctx t) →
  k ∉ keys t → (height t < fuel)%nat →
  insert_helper fuel (ptr_of t) (Some n) (Detached s (plug ctx t) n k)
  = Ok (ptr_of t, St s (plug ctx (ins n k t))).
Proof.
  induction t as [|a c l IHl ka r IHr]; intros fuel ctx Hne Hwf Hn Hk Hfuel;
    [done|].
  destruct fuel as [|fuel]; [cbn in Hfuel; lia|].
  cbn in Hfuel, Hk. rewrite elem_of_app, elem_of_cons in Hk.
  cbn [insert_helper ptr_of is_null ins].
  rewrite get_key_Detached_new, get_key_Detached by done.
  assert (Hwf' : wf (plug ctx (ins n k (T a c l ka r)))).
  { unfold wf. rewrite addrs_plug.
    rewrite addrs_ins by (cbn; rewrite elem_of_app, elem_of_cons; tauto).
    cbn [app]. rewrite <- addrs_plug. by apply NoDup_cons_2. }
  cbn [ins] in Hwf'.
  destruct (Z.ltb_spec k ka) as [Hlt|Hge].
  - rewrite bind_assoc, get_left_Detached by done.
    rewrite bind_assoc.
    destruct l as [|la lc ll lk lr].
    + destruct fuel as [|fuel]; [lia|].
      rewrite (bind_Ok _ _ _ _ _ (insert_helper_null _ _ _)).
      rewrite (bind_Ok _ _ _ _ _ (link_left _ _ _ _ _ _ _ _ Hwf Hn)).
      done.
    + rewrite (bind_Ok _ _ _ _ _
        (IHl fuel (FL a c ka r :: ctx) ltac:(done) Hwf Hn ltac:(tauto) ltac:(lia))).
      rewrite ?ptr_of_ins by done.
      destruct (ins n k (T la lc ll lk lr)) as [|ia ic il ik ir] eqn:Hins.
      { by apply (f_equal ptr_of) in Hins; rewrite ptr_of_ins in Hins. }
      apply (f_equal ptr_of) in Hins as Hp. rewrite ptr_of_ins in Hp by done.
      cbn in Hp. injection Hp as <-.
      cbn [plug fill ptr_of]. by run Hwf'.
  - rewrite bind_assoc, get_key_Detached_new, bind_assoc, get_key_Detached by done.
    destruct (Z.gtb_spec k ka) as [Hgt|Hle]; [|lia].
    rewrite bind_assoc, get_right_Detached by done.
    rewrite bind_assoc.
    destruct r as [|ra rc rl rk rr].
    + destruct fuel as [|fuel]; [lia|].
      rewrite (bind_Ok _ _ _ _ _ (insert_helper_null _ _ _)).
      rewrite (bind_Ok _ _ _ _ _ (link_right _ _ _ _ _ _ _ _ Hwf Hn)).
      done.
    + rewrite (bind_Ok _ _ _ _ _
        (IHr fuel (FR a c l ka :: ctx) ltac:(done) Hwf Hn ltac:(tauto) ltac:(lia))).
      rewrite ?ptr_of_ins by done.
      destruct (ins n k (T ra rc rl rk rr)) as [|ia ic il ik ir] eqn:Hins.
      { by apply (f_equal ptr_of) in Hins; rewrite ptr_of_ins in Hins. }
      apply (f_equal ptr_of) in Hins as Hp. rewrite ptr_of_ins in Hp by done.
      cbn in Hp. injection Hp as <-.
      cbn [plug fill ptr_of]. by run Hwf'.
Qed.

(** ** Insertion *)

Lemma ins_plug n k t :
  k ∉ keys t →
  ∃ ctx, t = plug ctx E ∧ ins n k t = plug ctx (T n red E k E)
         ∧ (length ctx ≤ height t)%nat.
Proof.
  induction t as [|a c l IHl ka r IHr]; cbn.
  - intros _. by exists [].
  - rewrite elem_of_app, elem_of_cons. intros Hk.
    destruct (Z.ltb_spec k ka); [|destruct (Z.gtb_spec k ka)].
    + destruct IHl as (ctx & Hl & Hi & Hlen); [tauto|].
      exists (ctx ++ [FL a c ka r]). rewrite !plug_app. cbn.
      rewrite <- Hl, <- Hi, length_app. cbn. split; [done|]. split; [done|lia].
    + destruct IHr as (ctx & Hr & Hi & Hlen); [tauto|].
      exists (ctx ++ [FR a c l ka]). rewrite !plug_app. cbn.
      rewrite <- Hr, <- Hi, length_app. cbn. split; [done|]. split; [done|lia].
    + exfalso. apply Hk. right. left. lia.
Qed.

Lemma keys_ins n k t : k ∉ keys t → keys (ins n k t) ≡ₚ k :: keys t.
Proof.
  induction t as [|a c l IHl ka r IHr]; [done|]. cbn.
  rewrite elem_of_app, elem_of_cons. intros Hk.
  destruct (Z.ltb_spec k ka); [|destruct (Z.gtb_spec k ka)].
  - cbn. rewrite IHl by tauto. perm.
  - cbn. rewrite IHr by tauto. perm.
  - exfalso. apply Hk. right. left. lia.
Qed.

Lemma inv_bst_ins n k t : inv_bst t → k ∉ keys t → inv_bst (ins n k t).
Proof.
  induction t as [|a c l IHl ka r IHr]; cbn.
  - intros _ _. repeat split; constructor.
  - rewrite elem_of_app, elem_of_cons. intros (Hl & Hr & Hbl & Hbr) Hk.
    destruct (Z.ltb_spec k ka); [|destruct (Z.gtb_spec k ka)].
    + cbn. repeat split; [|done|by apply IHl; tauto|done].
      rewrite keys_ins by tauto. by constructor.
    + cbn. repeat split; [done| |done|by apply IHr; tauto].
      rewrite keys_ins by tauto. constructor; [lia|done].
    + exfalso. apply Hk. right. left. lia.
Qed.

Lemma lookup_tree_None k t :
  inv_bst t → k ∉ keys t → ptr_of (lookup_tree k t) = None.
Proof.
  intros Hb Hk. destruct (ptr_of (lookup_tree k t)) eqn:Hl; [|done].
  exfalso. apply Hk, lookup_tree_keys; [done|]. by rewrite Hl.
Qed.

Lemma insert_node_new s t k fuel :
  wf t → rb_inv t → k ∉ keys t → (height t < fuel)%nat →
  ∃ T', insert_node fuel k (St s t) = Ok (tt, St s T')
        ∧ wf T' ∧ rb_inv T' ∧ keys T' ≡ₚ k :: keys t.
Proof.
  intros Hwf (Hroot & Hred & Hbh & Hbst) Hk Hfuel.
  apply inv_bh_balanced in Hbh.
  unfold insert_node.
  rewrite (bind_Ok _ _ _ _ _ (search_tree_spec s k t fuel Hwf Hfuel)).
  rewrite lookup_tree_None by done. cbn [is_null].
  rewrite (bind_Ok _ _ _ _ _ (new_node_St s t k)).
  set (n := fresh (dom (heap_of t))).
  assert (Hn : n ∉ addrs t) by apply fresh_not_in.
  assert (∃ T', (let* rt := get_root in
                 let* rt' := insert_helper fuel rt (Some n) in
                 put_root rt' ;;; fix_insert fuel (Some n))
                  (Detached s t n k) = Ok (tt, St s T')
                ∧ addrs T' ≡ₚ addrs (ins n k t)
                ∧ keys T' = keys (ins n k t)
                ∧ color_of T' = black ∧ inv_red T' ∧ balanced T')
    as (T' & Heq & Hperm & Hkeys & HcT & HrT & HbT).
  { destruct (ins_plug n k t Hk) as (ctx & Ht & Hins & Hlen).
    assert (Hwf' : wf (ins n k t)).
    { unfold wf. rewrite addrs_ins by done. by apply NoDup_cons_2. }
    rewrite Hins in Hwf' |- *.
    destruct (fix_insert_ok s (length ctx) ctx n E k E fuel) as (T' & HT');
      try done; try lia.
    { apply balanced_plug with (t := E). by rewrite <- Ht. }
    { apply (inv_red_plug ctx E). by rewrite <- Ht. }
    { pose proof (color_of_plug ctx E) as Hc. cbn in Hc. by rewrite <- Hc, <- Ht. }
    exists T'. split; [|apply HT'].
    destruct HT' as [HT' _].
    unfold bind at 1. unfold get_root at 1. cbn [root Detached St set_mem].
    destruct t as [|a c l ka r].
    - destruct ctx as [|f ctx];
        [|exfalso; destruct f; symmetry in Ht; by apply plug_not_E in Ht].
      destruct fuel as [|fuel]; [lia|].
      rewrite (bind_Ok _ _ _ _ _ (insert_helper_null _ _ _)).
      by rewrite (bind_Ok _ _ _ _ _ (put_root_Detached_empty _ _ _)).
    - rewrite (bind_Ok _ _ _ _ _
        (insert_helper_spec s n k (T a c l ka r) fuel [] ltac:(done) Hwf Hn Hk Hfuel)).
      cbn [plug]. rewrite Hins.
      assert (Hp : ptr_of (T a c l ka r) = ptr_of (plug ctx (T n red E k E))).
      { by rewrite <- Hins, ptr_of_ins. }
      rewrite Hp.
      by rewrite (bind_Ok _ _ _ _ _ (put_root_same _ _)). }
  exists T'. split; [done|].
  split; [by eapply wf_perm; [symmetry; apply Hperm|];
          unfold wf; rewrite addrs_ins by done; apply NoDup_cons_2|].
  split; [|by rewrite Hkeys, keys_ins].
  repeat split; try done.
  - by apply inv_bh_balanced.
  - apply inv_bst_sorted. rewrite Hkeys. apply inv_bst_sorted.
    by apply inv_bst_ins.
Qed.

(** ** Unlinking and freeing nodes *)

Lemma not_in_heap (r : list (addr * node)) a :
  a ∉ r.*1 → (list_to_map r : gmap addr node) !! a = None.
Proof. apply not_elem_of_list_to_map_1. Qed.

Ltac absent_facts :=
  repeat match goal with
         | H : ?a ∉ ?r.*1 |- _ => apply (not_in_heap r a) in H
         end.

(** As [open2], keeping that the explicit addresses are not in the rest. *)
Ltac open2d Hwf Hwf' ctx t t' :=
  let Hh := fresh "Hh" in let Hh' := fresh "Hh" in let Hnd := fresh "Hnd" in
  open_heap_with Hwf ctx t ltac:(fun e r HL =>
    destruct (heap_split _ _ e r Hwf HL ltac:(perm)) as [Hh Hnd]; clear HL;
    open_heap_with Hwf' ctx t' ltac:(fun e' r' HL' =>
      pose proof (heap_join _ _ e' r Hwf' HL' ltac:(perm)) as Hh'; clear HL'));
  cbn [fmap list_fmap app fst] in Hnd; nodup_facts_in Hnd; clear Hnd;
  absent_facts;
  unfold St; cbn [plug fill] in Hh, Hh' |- *; rewrite Hh, Hh'; clear Hh Hh';
  cbn [list_to_map foldr app fst snd];
  match goal with
  | |- context [list_to_map ?r] =>
    let R := fresh "R" in
    set (R := (list_to_map r : gmap addr node)) in *; clearbody R
  end.

Ltac heap_run_d :=
  repeat first
    [ progress cbn [mem root last tmp_tree prefix_tree cout is_null negb
                    key parent left right color ptr_of]
    | rewrite lookup_insert_eq
    | rewrite lookup_insert_ne by congruence
    | rewrite lookup_delete_ne by congruence
    | rewrite ptr_eqb_refl
    | rewrite ptr_eqb_ne by congruence ].

Ltac heap_eq_d :=
  apply map_eq; intros ?i;
  repeat first [rewrite lookup_insert | rewrite lookup_delete];
  repeat (case_decide; subst; try congruence).

Ltac heap_done_d :=
  cbn [ptr_of plug fill]; f_equal; f_equal; f_equal; try heap_eq_d.

Ltac heap_cbv :=
  cbv [bind ret deref update get_left get_right get_parent get_key get_color
       put_left put_right put_parent put_key put_color put_root get_root
       delete_ptr set_mem set_root].

Lemma wf_drop ctx t t' x :
  addrs t ≡ₚ x :: addrs t' → wf (plug ctx t) → wf (plug ctx t').
Proof.
  unfold wf. rewrite !addrs_plug. intros ->. cbn. rewrite NoDup_cons. tauto.
Qed.

Ltac wf_sub Hwf x := revert Hwf; apply (wf_drop _ _ _ x); cbn; perm.

Lemma unlink_left s ctx p cp n c k kp sb :
  wf (plug ctx (T p cp (T n c E k E) kp sb)) →
  (put_left (Some p) None ;;; delete_ptr (Some n))
    (St s (plug ctx (T p cp (T n c E k E) kp sb)))
  = Ok (tt, St s (plug ctx (T p cp E kp sb))).
Proof.
  intros Hwf.
  assert (Hwf' : wf (plug ctx (T p cp E kp sb))).
  { pose proof Hwf as Hw. wf_sub Hw n. }
  open2d Hwf Hwf' ctx (T p cp (T n c E k E) kp sb) (T p cp E kp sb).
  heap_cbv; heap_run_d; heap_done_d.
  by apply ptr_of_plug_same.
Qed.

Lemma unlink_right s ctx p cp n c k kp sb :
  wf (plug ctx (T p cp sb kp (T n c E k E))) →
  (put_right (Some p) None ;;; delete_ptr (Some n))
    (St s (plug ctx (T p cp sb kp (T n c E k E))))
  = Ok (tt, St s (plug ctx (T p cp sb kp E))).
Proof.
  intros Hwf.
  assert (Hwf' : wf (plug ctx (T p cp sb kp E))) by (pose proof Hwf as Hw; wf_sub Hw n).
  open2d Hwf Hwf' ctx (T p cp sb kp (T n c E k E)) (T p cp sb kp E).
  heap_cbv; heap_run_d; heap_done_d.
  by apply ptr_of_plug_same.
Qed.

Lemma delete_root_leaf s n c k :
  (put_root None ;;; delete_ptr (Some n)) (St s (T n c E k E))
  = Ok (tt, St s E).
Proof.
  unfold St, heap_of. cbn [cells app list_to_map foldr fst snd ptr_of].
  heap_cbv; heap_run_d. f_equal. f_equal. f_equal.
  apply map_eq; intros i. rewrite lookup_delete, lookup_insert.
  by repeat case_decide.
Qed.

(** Splicing out a node with one child, which is a leaf. *)
Lemma splice_ll s ctx p cp n c k m cm km kp sb :
  wf (plug ctx (T p cp (T n c (T m cm E km E) k E) kp sb)) →
  (put_left (Some p) (Some m) ;;; delete_ptr (Some n) ;;;
   put_parent (Some m) (Some p))
    (St s (plug ctx (T p cp (T n c (T m cm E km E) k E) kp sb)))
  = Ok (tt, St s (plug ctx (T p cp (T m cm E km E) kp sb))).
Proof.
  intros Hwf.
  assert (Hwf' : wf (plug ctx (T p cp (T m cm E km E) kp sb))) by (pose proof Hwf as Hw; wf_sub Hw n).
  open2d Hwf Hwf' ctx (T p cp (T n c (T m cm E km E) k E) kp sb)
         (T p cp (T m cm E km E) kp sb).
  heap_cbv; heap_run_d; heap_done_d.
  by apply ptr_of_plug_same.
Qed.

Lemma splice_lr s ctx p cp n c k m cm km kp sb :
  wf (plug ctx (T p cp (T n c E k (T m cm E km E)) kp sb)) →
  (put_left (Some p) (Some m) ;;; delete_ptr (Some n) ;;;
   put_parent (Some m) (Some p))
    (St s (plug ctx (T p cp (T n c E k (T m cm E km E)) kp sb)))
  = Ok (tt, St s (plug ctx (T p cp (T m cm E km E) kp sb))).
Proof.
  intros Hwf.
  assert (Hwf' : wf (plug ctx (T p cp (T m cm E km E) kp sb))) by (pose proof Hwf as Hw; wf_sub Hw n).
  open2d Hwf Hwf' ctx (T p cp (T n c E k (T m cm E km E)) kp sb)
         (T p cp (T m cm E km E) kp sb).
  heap_cbv; heap_run_d; heap_done_d.
  by apply ptr_of_plug_same.
Qed.

Lemma splice_rl s ctx p cp n c k m cm km kp sb :
  wf (plug ctx (T p cp sb kp (T n c (T m cm E km E) k E))) →
  (put_right (Some p) (Some m) ;;; delete_ptr (Some n) ;;;
   put_parent (Some m) (Some p))
    (St s (plug ctx (T p cp sb kp (T n c (T m cm E km E) k E))))
  = Ok (tt, St s (plug ctx (T p cp sb kp (T m cm E km E)))).
Proof.
  intros Hwf.
  assert (Hwf' : wf (plug ctx (T p cp sb kp (T m cm E km E)))) by (pose proof Hwf as Hw; wf_sub Hw n).
  open2d Hwf Hwf' ctx (T p cp sb kp (T n c (T m cm E km E) k E))
         (T p cp sb kp (T m cm E km E)).
  heap_cbv; heap_run_d; heap_done_d.
  by apply ptr_of_plug_same.
Qed.

Lemma splice_rr s ctx p cp n c k m cm km kp sb :
  wf (plug ctx (T p cp sb kp (T n c E k (T m cm E km E)))) →
  (put_right (Some p) (Some m) ;;; delete_ptr (Some n) ;;;
   put_parent (Some m) (Some p))
    (St s (plug ctx (T p cp sb kp (T n c E k (T m cm E km E)))))
  = Ok (tt, St s (plug ctx (T p cp sb kp (T m cm E km E)))).
Proof.
  intros Hwf.
  assert (Hwf' : wf (plug ctx (T p cp sb kp (T m cm E km E)))) by (pose proof Hwf as Hw; wf_sub Hw n).
  open2d Hwf Hwf' ctx (T p cp sb kp (T n c E k (T m cm E km E)))
         (T p cp sb kp (T m cm E km E)).
  heap_cbv; heap_run_d; heap_done_d.
  by apply ptr_of_plug_same.
Qed.

(** ** Repair after deletion *)

Ltac dstep Hwf :=
  lazymatch goal with
  | |- bind (is_on_left _) _ _ = _ => unfold is_on_left at 1
  | |- bind (sibling _) _ _ = _ => unfold sibling at 1
  | |- bind (red_child _) _ _ = _ => unfold red_child at 1
  | |- bind (swap_keys _ _) _ _ = _ => unfold swap_keys at 1
  | |- bind (if ?b then _ else _) _ _ = _ => fail
  | |- _ => tstep Hwf
  end; cond_simpl.

Ltac drun Hwf := cond_simpl; repeat (dstep Hwf).

Lemma dbl_intro (m : M unit) s t ctx a c l k r h T' :
  m (St s t) = Ok (tt, St s T') →
  (∃ ctx', T' = plug ctx' (T a c l k r) ∧ dbl_post ctx ctx' h) →
  ∃ ctx', m (St s t) = Ok (tt, St s (plug ctx' (T a c l k r)))
          ∧ dbl_post ctx ctx' h.
Proof. intros Hrun (ctx' & -> & Hpost). by exists ctx'. Qed.

(** The context of the node [a] in the tree of the goal. *)
Ltac hole_ctx :=
  lazymatch goal with
  | |- ∃ ctx', ?t = plug ctx' (T ?a _ _ _ _) ∧ _ =>
    focus_on a t ltac:(fun ctx c l k r => exists ctx; split; [reflexivity|])
  end.

Lemma ctx_rootc_black ctx hc :
  ctx_rootc ctx hc = black → ctx_rootc ctx black = black.
Proof. by destruct ctx. Qed.

Ltac dbl_solve :=
  unfold dbl_post; inv_solve;
  try match goal with
      | H : ctx_red ?c _ |- ctx_red ?c true => exact (ctx_red_weaken _ _ H)
      | H : ctx_rootc ?c _ = true |- ctx_rootc ?c true = true =>
        exact (ctx_rootc_black _ _ H)
      end.

Lemma fix_double_black_sib s f ctx n c l k r h fuel sb sl ks sr :
  wf (plug (f :: ctx) (T n c l k r)) →
  ctx_bal (f :: ctx) (S h) → ctx_red (f :: ctx) black →
  ctx_rootc (f :: ctx) black = black →
  fsib f = T sb black sl ks sr →
  fcolor f = red ∨ color_of sl = red ∨ color_of sr = red →
  (0 < fuel)%nat →
  ∃ ctx', fix_double_black fuel (Some n)
            (St s (plug (f :: ctx) (T n c l k r)))
          = Ok (tt, St s (plug ctx' (T n c l k r)))
          ∧ dbl_post (f :: ctx) ctx' h.
Proof.
  intros Hwf Hbal Hred Hroot Hsib Hcase Hfuel.
  destruct fuel as [|fuel]; [lia|]. cbn [fix_double_black].
  assert (Hnr := sub_not_root ctx (fill f (T n c l k r)) n Hwf).
  destruct f as [p cp kp sb0|p cp sb0 kp]; cbn in Hsib; subst sb0.
  all: cbn [plug fill] in *.
  all: wf_facts Hwf.
  all: specialize (Hnr ltac:(cbn; set_solver) ltac:(cbn; congruence)).
  all: destruct sl as [|sl [] sll skl slr]; destruct sr as [|sr [] srl skr srr].
  all: cbn [fcolor color_of] in Hcase.
  all: try (assert (cp = false) as ->
              by (destruct Hcase as [Hc|[Hc|Hc]];
                  [exact Hc|discriminate Hc|discriminate Hc])).
  all: clear Hcase.
  all: (eapply dbl_intro; [drun Hwf; reflexivity|]).
  all: hole_ctx.
  all: try (destruct cp).
  all: dbl_solve.
Qed.

Lemma dbl_post_eq ctx1 ctx2 ctx' h :
  ctx_kl ctx1 = ctx_kl ctx2 → ctx_kr ctx1 = ctx_kr ctx2 →
  ctx_addrs ctx1 ≡ₚ ctx_addrs ctx2 → par_of ctx1 = par_of ctx2 →
  dbl_post ctx1 ctx' h → dbl_post ctx2 ctx' h.
Proof.
  unfold dbl_post. intros <- <- <- <-. done.
Qed.

Lemma fix_double_black_ok s :
  ∀ ctx n c l k r h fuel,
  wf (plug ctx (T n c l k r)) →
  ctx_bal ctx (S h) → ctx_red ctx black → ctx_rootc ctx black = black →
  (length ctx < fuel)%nat →
  ∃ ctx', fix_double_black fuel (Some n) (St s (plug ctx (T n c l k r)))
          = Ok (tt, St s (plug ctx' (T n c l k r)))
          ∧ dbl_post ctx ctx' h.
Proof.
  induction ctx as [|f ctx IH];
    intros n c l k r h fuel Hwf Hbal Hred Hroot Hfuel.
  { destruct fuel; [cbn in Hfuel; lia|]. exists []. split; [|dbl_solve].
    cbn [fix_double_black]. drun Hwf. reflexivity. }
  destruct (fsib f) as [|sb csb sl ks sr] eqn:Hsib.
  { exfalso. cbn in Hbal. rewrite Hsib in Hbal. cbn in Hbal. lia. }
  destruct csb.
  - (* black sibling *)
    destruct (decide (fcolor f = red ∨ color_of sl = red ∨ color_of sr = red))
      as [Hcase|Hcase].
    { apply (fix_double_black_sib s f ctx n c l k r h fuel sb sl ks sr);
        try done. lia. }
    (* no red nephew under a black parent: go on from the parent *)
    destruct fuel as [|fuel]; [cbn in Hfuel; lia|]. cbn [fix_double_black].
    assert (Hnr := sub_not_root ctx (fill f (T n c l k r)) n Hwf).
    destruct f as [p cp kp sb0|p cp sb0 kp]; cbn in Hsib; subst sb0.
    all: cbn [plug fill] in *; wf_facts Hwf.
    all: specialize (Hnr ltac:(cbn; set_solver) ltac:(cbn; congruence)).
    all: cbn [fcolor] in Hcase.
    all: (destruct cp; [|exfalso; apply Hcase; by left]).
    all: (destruct sl as [|sl [] sll skl slr];
          [| |exfalso; apply Hcase; right; by left]).
    all: (destruct sr as [|sr [] srl skr srr];
          [| |exfalso; apply Hcase; right; by right]).
    all: clear Hcase.
    all: lazymatch goal with
         | Hwf : wf (plug ?cx (T ?p true ?A ?kp ?B)) |- _ =>
           lazymatch A with
           | T ?sb true ?a ?ks ?b =>
             destruct (IH p true (T sb false a ks b) kp B (S h) fuel
                         ltac:(revert Hwf; by apply wf_plug_perm)
                         ltac:(inv_solve) ltac:(inv_solve) ltac:(inv_solve)
                         ltac:(cbn in Hfuel; lia))
               as (ctx' & Hrun & Hb & Hr & Hc & Hkl & Hkr & Ha & Hp);
             exists (FR p true (T sb false a ks b) kp :: ctx')
           | _ =>
             lazymatch B with
             | T ?sb true ?a ?ks ?b =>
               destruct (IH p true A kp (T sb false a ks b) (S h) fuel
                           ltac:(revert Hwf; by apply wf_plug_perm)
                           ltac:(inv_solve) ltac:(inv_solve) ltac:(inv_solve)
                           ltac:(cbn in Hfuel; lia))
                 as (ctx' & Hrun & Hb & Hr & Hc & Hkl & Hkr & Ha & Hp);
               exists (FL p true kp (T sb false a ks b) :: ctx')
             end
           end
         end.
    all: (split; [cbn [plug fill]; drun Hwf; exact Hrun|]).
    all: unfold dbl_post; cbn [ctx_kl ctx_kr ctx_addrs fsib faddr];
         rewrite Hkl, Hkr, Ha.
    all: clear Hkl Hkr Ha Hrun IH.
    all: inv_solve.
  - (* red sibling: rotate it above the parent; the new sibling is black *)
    destruct fuel as [|[|fuel]]; [cbn in Hfuel; lia..|].
    cbn [fix_double_black].
    assert (Hnr := sub_not_root ctx (fill f (T n c l k r)) n Hwf).
    destruct f as [p cp kp sb0|p cp sb0 kp]; cbn in Hsib; subst sb0.
    all: cbn [plug fill] in *; wf_facts Hwf.
    all: specialize (Hnr ltac:(cbn; set_solver) ltac:(cbn; congruence)).
    all: (destruct cp; [|exfalso; cbn in Hred; naive_solver]).
    + destruct sl as [|sl [] sll skl slr];
        [exfalso; cbn in Hbal; lia| |exfalso; cbn in Hred; naive_solver].
      destruct (fix_double_black_sib s (FL p red kp (T sl black sll skl slr))
                  (FL sb black ks sr :: ctx) n c l k r h (S fuel)
                  sl sll skl slr
                  ltac:(cbn [plug fill]; revert Hwf; apply wf_plug_perm; cbn; perm)
                  ltac:(inv_solve) ltac:(inv_solve) ltac:(inv_solve)
                  eq_refl ltac:(by left) ltac:(lia))
        as (ctx' & Hrun & Hpost).
      exists ctx'. split; [drun Hwf; exact Hrun|].
      revert Hpost. apply dbl_post_eq; cbn; try done; [list_eq|perm].
    + destruct sr as [|sr [] srl skr srr];
        [exfalso; cbn in Hbal; lia| |exfalso; cbn in Hred; naive_solver].
      destruct (fix_double_black_sib s (FR p red (T sr black srl skr srr) kp)
                  (FR sb black sl ks :: ctx) n c l k r h (S fuel)
                  sr srl skr srr
                  ltac:(cbn [plug fill]; revert Hwf; apply wf_plug_perm; cbn; perm)
                  ltac:(inv_solve) ltac:(inv_solve) ltac:(inv_solve)
                  eq_refl ltac:(by left) ltac:(lia))
        as (ctx' & Hrun & Hpost).
      exists ctx'. split; [drun Hwf; exact Hrun|].
      revert Hpost. apply dbl_post_eq; cbn; try done; [list_eq|perm].
Qed.

(** ** Deleting a node with at most one child *)

Lemma bind3_assoc {A B C D} (a : M A) (b : M B) (c : M C) (K : C → M D) st :
  bind a (λ _, bind b (λ _, bind c K)) st
  = bind (bind a (λ _, bind b (λ _, c))) K st.
Proof.
  unfold bind. destruct (a st) as [[? ?]| |]; try done.
  by destruct (b _) as [[? ?]| |].
Qed.

Lemma bind2_assoc {A B C} (a : M A) (b : M B) (K : B → M C) st :
  bind a (λ _, bind b K) st = bind (bind a (λ _, b)) K st.
Proof. unfold bind. by destruct (a st) as [[? ?]| |]. Qed.

Lemma unlink_right_first s ctx n c k m cm km :
  wf (plug ctx (T n c E k (T m cm E km E))) →
  (put_right (Some n) None ;;; put_left (Some n) None ;;; delete_ptr (Some m))
    (St s (plug ctx (T n c E k (T m cm E km E))))
  = Ok (tt, St s (plug ctx (T n c E k E))).
Proof.
  intros Hwf.
  assert (Hwf' : wf (plug ctx (T n c E k E)))
    by (pose proof Hwf as Hw; wf_sub Hw m).
  open2d Hwf Hwf' ctx (T n c E k (T m cm E km E)) (T n c E k E).
  heap_cbv; heap_run_d; heap_done_d.
  by apply ptr_of_plug_same.
Qed.

Lemma wf_ctx_perm ctx ctx' t :
  ctx_addrs ctx' ≡ₚ ctx_addrs ctx → wf (plug ctx t) → wf (plug ctx' t).
Proof. unfold wf. rewrite !addrs_plug. by intros ->. Qed.

Lemma bhf_zero_black t : bhf t = O → color_of t = black → t = E.
Proof. destruct t as [|a c l k r]; [done|]. cbn. intros H ->. lia. Qed.

(** Under the invariants, an only child is a red leaf under a black node. *)
Lemma only_child (c : bool) m cm ml km mr :
  (if c then True else cm = black) →
  inv_red (T m cm ml km mr) → balanced (T m cm ml km mr) →
  bhf (T m cm ml km mr) = O →
  c = black ∧ cm = red ∧ ml = E ∧ mr = E.
Proof.
  cbn. intros Hc (Hcm & Hrl & Hrr) (Hh & Hbl & Hbr) Hz.
  destruct cm; [lia|]. destruct Hcm as [Hml Hmr].
  destruct c; [|done].
  repeat split; apply bhf_zero_black; try done; lia.
Qed.

Lemma at_most_one_child c l r :
  inv_red (T 1%positive c l 0 r) → balanced (T 1%positive c l 0 r) →
  l = E ∨ r = E →
  (l = E ∧ r = E)
  ∨ (∃ m km, l = T m red E km E ∧ r = E ∧ c = black)
  ∨ (∃ m km, l = E ∧ r = T m red E km E ∧ c = black).
Proof.
  cbn. intros (Hc & Hrl & Hrr) (Hh & Hbl & Hbr) Hone.
  destruct l as [|m cm ml km mr], r as [|m' cm' ml' km' mr'];
    [by left| | |by destruct Hone].
  - right; right.
    destruct (only_child c m' cm' ml' km' mr') as (-> & -> & -> & ->);
      try done; [destruct c; naive_solver|]. by exists m', km'.
  - right; left.
    destruct (only_child c m cm ml km mr) as (-> & -> & -> & ->);
      try done; [destruct c; naive_solver|]. by exists m, km.
Qed.

Ltac xstep Hwf :=
  lazymatch goal with
  | |- bind (replace _ _) _ _ = _ => unfold replace at 1; cond_simpl
  | |- _ => dstep Hwf
  end.
Ltac xrun Hwf := cond_simpl; repeat (xstep Hwf).

Lemma delete_helper_leaf s ctx n c k fuel :
  wf (plug ctx (T n c E k E)) →
  ctx_bal ctx (bhf (T n c E k E)) → ctx_red ctx c → ctx_rootc ctx c = black →
  (length ctx + 1 < fuel)%nat →
  ∃ T', delete_helper fuel (Some n) (St s (plug ctx (T n c E k E)))
        = Ok (tt, St s T')
        ∧ wf T' ∧ keys T' = ctx_kl ctx ++ ctx_kr ctx
        ∧ color_of T' = black ∧ inv_red T' ∧ balanced T'.
Proof.
  intros Hwf Hbal Hred Hroot Hfuel.
  destruct fuel as [|fuel]; [lia|]. cbn [delete_helper].
  destruct ctx as [|f ctx].
  { (* the last node of the tree *)
    exists E. split; [xrun Hwf; apply delete_root_leaf|].
    repeat split; try done. apply NoDup_nil_2. }
  assert (Hnr := sub_not_root ctx (fill f (T n c E k E)) n Hwf
                   ltac:(destruct f; cbn; set_solver)
                   ltac:(destruct f; cbn; wf_facts Hwf; congruence)).
  destruct c.
  - (* a black leaf: repair first, then unlink *)
    destruct (fix_double_black_ok s (f :: ctx) n black E k E O fuel
                Hwf Hbal Hred Hroot ltac:(cbn in *; lia))
      as (ctx' & Hrun & Hb & Hr & Hc & Hkl & Hkr & Ha & Hp).
    pose proof (wf_ctx_perm _ _ _ Ha Hwf) as Hwf'.
    destruct ctx' as [|f' ctx']; [done|]. cbn in Hp.
    assert (Hnr' := sub_not_root ctx' (fill f' (T n black E k E)) n Hwf'
                   ltac:(destruct f'; cbn; set_solver)
                   ltac:(destruct f'; cbn; wf_facts Hwf'; congruence)).
    exists (plug (f' :: ctx') E).
    split.
    + destruct f as [p cp kp sb|p cp sb kp];
        cbn [plug fill faddr] in Hrun, Hp, Hnr, Hwf |- *.
      all: xrun Hwf.
      all: rewrite (bind_Ok _ _ _ _ _ Hrun); cbv beta.
      all: clear Hrun Hwf Hnr.
      all: destruct f' as [p' cp' kp' sb'|p' cp' sb' kp'];
        cbn in Hp; injection Hp as ->; cbn [plug fill faddr] in *.
      all: wf_facts Hwf'.
      all: xrun Hwf'.
      all: first [by apply unlink_left | by apply unlink_right].
    + split; [revert Hwf'; apply (wf_drop _ _ _ n); cbn; perm|].
      rewrite keys_plug, color_of_plug, inv_red_plug, balanced_plug.
      rewrite Hkl, Hkr. by cbn.
  - (* a red leaf: its sibling is absent or a red leaf; unlink *)
    destruct f as [p cp kp sb|p cp sb kp]; cbn [plug fill faddr] in *.
    all: (destruct cp; [|exfalso; cbn in Hred; naive_solver]).
    all: (destruct sb as [|sb [] sbl ksb sbr]; [|exfalso; cbn in Hbal; lia|]).
    all: wf_facts Hwf.
    all: eexists; (split; [xrun Hwf|]).
    all: try first [by apply unlink_left | by apply unlink_right].
    all: (split; [revert Hwf; apply (wf_drop _ _ _ n); cbn; perm|]).
    all: clear Hnr; inv_solve.
Qed.

Lemma delete_helper_one s ctx n k m km l r fuel :
  (l = T m red E km E ∧ r = E) ∨ (l = E ∧ r = T m red E km E) →
  wf (plug ctx (T n black l k r)) →
  ctx_bal ctx 1 → ctx_red ctx black → ctx_rootc ctx black = black →
  (0 < fuel)%nat →
  ∃ T', delete_helper fuel (Some n) (St s (plug ctx (T n black l k r)))
        = Ok (tt, St s T')
        ∧ wf T' ∧ keys T' = ctx_kl ctx ++ [km] ++ ctx_kr ctx
        ∧ color_of T' = black ∧ inv_red T' ∧ balanced T'.
Proof.
  intros Hshape Hwf Hbal Hred Hroot Hfuel.
  destruct fuel as [|fuel]; [lia|]. cbn [delete_helper].
  destruct ctx as [|f ctx].
  - (* at the root: the key of the child moves up, the child is freed *)
    exists (T n black E km E).
    split; [|by repeat split;
               [revert Hwf; apply (wf_drop [] _ _ m);
                destruct Hshape as [[-> ->]|[-> ->]]; cbn; perm|..]].
    destruct Hshape as [[-> ->]|[-> ->]]; cbn [plug] in *; wf_facts Hwf.
    all: xrun Hwf.
    + by apply (unlink_left s []).
    + by apply (unlink_right_first s []).
  - (* below the root: the child takes the place of the node, in black *)
    destruct Hshape as [[-> ->]|[-> ->]];
      destruct f as [p cp kp sb|p cp sb kp]; cbn [plug fill] in *.
    all: assert (Hnr := sub_not_root ctx _ n Hwf
                          ltac:(cbn; set_solver)
                          ltac:(wf_facts Hwf; cbn; congruence)).
    all: wf_facts Hwf.
    all: eexists; (split; [xrun Hwf|]).
    all: try (rewrite bind3_assoc;
              first [ rewrite (bind_Ok _ _ _ _ _ (splice_ll s _ _ _ _ _ _ _ _ _ _ _ Hwf))
                    | rewrite (bind_Ok _ _ _ _ _ (splice_lr s _ _ _ _ _ _ _ _ _ _ _ Hwf))
                    | rewrite (bind_Ok _ _ _ _ _ (splice_rl s _ _ _ _ _ _ _ _ _ _ _ Hwf))
                    | rewrite (bind_Ok _ _ _ _ _ (splice_rr s _ _ _ _ _ _ _ _ _ _ _ Hwf)) ];
              cbv beta;
              lazymatch goal with
              | |- put_color _ _ (St _ (plug ?c ?t)) = _ =>
                assert (Hwf2 : wf (plug c t))
                  by (revert Hwf; apply (wf_drop _ _ _ n); cbn; perm);
                xrun Hwf2; reflexivity
              end).
    all: (split; [revert Hwf; apply (wf_drop _ _ _ n); cbn; perm|]).
    all: clear Hnr; destruct cp; inv_solve.
Qed.

Lemma delete_helper_simple s ctx n c l k r fuel :
  wf (plug ctx (T n c l k r)) →
  inv_red (plug ctx (T n c l k r)) → balanced (plug ctx (T n c l k r)) →
  color_of (plug ctx (T n c l k r)) = black →
  l = E ∨ r = E →
  (length ctx + 1 < fuel)%nat →
  ∃ T', delete_helper fuel (Some n) (St s (plug ctx (T n c l k r)))
        = Ok (tt, St s T')
        ∧ wf T' ∧ keys T' = ctx_kl ctx ++ keys l ++ keys r ++ ctx_kr ctx
        ∧ color_of T' = black ∧ inv_red T' ∧ balanced T'.
Proof.
  rewrite inv_red_plug, balanced_plug, color_of_plug.
  intros Hwf [Hr Hcr] [Hb Hcb] Hroot Hone Hfuel.
  destruct (at_most_one_child c l r Hr Hb Hone)
    as [[-> ->]|[(m & km & -> & -> & ->)|(m & km & -> & -> & ->)]].
  - by apply delete_helper_leaf.
  - apply (delete_helper_one s ctx n k m km); try done; [by left|lia].
  - apply (delete_helper_one s ctx n k m km); try done; [by right|lia].
Qed.

(** ** Deleting a node with two children *)

Lemma ctx_kl_app c1 c2 : ctx_kl (c1 ++ c2) = ctx_kl c2 ++ ctx_kl c1.
Proof.
  induction c1 as [|[a c k r|a c l k] c1 IH]; cbn.
  - by rewrite app_nil_r.
  - done.
  - by rewrite IH, <- !app_assoc.
Qed.

Lemma ctx_kr_app c1 c2 : ctx_kr (c1 ++ c2) = ctx_kr c1 ++ ctx_kr c2.
Proof.
  induction c1 as [|[a c k r|a c l k] c1 IH]; cbn; [done| |done].
  by rewrite IH, <- !app_assoc.
Qed.

Lemma height_plug ctx t : (length ctx + height t ≤ height (plug ctx t))%nat.
Proof.
  revert t. induction ctx as [|f ctx IH]; intros t; cbn; [lia|].
  specialize (IH (fill f t)). destruct f; cbn in *; lia.
Qed.

(** The invariants on colors do not depend on the key in a node. *)
Lemma shape_put_key ctx a c l k k' r :
  inv_red (plug ctx (T a c l k r)) → balanced (plug ctx (T a c l k r)) →
  color_of (plug ctx (T a c l k r)) = black →
  inv_red (plug ctx (T a c l k' r)) ∧ balanced (plug ctx (T a c l k' r))
  ∧ color_of (plug ctx (T a c l k' r)) = black.
Proof. by rewrite !inv_red_plug, !balanced_plug, !color_of_plug. Qed.

(** The leftmost node of a tree, with its context in the tree. *)
Lemma min_spec s t :
  ∀ ctx fuel, t ≠ E → wf (plug ctx t) → (height t ≤ fuel)%nat →
  ∃ sp m cm km mr,
    t = plug sp (T m cm E km mr) ∧ ctx_kl sp = []
    ∧ (length sp < height t)%nat
    ∧ min fuel (ptr_of t) (St s (plug ctx t)) = Ok (Some m, St s (plug ctx t)).
Proof.
  induction t as [|a c l IHl k r _]; intros ctx fuel Hne Hwf Hfuel; [done|].
  destruct fuel as [|fuel]; [cbn in Hfuel; lia|]. cbn [min ptr_of].
  destruct l as [|b cb bl kb br].
  - exists [], a, c, k, r. repeat split; [cbn; lia|]. run Hwf. reflexivity.
  - destruct (IHl (FL a c k r :: ctx) fuel ltac:(done) Hwf
                ltac:(cbn in *; lia))
      as (sp & m & cm & km & mr & Heq & Hkl & Hlen & Hrun).
    exists (sp ++ [FL a c k r]), m, cm, km, mr.
    split; [by rewrite plug_app, <- Heq|].
    split; [by rewrite ctx_kl_app, Hkl|].
    split; [rewrite length_app; cbn in *; lia|].
    run Hwf. exact Hrun.
Qed.

Lemma lookup_tree_plug k t :
  inv_bst t → k ∈ keys t →
  ∃ ctx n c l r, t = plug ctx (T n c l k r) ∧ lookup_tree k t = T n c l k r.
Proof.
  induction t as [|a c l IHl k' r IHr]; cbn.
  { by intros _ ?%elem_of_nil. }
  intros (Hl & Hr & Hbl & Hbr) Hin.
  rewrite Forall_forall in Hl, Hr.
  destruct (Z.eqb_spec k k') as [->|Hne].
  { by exists [], a, c, l, r. }
  apply elem_of_app in Hin as [Hin|Hin%elem_of_cons].
  - pose proof (Hl _ Hin). destruct (Z.ltb_spec k k'); [|lia].
    destruct (IHl Hbl Hin) as (ctx & n & cn & nl & nr & -> & Hlk).
    exists (ctx ++ [FL a c k' r]), n, cn, nl, nr.
    by rewrite plug_app.
  - destruct Hin as [?|Hin]; [done|].
    pose proof (Hr _ Hin). destruct (Z.ltb_spec k k'); [lia|].
    destruct (IHr Hbr Hin) as (ctx & n & cn & nl & nr & -> & Hlk).
    exists (ctx ++ [FR a c l k']), n, cn, nl, nr.
    by rewrite plug_app.
Qed.

Lemma delete_helper_spec s ctx n c l k r fuel :
  wf (plug ctx (T n c l k r)) →
  inv_red (plug ctx (T n c l k r)) → balanced (plug ctx (T n c l k r)) →
  color_of (plug ctx (T n c l k r)) = black →
  (length ctx + height (T n c l k r) + 1 < fuel)%nat →
  ∃ T', delete_helper fuel (Some n) (St s (plug ctx (T n c l k r)))
        = Ok (tt, St s T')
        ∧ wf T' ∧ keys T' = ctx_kl ctx ++ keys l ++ keys r ++ ctx_kr ctx
        ∧ color_of T' = black ∧ inv_red T' ∧ balanced T'.
Proof.
  intros Hwf Hred Hbal Hroot Hfuel.
  destruct l as [|la lc ll lk lr];
    [apply delete_helper_simple; try done; [by left|cbn in Hfuel; lia]|].
  destruct r as [|ra rc rl rk rr];
    [apply delete_helper_simple; try done; [by right|cbn in Hfuel; lia]|].
  destruct fuel as [|fuel]; [lia|].
  destruct (min_spec s (T ra rc rl rk rr) (FR n c (T la lc ll lk lr) k :: ctx)
              fuel ltac:(done) Hwf ltac:(cbn in Hfuel |- *; lia))
    as (sp & m & cm & km & mr & HR & Hkl & Hlen & Hmin).
  cbn [plug fill ptr_of] in Hmin.
  (* the tree, seen from the node and seen from its successor *)
  assert (Hview : ∀ k1 k2,
            plug ctx (T n c (T la lc ll lk lr) k1 (plug sp (T m cm E k2 mr)))
            = plug (sp ++ FR n c (T la lc ll lk lr) k1 :: ctx) (T m cm E k2 mr)).
  { intros k1 k2. by rewrite plug_app. }
  pose proof (Hview k km) as Hview0. rewrite <- HR in Hview0.
  (* the tree after the keys are swapped *)
  pose proof Hwf as Hwf2. rewrite Hview0 in Hwf2.
  pose proof (wf_focus _ _ _ _ _ _ Hwf2 cm k) as Hwf3. rewrite <- Hview in Hwf3.
  pose proof (wf_focus _ _ _ _ _ _ Hwf3 c km) as Hwf4. rewrite Hview in Hwf4.
  assert (Hinv : inv_red (plug (sp ++ FR n c (T la lc ll lk lr) km :: ctx)
                            (T m cm E k mr))
                 ∧ balanced (plug (sp ++ FR n c (T la lc ll lk lr) km :: ctx)
                              (T m cm E k mr))
                 ∧ color_of (plug (sp ++ FR n c (T la lc ll lk lr) km :: ctx)
                              (T m cm E k mr)) = black).
  { rewrite Hview0 in Hred, Hbal, Hroot.
    destruct (shape_put_key _ _ _ _ _ k _ Hred Hbal Hroot) as (H1 & H2 & H3).
    rewrite <- Hview in H1, H2, H3.
    destruct (shape_put_key _ _ _ _ _ km _ H1 H2 H3) as (H4 & H5 & H6).
    by rewrite Hview in H4, H5, H6. }
  destruct Hinv as (Hred4 & Hbal4 & Hroot4).
  destruct (delete_helper_simple s _ m cm E k mr fuel Hwf4 Hred4 Hbal4 Hroot4
              ltac:(by left)
              ltac:(rewrite length_app; cbn in Hfuel, Hlen |- *; lia))
    as (T' & Hrun & HwfT & Hkeys & HcT & HrT & HbT).
  exists T'. split.
  2:{ repeat split; try done. rewrite Hkeys, ctx_kl_app, ctx_kr_app, Hkl, HR.
      rewrite keys_plug, Hkl. cbn. list_eq. }
  cbn [delete_helper]. wf_facts Hwf. xrun Hwf.
  rewrite (bind_Ok _ _ _ _ _ Hmin). xrun Hwf.
  rewrite Hview0. xstep Hwf2. rewrite <- Hview0.
  destruct cm; xrun Hwf.
  all: rewrite Hview0; xstep Hwf2; rewrite <- Hview0; xrun Hwf.
  all: rewrite Hview0; xstep Hwf2; rewrite <- Hview; xrun Hwf3.
  all: rewrite Hview; exact Hrun.
Qed.

Lemma sorted_remove (L1 L2 : list Z) k :
  StronglySorted Z.lt (L1 ++ k :: L2) → StronglySorted Z.lt (L1 ++ L2).
Proof.
  rewrite !StronglySorted_app, StronglySorted_cons.
  intros (H12 & H1 & _ & H2). split; [|done].
  intros x1 x2 Hx1 Hx2. apply H12; [done|]. by apply elem_of_cons; right.
Qed.

Lemma sorted_NoDup (L : list Z) : StronglySorted Z.lt L → NoDup L.
Proof.
  induction 1 as [|x L HL IH Hx]; [constructor|].
  apply NoDup_cons. split; [|done].
  intros Hin. rewrite Forall_forall in Hx. specialize (Hx _ Hin). lia.
Qed.

(** [delete_node] of a key of the tree, with fuel for a descent and one
    ascent. *)
Lemma delete_node_spec s t k fuel :
  wf t → rb_inv t → k ∈ keys t → (height t + 1 < fuel)%nat →
  ∃ T' L1 L2, delete_node fuel k (St s t) = Ok (tt, St s T')
              ∧ wf T' ∧ rb_inv T'
              ∧ keys t = L1 ++ k :: L2 ∧ keys T' = L1 ++ L2.
Proof.
  intros Hwf (Hroot & Hred & Hbh & Hbst) Hin Hfuel.
  destruct (lookup_tree_plug k t Hbst Hin) as (ctx & n & c & l & r & -> & Hlk).
  apply inv_bh_balanced in Hbh.
  pose proof (height_plug ctx (T n c l k r)) as Hh.
  destruct (delete_helper_spec s ctx n c l k r fuel Hwf Hred Hbh Hroot
              ltac:(lia))
    as (T' & Hrun & HwfT & Hkeys & HcT & HrT & HbT).
  exists T', (ctx_kl ctx ++ keys l), (keys r ++ ctx_kr ctx).
  assert (Hk : keys (plug ctx (T n c l k r))
               = (ctx_kl ctx ++ keys l) ++ k :: keys r ++ ctx_kr ctx).
  { rewrite keys_plug. cbn. list_eq. }
  split; [|split; [done|]; split; [|split; [done|rewrite Hkeys; list_eq]]].
  - unfold delete_node. rewrite (bind_Ok _ _ _ _ _ (get_root_St s _)).
    destruct (plug ctx (T n c l k r)) as [|a0 c0 l0 k0 r0] eqn:Hp;
      [by apply plug_not_E in Hp|].
    cbn [ptr_of is_null].
    rewrite (bind_Ok _ _ _ _ _ (search_tree_spec s k _ fuel Hwf ltac:(lia))).
    rewrite Hlk. exact Hrun.
  - repeat split; try done; [by apply inv_bh_balanced|].
    apply inv_bst_sorted. rewrite Hkeys.
    apply inv_bst_sorted in Hbst. rewrite Hk in Hbst.
    apply sorted_remove in Hbst. revert Hbst. by rewrite <- !app_assoc.
Qed.

(** ** In-order traversal *)

Lemma print_St o s t :
  print o (St s t) = Ok (tt, St (set_cout (cout s ++ [o]) s) t).
Proof. done. Qed.

Lemma in_order_helper_spec t :
  ∀ s ctx fuel, wf (plug ctx t) → (height t < fuel)%nat →
  in_order_helper fuel (ptr_of t) (St s (plug ctx t))
  = Ok (tt, St (set_cout (cout s ++ (OutKey <$> keys t)) s) (plug ctx t)).
Proof.
  induction t as [|a c l IHl k r IHr]; intros s ctx fuel Hwf Hfuel;
    (destruct fuel as [|fuel]; [cbn in Hfuel; lia|]).
  - cbn. unfold ret, St, set_cout. cbn. by rewrite app_nil_r.
  - cbn [in_order_helper ptr_of is_null]. cbn in Hfuel.
    run Hwf.
    use_step (IHl s (FL a c k r :: ctx) fuel Hwf ltac:(lia)).
    run Hwf. rewrite (bind_Ok _ _ _ _ _ (print_St _ _ _)).
    run Hwf.
    use_step (IHr (set_cout (cout (set_cout (cout s ++ (OutKey <$> keys l)) s)
                             ++ [OutKey k])
                     (set_cout (cout s ++ (OutKey <$> keys l)) s))
                (FR a c l k :: ctx) fuel Hwf ltac:(lia)).
    unfold St, set_cout. cbn. rewrite fmap_app, fmap_cons.
    by rewrite <- !app_assoc.
Qed.

Lemma in_order_spec s t fuel :
  wf t → (height t < fuel)%nat →
  in_order fuel (St s t)
  = Ok (tt, St (set_cout (cout s ++ (OutKey <$> keys t)) s) t).
Proof.
  intros Hwf Hfuel. unfold in_order.
  rewrite (bind_Ok _ _ _ _ _ (get_root_St s t)).
  by apply (in_order_helper_spec t s []).
Qed.

(** ** More fuel, same result *)

Lemma mono_refl {A} (m : M A) : mono m m.
Proof. by intros st r. Qed.

Lemma mono_bind {A B} (m m' : M A) (k k' : A → M B) :
  mono m m' → (∀ x, mono (k x) (k' x)) → mono (bind m k) (bind m' k').
Proof.
  intros Hm Hk st r. unfold bind.
  destruct (m st) as [[x st1]| |] eqn:H; [|done..].
  rewrite (Hm _ _ H). apply Hk.
Qed.

Lemma mono_if {A} (b : bool) (m1 m1' m2 m2' : M A) :
  mono m1 m1' → mono m2 m2' →
  mono (if b then m1 else m2) (if b then m1' else m2').
Proof. by destruct b. Qed.

Lemma mono_out_of_fuel {A} (m : M A) : mono out_of_fuel m.
Proof. by intros st r. Qed.

Ltac mono_step lemmas :=
  first [ apply mono_refl
        | lemmas
        | apply mono_bind; [|intros ?]
        | apply mono_if
        | progress unfold andM, orM ].
Ltac mono_solve lemmas := repeat (mono_step lemmas).

Lemma search_helper_mono fuel : ∀ n k,
  mono (search_helper fuel n k) (search_helper (S fuel) n k).
Proof.
  induction fuel as [|fuel IH]; intros n k; [apply mono_out_of_fuel|].
  cbn [search_helper]. mono_solve ltac:(apply IH).
Qed.

Lemma insert_helper_mono fuel : ∀ rt n,
  mono (insert_helper fuel rt n) (insert_helper (S fuel) rt n).
Proof.
  induction fuel as [|fuel IH]; intros rt n; [apply mono_out_of_fuel|].
  cbn [insert_helper]. mono_solve ltac:(apply IH).
Qed.

Lemma fix_insert_mono fuel : ∀ n,
  mono (fix_insert fuel n) (fix_insert (S fuel) n).
Proof.
  induction fuel as [|fuel IH]; intros n; [apply mono_out_of_fuel|].
  cbn [fix_insert]. mono_solve ltac:(apply IH).
Qed.

Lemma min_mono fuel : ∀ n, mono (min fuel n) (min (S fuel) n).
Proof.
  induction fuel as [|fuel IH]; intros n; [apply mono_out_of_fuel|].
  cbn [min]. mono_solve ltac:(apply IH).
Qed.

Lemma fix_double_black_mono fuel : ∀ n,
  mono (fix_double_black fuel n) (fix_double_black (S fuel) n).
Proof.
  induction fuel as [|fuel IH]; intros n; [apply mono_out_of_fuel|].
  cbn [fix_double_black]. mono_solve ltac:(apply IH).
Qed.

Lemma delete_helper_mono fuel : ∀ n,
  mono (delete_helper fuel n) (delete_helper (S fuel) n).
Proof.
  induction fuel as [|fuel IH]; intros n; [apply mono_out_of_fuel|].
  cbn [delete_helper]. unfold replace.
  mono_solve ltac:(first [apply IH | apply min_mono | apply fix_double_black_mono]).
Qed.

Lemma insert_node_mono fuel k :
  mono (insert_node fuel k) (insert_node (S fuel) k).
Proof.
  unfold insert_node, search_tree.
  mono_solve ltac:(first [apply search_helper_mono | apply insert_helper_mono
                         | apply fix_insert_mono]).
Qed.

Lemma delete_node_mono fuel k :
  mono (delete_node fuel k) (delete_node (S fuel) k).
Proof.
  unfold delete_node, search_tree.
  mono_solve ltac:(first [apply search_helper_mono | apply delete_helper_mono]).
Qed.

(** ** One operation *)

Lemma mono_le {A} (f : nat → M A) :
  (∀ fuel, mono (f fuel) (f (S fuel))) →
  ∀ fuel fuel', (fuel ≤ fuel')%nat → mono (f fuel) (f fuel').
Proof.
  intros Hf fuel fuel' Hle. induction Hle as [|fuel' Hle IH]; [apply mono_refl|].
  intros st r H. by apply Hf, IH.
Qed.

Lemma apply_op_mono o fuel fuel' :
  (fuel ≤ fuel')%nat → mono (apply_op fuel o) (apply_op fuel' o).
Proof.
  apply (mono_le (λ fuel, apply_op fuel o)). intros f.
  destruct o; [apply insert_node_mono|apply delete_node_mono].
Qed.

Lemma rb_inv_E : rb_inv E.
Proof. repeat split. by exists O. Qed.

Lemma rep_St_wf s t : wf t → rep (St s t) t.
Proof. by intros Hwf. Qed.

(** With fuel for the height of the tree and two more calls, an operation
    returns a tree that holds the invariants, and the keys it should. *)
Lemma apply_op_spec s t o fuel :
  wf t → rb_inv t → (height t + 1 < fuel)%nat →
  ∃ s' T', apply_op fuel o (St s t) = Ok (tt, St s' T')
           ∧ wf T' ∧ rb_inv T'
           ∧ ∀ x, x ∈ keys T' ↔ keys_after o (keys t) x.
Proof.
  intros Hwf Hinv Hfuel. pose proof Hinv as (_ & _ & _ & Hbst).
  destruct o as [k|k]; cbn [apply_op keys_after];
    destruct (decide (k ∈ keys t)) as [Hin|Hnin].
  - (* insert, key present *)
    exists s, t. split; [|split; [done|split; [done|]]].
    + apply lookup_tree_keys in Hin; [|done].
      unfold insert_node.
      rewrite !(bind_Ok _ _ _ _ _ (search_tree_spec s k t fuel Hwf ltac:(lia))).
      destruct (ptr_of (lookup_tree k t)); [done|congruence].
    + intros x. split; [tauto|]. by intros [->|?].
  - (* insert, new key *)
    destruct (insert_node_new s t k fuel Hwf Hinv Hnin ltac:(lia))
      as (T' & Hrun & HwfT & HinvT & Hkeys).
    exists s, T'. repeat split; try done; try apply HinvT.
    + rewrite Hkeys. by intros [->|?]%elem_of_cons; [left|right].
    + rewrite Hkeys. intros [->|?]; apply elem_of_cons; tauto.
  - (* delete, key present *)
    destruct (delete_node_spec s t k fuel Hwf Hinv Hin Hfuel)
      as (T' & L1 & L2 & Hrun & HwfT & HinvT & Hk & HkT).
    exists s, T'. split; [done|]. split; [done|]. split; [done|].
    apply inv_bst_sorted, sorted_NoDup in Hbst. rewrite Hk in Hbst.
    apply NoDup_app in Hbst as (_ & H12 & [Hk2 _]%NoDup_cons).
    intros x. rewrite Hk, HkT, !elem_of_app, elem_of_cons.
    split.
    + intros [H1|H2]; (split; [tauto|]); intros ->; [|done].
      apply (H12 _ H1). by left.
    + tauto.
  - (* delete, key absent *)
    assert (Hnone : ptr_of (lookup_tree k t) = None).
    { destruct (ptr_of (lookup_tree k t)) eqn:Hl; [|done].
      exfalso. apply Hnin, lookup_tree_keys; [done|]. by rewrite Hl. }
    unfold delete_node. rewrite (bind_Ok _ _ _ _ _ (get_root_St s t)).
    destruct t as [|a c l ka r].
    + exists s, E. split; [done|]. split; [done|]. split; [done|].
      intros x. cbn. split; [by intros ?%elem_of_nil|].
      by intros [?%elem_of_nil _].
    + cbn [ptr_of is_null].
      rewrite (bind_Ok _ _ _ _ _ (search_tree_spec s k _ fuel Hwf ltac:(lia))).
      rewrite Hnone. cbn [is_null].
      exists (set_cout (cout s ++ [OutNotFound k]) s), (T a c l ka r).
      split; [apply print_St|]. split; [done|]. split; [done|].
      intros x. split; [|tauto]. intros Hx. split; [done|]. by intros ->.
Qed.

(** Whatever the fuel, an operation that returns leaves a tree that holds
    the invariants. *)
Lemma apply_op_returns st t o fuel st' :
  rep st t → rb_inv t → apply_op fuel o st = Ok (tt, st') →
  ∃ T', rep st' T' ∧ rb_inv T' ∧ ∀ x, x ∈ keys T' ↔ keys_after o (keys t) x.
Proof.
  intros Hrep Hinv Hrun. pose proof Hrep as (_ & _ & Hwf).
  destruct (apply_op_spec st t o (fuel `max` (height t + 2)) Hwf Hinv
              ltac:(lia)) as (s' & T' & Hrun' & HwfT & HinvT & Hkeys).
  rewrite <- (rep_St st t Hrep) in Hrun'.
  apply (apply_op_mono o fuel (fuel `max` (height t + 2))) in Hrun; [|lia].
  rewrite Hrun in Hrun'. injection Hrun' as ->.
  exists T'. split; [by apply rep_St_wf|]. done.
Qed.

(** ** Sequences of operations *)

Lemma apply_op_total st t o :
  rep st t → rb_inv t →
  ∃ st' T', apply_op (height t + 2) o st = Ok (tt, st')
            ∧ rep st' T' ∧ rb_inv T'.
Proof.
  intros Hrep Hinv. pose proof Hrep as (_ & _ & Hwf).
  destruct (apply_op_spec st t o (height t + 2) Hwf Hinv ltac:(lia))
    as (s' & T' & Hrun & HwfT & HinvT & _).
  exists (St s' T'), T'. by rewrite (rep_St st t Hrep) at 1.
Qed.

Lemma steps_exist os : ∀ st, valid st → ∃ sts, steps st os sts.
Proof.
  induction os as [|o os IH]; intros st (t & Hrep & Hinv).
  - exists []. constructor.
  - destruct (apply_op_total st t o Hrep Hinv) as (st' & T' & Hrun & Hrep' & Hinv').
    destruct (IH st' ltac:(by exists T')) as [sts Hsts].
    exists (st' :: sts). by econstructor.
Qed.

Lemma steps_valid st os sts : valid st → steps st os sts → Forall valid sts.
Proof.
  intros Hv Hsteps. induction Hsteps as [|st o fuel st' os sts Hrun _ IH];
    [constructor|].
  destruct Hv as (t & Hrep & Hinv).
  destruct (apply_op_returns st t o fuel st' Hrep Hinv Hrun)
    as (T' & Hrep' & Hinv' & _).
  assert (valid st') by by exists T'.
  constructor; [done|]. by apply IH.
Qed.

Lemma steps_exec fuel os : ∀ st,
  length (exec fuel os st) = length os → steps st os (exec fuel os st).
Proof.
  induction os as [|o os IH]; intros st; cbn; [constructor|].
  destruct (apply_op fuel o st) as [[[] st']| |] eqn:Hrun; [|done..].
  cbn. intros [= Hlen]. econstructor; [done|]. by apply IH.
Qed.

(** The keys after inserting [ks]. *)
Lemma steps_inserts ks : ∀ st t sts,
  rep st t → rb_inv t → steps st (Insert <$> ks) sts →
  ∃ T', rep (default st (list.last sts)) T' ∧ rb_inv T'
        ∧ ∀ x, x ∈ keys T' ↔ x ∈ ks ∨ x ∈ keys t.
Proof.
  induction ks as [|k ks IH]; intros st t sts Hrep Hinv Hsteps;
    inversion Hsteps as [|st0 o fuel st' os sts' Hrun Hrest]; subst.
  - exists t. split; [done|]. split; [done|].
    intros x. rewrite elem_of_nil. tauto.
  - destruct (apply_op_returns st t _ fuel st' Hrep Hinv Hrun)
      as (T1 & Hrep1 & Hinv1 & Hk1).
    destruct (IH st' T1 sts' Hrep1 Hinv1 Hrest) as (T' & Hrep' & Hinv' & Hk').
    exists T'. split; [|split; [done|]].
    + rewrite last_cons. by destruct (list.last sts').
    + intros x. rewrite Hk', Hk1, elem_of_cons. cbn. tauto.
Qed.

(** The keys after each of the deletions [ds]. *)
Lemma steps_deletes ds : ∀ st t sts,
  rep st t → rb_inv t → steps st (Delete <$> ds) sts →
  ∀ i st', sts !! i = Some st' →
  ∃ T', rep st' T' ∧ rb_inv T'
        ∧ ∀ x, x ∈ keys T' ↔ x ∈ keys t ∧ x ∉ take (S i) ds.
Proof.
  induction ds as [|d ds IH]; intros st t sts Hrep Hinv Hsteps i sti Hi;
    inversion Hsteps as [|st0 o fuel st' os sts' Hrun Hrest]; subst; [done|].
  destruct (apply_op_returns st t _ fuel st' Hrep Hinv Hrun)
    as (T1 & Hrep1 & Hinv1 & Hk1).
  destruct i as [|i]; cbn in Hi.
  - injection Hi as <-. exists T1. split; [done|]. split; [done|].
    intros x. rewrite Hk1. cbn. rewrite take_0, not_elem_of_cons, elem_of_nil. tauto.
  - destruct (IH st' T1 sts' Hrep1 Hinv1 Hrest i sti Hi)
      as (T' & Hrep' & Hinv' & Hk').
    exists T'. split; [done|]. split; [done|].
    intros x. rewrite Hk', Hk1. cbn [keys_after].
    rewrite (firstn_cons (S i) d ds), not_elem_of_cons. tauto.
Qed.

Lemma in_order_rep st t fuel :
  rep st t → (height t < fuel)%nat →
  in_order fuel st
  = Ok (tt, set_cout (cout st ++ (OutKey <$> keys t)) st).
Proof.
  intros Hrep Hfuel. rewrite (rep_St st t Hrep) at 1.
  rewrite in_order_spec by (done || apply Hrep).
  destruct st, Hrep as (Hm & Hr & _). cbn in *. by subst.
Qed.

Lemma rep_new tmp : rep (RBTree_new tmp) E.
Proof. split; [reflexivity|]. split; [reflexivity|]. apply NoDup_nil_2. Qed.

Lemma ex_inv : rb_inv ex_tree.
Proof.
  split; [done|]. split; [by cbn|]. split; [by exists 1%nat|]. apply ex_bst.
Defined.

Lemma ex_valid : valid ex_state.
Proof. exists ex_tree. split; [apply ex_rep|apply ex_inv]. Defined.

(** C1: a completed [insert_node] or [delete_node] on an object that holds
    invariants 1-5 leaves an object that holds them, whatever the key;
    the operation does complete; and so every sequence of inserts and
    deletes runs to its end, with the invariants holding after each
    operation. *)
Theorem insert_delete_keep_invariants st :
  valid st →
  (∀ o, ∃ fuel st', apply_op fuel o st = Ok (tt, st'))
  ∧ (∀ o fuel st', apply_op fuel o st = Ok (tt, st') → valid st')
  ∧ (∀ os, ∃ sts, steps st os sts)
  ∧ (∀ os sts, steps st os sts → Forall valid sts).
Proof.
  intros Hv. split; [|split; [|split]].
  - intros o. destruct Hv as (t & Hrep & Hinv).
    destruct (apply_op_total st t o Hrep Hinv) as (st' & _ & Hrun & _).
    by exists (height t + 2)%nat, st'.
  - intros o fuel st' Hrun. destruct Hv as (t & Hrep & Hinv).
    destruct (apply_op_returns st t o fuel st' Hrep Hinv Hrun)
      as (T' & Hrep' & Hinv' & _).
    by exists T'.
  - intros os. by apply steps_exist.
  - intros os sts. by apply steps_valid.
Qed.

Lemma insert_delete_keep_invariants_witness :
  (∀ o, ∃ fuel st', apply_op fuel o ex_state = Ok (tt, st'))
  ∧ (∀ o fuel st', apply_op fuel o ex_state = Ok (tt, st') → valid st')
  ∧ (∀ os, ∃ sts, steps ex_state os sts)
  ∧ (∀ os sts, steps ex_state os sts → Forall valid sts).
Proof. apply (insert_delete_keep_invariants ex_state ex_valid). Defined.

(** C2: build a tree by inserting the keys [ks] into the empty tree, then
    delete the keys [ds] one after the other.  After each deletion the
    in-order traversal prints a strictly increasing list of keys, which
    holds exactly the keys inserted and not deleted so far. *)
Theorem deletes_keep_in_order tmp ks ds sts1 sts2 :
  steps (RBTree_new tmp) (Insert <$> ks) sts1 →
  steps (default (RBTree_new tmp) (list.last sts1)) (Delete <$> ds) sts2 →
  ∀ i st, sts2 !! i = Some st →
  ∃ L fuel,
    in_order fuel st = Ok (tt, set_cout (cout st ++ (OutKey <$> L)) st)
    ∧ StronglySorted Z.lt L
    ∧ ∀ x, x ∈ L ↔ x ∈ ks ∧ x ∉ take (S i) ds.
Proof.
  intros Hins Hdel i st Hi.
  destruct (steps_inserts ks (RBTree_new tmp) E sts1 (rep_new tmp) rb_inv_E Hins)
    as (T1 & Hrep1 & Hinv1 & Hk1).
  destruct (steps_deletes ds _ T1 sts2 Hrep1 Hinv1 Hdel i st Hi)
    as (T2 & Hrep2 & Hinv2 & Hk2).
  exists (keys T2), (S (height T2)).
  split; [by apply in_order_rep; [|lia]|].
  split; [apply inv_bst_sorted, Hinv2|].
  intros x. rewrite Hk2, Hk1. cbn. rewrite elem_of_nil. tauto.
Qed.

Lemma lookup_default {A} (l : list A) i x :
  (i < length l)%nat → l !! i = Some (default x (l !! i)).
Proof. intros [y ->]%lookup_lt_is_Some. done. Qed.

Lemma deletes_keep_in_order_witness :
  ∃ L fuel,
    in_order fuel ex_final
    = Ok (tt, set_cout (cout ex_final ++ (OutKey <$> L)) ex_final)
    ∧ StronglySorted Z.lt L
    ∧ ∀ x, x ∈ L ↔ x ∈ [10; 20; 30; 40] ∧ x ∉ take 2 [40; 20].
Proof.
  apply (deletes_keep_in_order [] [10; 20; 30; 40] [40; 20]
           ex_inserted ex_deleted).
  - apply steps_exec. vm_compute. reflexivity.
  - apply steps_exec. vm_compute. reflexivity.
  - apply lookup_default. vm_compute. lia.
Defined.

(** C7: [delete_node] of a key of a tree that holds invariants 1-5
    returns, and leaves a tree that holds them, when it may nest
    [height t + 2] calls: two of [delete_helper], the second on the
    successor, which has no left child, and the calls of
    [fix_double_black] up the path to the root. *)
Theorem delete_node_terminates st t k fuel :
  rep st t → rb_inv t → k ∈ keys t → (height t + 2 ≤ fuel)%nat →
  ∃ st', delete_node fuel k st = Ok (tt, st') ∧ valid st'.
Proof.
  intros Hrep Hinv Hin Hfuel.
  destruct (delete_node_spec st t k fuel (proj2 (proj2 Hrep)) Hinv Hin
              ltac:(lia))
    as (T' & _ & _ & Hrun & HwfT & HinvT & _).
  exists (St st T'). split; [by rewrite (rep_St st t Hrep) at 1|].
  by exists T'.
Qed.

Lemma delete_node_terminates_witness :
  ∃ st', delete_node 4 10 ex_state = Ok (tt, st') ∧ valid st'.
Proof.
  apply (delete_node_terminates ex_state ex_tree 10 4 ex_rep ex_inv).
  - cbn. rewrite !elem_of_cons. lia.
  - cbn. lia.
Defined.

(** The height of the tree does not bound the nesting: in the tree of
    three black nodes, of height 2, deleting the key of the root calls
    [delete_helper] on the root, [delete_helper] on its successor,
    [fix_double_black] on the successor and [fix_double_black] on the
    root. *)
Lemma delete_depth_exceeds_height :
  wf ex_black3 ∧ rb_inv ex_black3 ∧ 20 ∈ keys ex_black3
  ∧ height ex_black3 = 2%nat
  ∧ delete_node 2 20 (St (RBTree_new []) ex_black3) = OutOfFuel
  ∧ delete_node 3 20 (St (RBTree_new []) ex_black3) = OutOfFuel
  ∧ delete_helper 3 (Some 2%positive) (St (RBTree_new []) ex_black3)
    = OutOfFuel
  ∧ ∃ st', delete_node 4 20 (St (RBTree_new []) ex_black3) = Ok (tt, st').
Proof.
  split.
  { unfold wf. cbn. repeat (apply NoDup_cons_2; [set_solver|]).
    apply NoDup_nil_2. }
  split.
  { split; [done|]. split; [by cbn|]. split; [by exists 2%nat|].
    cbn. repeat split; repeat constructor. }
  split; [cbn; rewrite !elem_of_cons; lia|].
  split; [done|].
  split; [by vm_compute|]. split; [by vm_compute|]. split; [by vm_compute|].
  eexists. vm_compute. reflexivity.
Qed.

(** * Further properties of the code *)

(** ** Rotations *)

Lemma ex_wf : wf ex_tree.
Proof. apply ex_rep. Defined.

(** X1: [rotate_right] at a node [x] that has a left child [y], anywhere
    in a tree, makes [y] the parent of [x] and hands the right subtree of
    [y] to [x] as its left subtree.  No node is lost or shared, and the
    keys read in order are the same, so a binary search tree stays one. *)
Theorem rotate_right_keeps_order s ctx x cx y cy α ky β kx γ :
  wf (plug ctx (T x cx (T y cy α ky β) kx γ)) →
  ∃ t', rotate_right (Some x) (St s (plug ctx (T x cx (T y cy α ky β) kx γ)))
        = Ok (tt, St s t')
        ∧ t' = plug ctx (T y cy α ky (T x cx β kx γ))
        ∧ wf t'
        ∧ addrs t' ≡ₚ addrs (plug ctx (T x cx (T y cy α ky β) kx γ))
        ∧ keys t' = keys (plug ctx (T x cx (T y cy α ky β) kx γ))
        ∧ (inv_bst (plug ctx (T x cx (T y cy α ky β) kx γ)) → inv_bst t').
Proof.
  intros Hwf. eexists. split; [by apply rotate_right_focus|].
  split; [done|]. split; [by apply wf_rotate_right|].
  split; [rewrite !addrs_plug; cbn; perm|].
  assert (Hk : keys (plug ctx (T y cy α ky (T x cx β kx γ)))
               = keys (plug ctx (T x cx (T y cy α ky β) kx γ))).
  { rewrite !keys_plug. cbn. list_eq. }
  split; [done|]. rewrite !inv_bst_sorted. by rewrite Hk.
Qed.

Lemma rotate_right_keeps_order_witness :
  ∃ t', rotate_right (Some 1%positive) ex_state
        = Ok (tt, St (RBTree_new []) t')
        ∧ t' = T 2%positive red E 5
                 (T 1%positive black E 10 (T 3%positive red E 15 E))
        ∧ wf t' ∧ addrs t' ≡ₚ addrs ex_tree ∧ keys t' = keys ex_tree
        ∧ (inv_bst ex_tree → inv_bst t').
Proof.
  apply (rotate_right_keeps_order (RBTree_new []) [] 1%positive black
           2%positive red E 5 E 10 (T 3%positive red E 15 E) ex_wf).
Defined.

(** X2: [rotate_left] at a node [x] that has a right child [y] makes [y]
    the parent of [x] and hands the left subtree of [y] to [x] as its
    right subtree, with the same nodes and the same keys in order. *)
Theorem rotate_left_keeps_order s ctx x cx y cy α kx β ky γ :
  wf (plug ctx (T x cx α kx (T y cy β ky γ))) →
  ∃ t', rotate_left (Some x) (St s (plug ctx (T x cx α kx (T y cy β ky γ))))
        = Ok (tt, St s t')
        ∧ t' = plug ctx (T y cy (T x cx α kx β) ky γ)
        ∧ wf t'
        ∧ addrs t' ≡ₚ addrs (plug ctx (T x cx α kx (T y cy β ky γ)))
        ∧ keys t' = keys (plug ctx (T x cx α kx (T y cy β ky γ)))
        ∧ (inv_bst (plug ctx (T x cx α kx (T y cy β ky γ))) → inv_bst t').
Proof.
  intros Hwf. eexists. split; [by apply rotate_left_focus|].
  split; [done|]. split; [by apply wf_rotate_left|].
  split; [rewrite !addrs_plug; cbn; perm|].
  assert (Hk : keys (plug ctx (T y cy (T x cx α kx β) ky γ))
               = keys (plug ctx (T x cx α kx (T y cy β ky γ)))).
  { rewrite !keys_plug. cbn. list_eq. }
  split; [done|]. rewrite !inv_bst_sorted. by rewrite Hk.
Qed.

Lemma rotate_left_keeps_order_witness :
  ∃ t', rotate_left (Some 1%positive) ex_state
        = Ok (tt, St (RBTree_new []) t')
        ∧ t' = T 3%positive red
                 (T 1%positive black (T 2%positive red E 5 E) 10 E) 15 E
        ∧ wf t' ∧ addrs t' ≡ₚ addrs ex_tree ∧ keys t' = keys ex_tree
        ∧ (inv_bst ex_tree → inv_bst t').
Proof.
  apply (rotate_left_keeps_order (RBTree_new []) [] 1%positive black
           3%positive red (T 2%positive red E 5 E) 10 E 15 E ex_wf).
Defined.

(** X3: the rotations undo each other: [rotate_right] at [x], which lifts
    its left child [y], followed by [rotate_left] at [y] leaves the whole
    object as it was, and so does [rotate_left] at [x] followed by
    [rotate_right] at the lifted right child. *)
Theorem rotations_cancel s ctx x cx y cy α β γ k1 k2 :
  (wf (plug ctx (T x cx (T y cy α k1 β) k2 γ)) →
   (rotate_right (Some x) ;;; rotate_left (Some y))
     (St s (plug ctx (T x cx (T y cy α k1 β) k2 γ)))
   = Ok (tt, St s (plug ctx (T x cx (T y cy α k1 β) k2 γ))))
  ∧ (wf (plug ctx (T x cx α k1 (T y cy β k2 γ))) →
     (rotate_left (Some x) ;;; rotate_right (Some y))
       (St s (plug ctx (T x cx α k1 (T y cy β k2 γ))))
     = Ok (tt, St s (plug ctx (T x cx α k1 (T y cy β k2 γ))))).
Proof.
  split; intros Hwf.
  - rewrite (bind_Ok _ _ _ _ _ (rotate_right_focus s ctx x cx y cy α k1 β k2 γ Hwf)).
    apply rotate_left_focus. by apply wf_rotate_right.
  - rewrite (bind_Ok _ _ _ _ _ (rotate_left_focus s ctx x cx y cy α k1 β k2 γ Hwf)).
    apply rotate_right_focus. by apply wf_rotate_left.
Qed.

Lemma rotations_cancel_witness :
  (rotate_right (Some 1%positive) ;;; rotate_left (Some 2%positive)) ex_state
  = Ok (tt, ex_state)
  ∧ (rotate_left (Some 1%positive) ;;; rotate_right (Some 3%positive)) ex_state
    = Ok (tt, ex_state).
Proof.
  split.
  - apply (proj1 (rotations_cancel (RBTree_new []) [] 1%positive black
                    2%positive red E E (T 3%positive red E 15 E) 5 10)), ex_wf.
  - apply (proj2 (rotations_cancel (RBTree_new []) [] 1%positive black
                    3%positive red (T 2%positive red E 5 E) E E 10 15)), ex_wf.
Defined.

(** X4: a rotation needs the child it lifts.  [rotate_right] at a node
    without a left child, and [rotate_left] at a node without a right
    child, read through the null pointer. *)
Theorem rotate_without_child_faults s ctx x cx kx γ :
  (wf (plug ctx (T x cx E kx γ)) →
   rotate_right (Some x) (St s (plug ctx (T x cx E kx γ))) = Fault)
  ∧ (wf (plug ctx (T x cx γ kx E)) →
     rotate_left (Some x) (St s (plug ctx (T x cx γ kx E))) = Fault).
Proof.
  split; intros Hwf.
  - unfold rotate_right.
    by rewrite (bind_Ok _ _ _ _ _ (get_left_focus s ctx x cx E kx γ Hwf)).
  - unfold rotate_left.
    by rewrite (bind_Ok _ _ _ _ _ (get_right_focus s ctx x cx γ kx E Hwf)).
Qed.

Lemma rotate_without_child_faults_witness :
  rotate_right (Some 2%positive) ex_state = Fault
  ∧ rotate_left (Some 2%positive) ex_state = Fault.
Proof.
  split.
  - apply (proj1 (rotate_without_child_faults (RBTree_new [])
                    [FL 1%positive black 10 (T 3%positive red E 15 E)]
                    2%positive red 5 E)), ex_wf.
  - apply (proj2 (rotate_without_child_faults (RBTree_new [])
                    [FL 1%positive black 10 (T 3%positive red E 15 E)]
                    2%positive red 5 E)), ex_wf.
Defined.

(** ** Search after an operation *)

Lemma search_tree_mono k fuel fuel' :
  (fuel ≤ fuel')%nat → mono (search_tree fuel k) (search_tree fuel' k).
Proof.
  apply (mono_le (λ fuel, search_tree fuel k)). intros f.
  unfold search_tree. apply mono_bind; [apply mono_refl|intros r].
  apply search_helper_mono.
Qed.

Lemma found_iff st t x : rep st t → inv_bst t → (found st x ↔ x ∈ keys t).
Proof.
  intros Hrep Hbst. pose proof Hrep as (_ & _ & Hwf). split.
  - intros (fuel & n & Hs & _).
    apply (search_tree_mono x fuel (fuel `max` S (height t))) in Hs; [|lia].
    rewrite (rep_St st t Hrep) in Hs.
    rewrite search_tree_spec in Hs by (done || lia).
    injection Hs as Hs. apply lookup_tree_keys; [done|]. by rewrite Hs.
  - intros Hin.
    destruct (lookup_tree_plug x t Hbst Hin) as (ctx & n & c & l & r & -> & Hlk).
    exists (S (height (plug ctx (T n c l x r)))), n.
    rewrite (rep_St st _ Hrep). split.
    + rewrite search_tree_spec by (done || lia). by rewrite Hlk.
    + by apply get_key_focus.
Qed.

(** X5: searching after an operation.  After a completed
    [insert_node(k)] on an object that holds the invariants, [search_tree]
    finds [k], and every other key exactly if it was found before; after
    a completed [delete_node(k)] it does not find [k], and finds every
    other key exactly if it was found before. *)
Theorem search_after_op st o fuel st' :
  valid st → apply_op fuel o st = Ok (tt, st') →
  ∀ x, found st' x ↔ match o with
                     | Insert k => x = k ∨ found st x
                     | Delete k => found st x ∧ x ≠ k
                     end.
Proof.
  intros (t & Hrep & Hinv) Hrun x.
  destruct (apply_op_returns st t o fuel st' Hrep Hinv Hrun)
    as (T' & Hrep' & Hinv' & Hkeys).
  rewrite (found_iff st' T' x Hrep') by apply Hinv'.
  rewrite Hkeys. destruct o; cbn;
    by rewrite (found_iff st t x Hrep) by apply Hinv.
Qed.

Lemma search_after_op_witness :
  (found ex_after_insert 7 ↔ 7 = 7 ∨ found ex_state 7)
  ∧ (found ex_after_insert 15 ↔ 15 = 7 ∨ found ex_state 15).
Proof.
  assert (Hrun : apply_op 5 (Insert 7) ex_state = Ok (tt, ex_after_insert))
    by (vm_compute; reflexivity).
  split.
  - apply (search_after_op ex_state (Insert 7) 5 ex_after_insert ex_valid Hrun 7).
  - apply (search_after_op ex_state (Insert 7) 5 ex_after_insert ex_valid Hrun 15).
Defined.

(** ** The heap holds the tree and nothing else *)

Lemma length_cells par t : length (cells par t) = length (keys t).
Proof.
  revert par. induction t as [|a c l IHl k r IHr]; intros par; [done|].
  cbn. rewrite !length_app, IHl, IHr. cbn. lia.
Qed.

Lemma size_heap st t : rep st t → size (mem st) = length (keys t).
Proof.
  intros (-> & _ & Hwf). unfold heap_of.
  rewrite map_size_list_to_map by by rewrite fst_cells.
  apply length_cells.
Qed.

(** X6: there is one node in the heap for every key of the tree, and no
    other.  [insert_node] of a key that is not found allocates one node,
    [delete_node] of a key that is found frees one, and an operation on
    any other key leaves the number of nodes as it is. *)
Theorem heap_one_node_per_key st o fuel st' :
  valid st → apply_op fuel o st = Ok (tt, st') →
  (∃ t', rep st' t' ∧ size (mem st') = length (keys t'))
  ∧ match o with
    | Insert k =>
      (found st k → size (mem st') = size (mem st))
      ∧ (¬ found st k → size (mem st') = S (size (mem st)))
    | Delete k =>
      (found st k → S (size (mem st')) = size (mem st))
      ∧ (¬ found st k → size (mem st') = size (mem st))
    end.
Proof.
  intros (t & Hrep & Hinv) Hrun.
  destruct (apply_op_returns st t o fuel st' Hrep Hinv Hrun)
    as (T' & Hrep' & Hinv' & Hkeys).
  split; [exists T'; split; [done|by apply size_heap]|].
  rewrite (size_heap st t Hrep), (size_heap st' T' Hrep').
  assert (Hnd : NoDup (keys t))
    by (apply sorted_NoDup, inv_bst_sorted, Hinv).
  assert (Hnd' : NoDup (keys T'))
    by (apply sorted_NoDup, inv_bst_sorted, Hinv').
  destruct o as [k|k]; cbn in Hkeys;
    rewrite (found_iff st t k Hrep) by apply Hinv; split; intros Hk.
  - apply Permutation_length, NoDup_Permutation; try done.
    intros x. rewrite Hkeys. split; [by intros [->|?]|tauto].
  - change (length (keys T') = length (k :: keys t)).
    apply Permutation_length, NoDup_Permutation; try done.
    + by apply NoDup_cons_2.
    + intros x. rewrite Hkeys, elem_of_cons. tauto.
  - change (length (k :: keys T') = length (keys t)).
    apply Permutation_length, NoDup_Permutation; try done.
    + apply NoDup_cons_2; [|done]. rewrite Hkeys. tauto.
    + intros x. rewrite elem_of_cons, Hkeys.
      destruct (decide (x = k)) as [->|]; tauto.
  - apply Permutation_length, NoDup_Permutation; try done.
    intros x. rewrite Hkeys. split; [tauto|]. intros Hx. split; [done|].
    by intros ->.
Qed.

Lemma heap_one_node_per_key_witness :
  (∃ t', rep ex_after_insert t'
         ∧ size (mem ex_after_insert) = length (keys t'))
  ∧ (found ex_state 7 → size (mem ex_after_insert) = size (mem ex_state))
  ∧ (¬ found ex_state 7
     → size (mem ex_after_insert) = S (size (mem ex_state))).
Proof.
  apply (heap_one_node_per_key ex_state (Insert 7) 5 ex_after_insert ex_valid).
  vm_compute. reflexivity.
Defined.

(** ** The height of the tree *)

Lemma height_le_bhf t :
  inv_red t → balanced t →
  (height t ≤ 2 * bhf t + if color_of t then 0 else 1)%nat.
Proof.
  induction t as [|a c l IHl k r IHr]; cbn; [lia|].
  intros (Hc & Hrl & Hrr) (Hh & Hbl & Hbr).
  specialize (IHl Hrl Hbl). specialize (IHr Hrr Hbr).
  destruct c.
  - destruct (color_of l), (color_of r); lia.
  - destruct Hc as [Hcl Hcr]. rewrite Hcl in IHl. rewrite Hcr in IHr. lia.
Qed.

Lemma pow_bhf_le_size t :
  balanced t → (2 ^ bhf t ≤ length (keys t) + 1)%nat.
Proof.
  induction t as [|a c l IHl k r IHr]; cbn; [lia|].
  intros (Hh & Hbl & Hbr). specialize (IHl Hbl). specialize (IHr Hbr).
  rewrite length_app. cbn [length]. rewrite <- Hh in IHr.
  destruct c.
  - rewrite Nat.add_1_r, Nat.pow_succ_r'. lia.
  - rewrite Nat.add_0_r. lia.
Qed.

Lemma height_log t :
  rb_inv t → (height t ≤ 2 * Nat.log2 (length (keys t) + 1))%nat.
Proof.
  intros (Hroot & Hred & Hbh%inv_bh_balanced & _).
  pose proof (height_le_bhf t Hred Hbh) as Hh.
  unfold inv_root in Hroot. rewrite Hroot in Hh.
  pose proof (pow_bhf_le_size t Hbh) as Hp.
  apply Nat.log2_le_pow2 in Hp; lia.
Qed.

(** X7: an object that holds the invariants and has [n] nodes in its heap
    holds a tree of height at most [2 * log2 (n + 1)]: [search_tree]
    returns after visiting at most [2 * log2 (n + 1) + 1] nodes, and every
    insert or delete returns within a nesting of [2 * log2 (n + 1) + 2]
    calls. *)
Theorem height_logarithmic st t :
  rep st t → rb_inv t →
  (height t ≤ 2 * Nat.log2 (size (mem st) + 1))%nat
  ∧ (∀ k, ∃ r, search_tree (2 * Nat.log2 (size (mem st) + 1) + 1) k st
               = Ok (r, st))
  ∧ (∀ o, ∃ st', apply_op (2 * Nat.log2 (size (mem st) + 1) + 2) o st
                 = Ok (tt, st')).
Proof.
  intros Hrep Hinv. pose proof Hrep as (_ & _ & Hwf).
  rewrite (size_heap st t Hrep). pose proof (height_log t Hinv) as Hh.
  split; [done|]. split.
  - intros k. exists (ptr_of (lookup_tree k t)).
    rewrite (rep_St st t Hrep) at 1 2.
    apply search_tree_spec; [done|lia].
  - intros o.
    destruct (apply_op_spec st t o (2 * Nat.log2 (length (keys t) + 1) + 2)
                Hwf Hinv ltac:(lia)) as (s' & T' & Hrun & _).
    exists (St s' T'). by rewrite (rep_St st t Hrep) at 1.
Qed.

Lemma height_logarithmic_witness :
  (height ex_tree ≤ 2 * Nat.log2 (size (mem ex_state) + 1))%nat
  ∧ (∀ k, ∃ r, search_tree (2 * Nat.log2 (size (mem ex_state) + 1) + 1) k
                 ex_state = Ok (r, ex_state))
  ∧ (∀ o, ∃ st', apply_op (2 * Nat.log2 (size (mem ex_state) + 1) + 2) o
                   ex_state = Ok (tt, st')).
Proof. apply (height_logarithmic ex_state ex_tree ex_rep ex_inv). Defined.

(** ** The helpers of [delete_helper] *)

Lemma head_least (k : Z) L :
  StronglySorted Z.lt (k :: L) → ∀ x, x ∈ k :: L → k ≤ x.
Proof.
  intros [Hall _]%StronglySorted_cons x [->|Hx]%elem_of_cons; [lia|].
  rewrite Forall_forall in Hall. specialize (Hall _ Hx). lia.
Qed.

Lemma min_keys sp m cm km mr :
  ctx_kl sp = [] →
  keys (plug sp (T m cm E km mr)) = km :: keys mr ++ ctx_kr sp.
Proof. intros Hkl. by rewrite keys_plug, Hkl. Qed.

(** X8: on a non-empty binary search tree [min] returns, after at most
    as many steps as the tree is high, the node with the least key; that
    node has no left child, and nothing is written. *)
Theorem min_returns_least s ctx t fuel :
  t ≠ E → wf (plug ctx t) → inv_bst t → (height t ≤ fuel)%nat →
  ∃ m km,
    min fuel (ptr_of t) (St s (plug ctx t)) = Ok (Some m, St s (plug ctx t))
    ∧ get_key (Some m) (St s (plug ctx t)) = Ok (km, St s (plug ctx t))
    ∧ get_left (Some m) (St s (plug ctx t)) = Ok (None, St s (plug ctx t))
    ∧ km ∈ keys t ∧ ∀ x, x ∈ keys t → km ≤ x.
Proof.
  intros Hne Hwf Hbst Hfuel.
  destruct (min_spec s t ctx fuel Hne Hwf Hfuel)
    as (sp & m & cm & km & mr & Heq & Hkl & _ & Hrun).
  exists m, km. split; [done|].
  apply inv_bst_sorted in Hbst.
  rewrite Heq in Hbst, Hwf |- *. rewrite (min_keys sp m cm km mr Hkl) in *.
  rewrite <- plug_app in Hwf |- *.
  split; [by apply get_key_focus|]. split; [by apply get_left_focus|].
  split; [by left|]. by apply head_least.
Qed.

Lemma min_returns_least_witness :
  ∃ m km,
    min 2 (ptr_of ex_tree) ex_state = Ok (Some m, ex_state)
    ∧ get_key (Some m) ex_state = Ok (km, ex_state)
    ∧ get_left (Some m) ex_state = Ok (None, ex_state)
    ∧ km ∈ keys ex_tree ∧ ∀ x, x ∈ keys ex_tree → km ≤ x.
Proof.
  apply (min_returns_least (RBTree_new []) [] ex_tree 2 ltac:(done) ex_wf
           ex_bst).
  cbn. lia.
Defined.

(** X9: [replace] picks the node that takes the place of a deleted node:
    nothing for a leaf, the only child for a node with one child, and for
    a node with two children the node with the least key of the right
    subtree, which has no left child.  Nothing is written. *)
Theorem replace_picks_successor s ctx n c l k r fuel :
  wf (plug ctx (T n c l k r)) → inv_bst r → (height r ≤ fuel)%nat →
  ∃ res,
    replace fuel (Some n) (St s (plug ctx (T n c l k r)))
    = Ok (res, St s (plug ctx (T n c l k r)))
    ∧ match l, r with
      | E, E => res = None
      | T _ _ _ _ _, E => res = ptr_of l
      | E, T _ _ _ _ _ => res = ptr_of r
      | T _ _ _ _ _, T _ _ _ _ _ =>
        ∃ m km,
          res = Some m
          ∧ get_key (Some m) (St s (plug ctx (T n c l k r)))
            = Ok (km, St s (plug ctx (T n c l k r)))
          ∧ get_left (Some m) (St s (plug ctx (T n c l k r)))
            = Ok (None, St s (plug ctx (T n c l k r)))
          ∧ km ∈ keys r ∧ ∀ x, x ∈ keys r → km ≤ x
      end.
Proof.
  intros Hwf Hbst Hfuel. unfold replace.
  destruct l as [|la lc ll lk lr], r as [|ra rc rl rk rr].
  - exists None. split; [run Hwf; reflexivity|done].
  - eexists. split; [run Hwf; reflexivity|done].
  - eexists. split; [run Hwf; reflexivity|done].
  - destruct (min_returns_least s (FR n c (T la lc ll lk lr) k :: ctx)
                (T ra rc rl rk rr) fuel ltac:(done) Hwf Hbst Hfuel)
      as (m & km & Hrun & Hrest).
    exists (Some m). split; [run Hwf; exact Hrun|]. by exists m, km.
Qed.

Lemma replace_picks_successor_witness :
  ∃ res,
    replace 1 (Some 1%positive) ex_state = Ok (res, ex_state)
    ∧ ∃ m km,
        res = Some m
        ∧ get_key (Some m) ex_state = Ok (km, ex_state)
        ∧ get_left (Some m) ex_state = Ok (None, ex_state)
        ∧ km ∈ [15] ∧ ∀ x, x ∈ [15] → km ≤ x.
Proof.
  apply (replace_picks_successor (RBTree_new []) [] 1%positive black
           (T 2%positive red E 5 E) 10 (T 3%positive red E 15 E) 1 ex_wf).
  - cbn. repeat split; constructor.
  - cbn. lia.
Defined.

(** X10: [sibling] returns the other child of the parent, and NULL for
    the root, which has no parent.  [is_on_left] tells whether the node
    is the left child of its parent; called on the root it reads through
    the null parent pointer. *)
Theorem sibling_and_side s ctx n c l k r :
  wf (plug ctx (T n c l k r)) →
  sibling (Some n) (St s (plug ctx (T n c l k r)))
  = Ok (match ctx with [] => None | f :: _ => ptr_of (fsib f) end,
        St s (plug ctx (T n c l k r)))
  ∧ is_on_left (Some n) (St s (plug ctx (T n c l k r)))
    = match ctx with
      | [] => Fault
      | FL _ _ _ _ :: _ => Ok (true, St s (plug ctx (T n c l k r)))
      | FR _ _ _ _ :: _ => Ok (false, St s (plug ctx (T n c l k r)))
      end.
Proof.
  intros Hwf. unfold sibling, is_on_left.
  destruct ctx as [|[p cp kp sb|p cp sb kp] ctx]; cbn [plug fill] in *.
  - split; run Hwf; reflexivity.
  - wf_facts Hwf. split; run Hwf; reflexivity.
  - wf_facts Hwf. split; run Hwf; reflexivity.
Qed.

Lemma sibling_and_side_witness :
  sibling (Some 2%positive) ex_state = Ok (Some 3%positive, ex_state)
  ∧ is_on_left (Some 2%positive) ex_state = Ok (true, ex_state).
Proof.
  apply (sibling_and_side (RBTree_new [])
           [FL 1%positive black 10 (T 3%positive red E 15 E)]
           2%positive red E 5 E ex_wf).
Defined.

(** ** Linking a new leaf *)

(** X11: [insert_helper], given the new node [n] with key [k] and a
    non-empty binary search tree without [k], returns the root it was
    given and links [n] as a red leaf in an empty place: every other node
    stays where it was, and the tree is still a binary search tree. *)
Theorem insert_helper_links_leaf s t n k fuel :
  t ≠ E → wf t → n ∉ addrs t → inv_bst t → k ∉ keys t →
  (height t < fuel)%nat →
  ∃ ctx,
    t = plug ctx E
    ∧ insert_helper fuel (ptr_of t) (Some n) (Detached s t n k)
      = Ok (ptr_of t, St s (plug ctx (T n red E k E)))
    ∧ wf (plug ctx (T n red E k E))
    ∧ inv_bst (plug ctx (T n red E k E))
    ∧ keys t = ctx_kl ctx ++ ctx_kr ctx
    ∧ keys (plug ctx (T n red E k E)) = ctx_kl ctx ++ k :: ctx_kr ctx.
Proof.
  intros Hne Hwf Hn Hbst Hk Hfuel.
  destruct (ins_plug n k t Hk) as (ctx & Ht & Hins & _).
  exists ctx. split; [done|]. rewrite <- Hins.
  split; [by apply (insert_helper_spec s n k t fuel [])|].
  split; [unfold wf; rewrite addrs_ins by done; by apply NoDup_cons_2|].
  split; [by apply inv_bst_ins|].
  rewrite Hins, Ht at 1. by rewrite !keys_plug.
Qed.

Lemma insert_helper_links_leaf_witness :
  ∃ ctx,
    ex_tree = plug ctx E
    ∧ insert_helper 3 (ptr_of ex_tree) (Some 4%positive)
        (Detached (RBTree_new []) ex_tree 4%positive 7)
      = Ok (ptr_of ex_tree,
            St (RBTree_new []) (plug ctx (T 4%positive red E 7 E)))
    ∧ wf (plug ctx (T 4%positive red E 7 E))
    ∧ inv_bst (plug ctx (T 4%positive red E 7 E))
    ∧ keys ex_tree = ctx_kl ctx ++ ctx_kr ctx
    ∧ keys (plug ctx (T 4%positive red E 7 E)) = ctx_kl ctx ++ 7 :: ctx_kr ctx.
Proof.
  apply (insert_helper_links_leaf (RBTree_new []) ex_tree 4%positive 7 3
           ltac:(done) ex_wf).
  - cbn. rewrite !elem_of_cons, elem_of_nil. intros [?|[?|[?|?]]]; done.
  - exact ex_bst.
  - cbn. rewrite !elem_of_cons, elem_of_nil. lia.
  - cbn. lia.
Defined.

(** ** Bulk loading *)










Lemma ptr_of_bins n e t : t ≠ E → ptr_of (bins n e t) = ptr_of t.
Proof. destruct t; [done|]. cbn. by destruct (_ >? _). Qed.






Lemma put_root_DetachedC_empty s n k c :
  put_root (Some n) (DetachedC s E n k c) = Ok (tt, St s (T n c E k E)).
Proof. done. Qed.


(** *** What the loaded tree holds *)











(** *** Loading a serialized tree gives the tree back *)







Lemma height_skel t : ∀ t', skel t = skel t' → height t = height t'.
Proof.
  induction t as [|a c l IHl k r IHr]; intros [|a' c' l' k' r']; try done.
  cbn. intros [= -> Hl -> Hr]. by rewrite (IHl l' Hl), (IHr r' Hr).
Qed.







(** ** The monitor: what every interleaving keeps *)

Lemma remove_tid_perm t l :
  NoDup l → t ∈ l → l ≡ₚ t :: Monitor.remove_tid t l.
Proof.
  unfold Monitor.remove_tid. induction 1 as [|x l Hx Hnd IH].
  { by intros ?%elem_of_nil. }
  rewrite filter_cons. intros [->|Hin]%elem_of_cons.
  - rewrite decide_False by naive_solver.
    replace (filter (λ y, y ≠ x) l) with l; [done|].
    clear IH Hnd. induction l as [|y l IH]; [done|].
    rewrite filter_cons. apply not_elem_of_cons in Hx as [Hne Hx].
    rewrite decide_True by done. f_equal. by apply IH.
  - rewrite decide_True by (intros ->; done).
    rewrite (IH Hin) at 1. perm.
Qed.

Lemma idle_spec t m :
  Monitor.idle t m = true ↔ t ∉ monitor_threads m.
Proof. unfold Monitor.idle. by rewrite bool_decide_eq_true. Qed.

Lemma threads_NoDup m :
  NoDup (monitor_threads m) →
  NoDup (Monitor.woken_read m) ∧ NoDup (Monitor.woken_write m)
  ∧ NoDup (Monitor.reading m) ∧ NoDup (Monitor.writing m).
Proof. unfold monitor_threads. rewrite !NoDup_app. tauto. Qed.

Ltac mon_perm Hnd :=
  unfold monitor_threads in *; cbn in *;
  first [ done
        | eapply NoDup_Permutation_proper; [|exact Hnd]; perm ].

Lemma step_counters m e m' :
  counters_agree m → Monitor.step m e = Some m' → counters_agree m'.
Proof.
  intros (Hnd & Hr & Hrw & Hww & Hw) Hstep.
  destruct e as [t|t|t|t|t|t]; cbn in Hstep.
  - (* begin_read *)
    destruct (Monitor.idle t m) eqn:Hidle; [|done].
    apply idle_spec in Hidle. injection Hstep as <-.
    unfold Monitor.begin_read.
    destruct (_ || _).
    + split; [|cbn; rewrite ?length_app; cbn; lia].
      unfold monitor_threads in *. cbn.
      apply (NoDup_Permutation_proper _ (t :: monitor_threads m));
        [unfold monitor_threads; perm|by apply NoDup_cons_2].
    + split; [|cbn; rewrite ?length_app; cbn; lia].
      unfold monitor_threads in *. cbn.
      apply (NoDup_Permutation_proper _ (t :: monitor_threads m));
        [unfold monitor_threads; perm|by apply NoDup_cons_2].
  - (* the wait in begin_read returns *)
    case_bool_decide as Hin; [|done]. injection Hstep as <-.
    assert (Hwr : NoDup (Monitor.woken_read m)) by by apply threads_NoDup.
    pose proof (remove_tid_perm t _ Hwr Hin) as Hp.
    pose proof (Permutation_length Hp) as Hl. cbn in Hl.
    split; [|cbn; rewrite ?length_app; cbn; lia].
    unfold monitor_threads in *. cbn.
    eapply NoDup_Permutation_proper; [|exact Hnd]. rewrite Hp at 2. perm.
  - (* end_read *)
    case_bool_decide as Hin; [|done]. injection Hstep as <-.
    assert (Hrd : NoDup (Monitor.reading m)) by by apply threads_NoDup.
    pose proof (remove_tid_perm t _ Hrd Hin) as Hp.
    pose proof (Permutation_length Hp) as Hl. cbn in Hl.
    unfold Monitor.end_read. cbn zeta.
    destruct (Z.eqb_spec (Monitor.num_readers m) 0) as [H0|_]; [lia|].
    split; [|cbn; lia].
    unfold monitor_threads in *. cbn.
    apply (NoDup_cons_1_2 t). eapply NoDup_Permutation_proper; [|exact Hnd].
    rewrite Hp at 2. perm.
  - (* begin_write *)
    destruct (Monitor.idle t m) eqn:Hidle; [|done].
    apply idle_spec in Hidle. injection Hstep as <-.
    unfold Monitor.begin_write.
    destruct (_ || _).
    + split; [|cbn; rewrite ?length_app; cbn; lia].
      unfold monitor_threads in *. cbn.
      apply (NoDup_Permutation_proper _ (t :: monitor_threads m));
        [unfold monitor_threads; perm|by apply NoDup_cons_2].
    + split; [|cbn; rewrite ?length_app; cbn; lia].
      unfold monitor_threads in *. cbn.
      apply (NoDup_Permutation_proper _ (t :: monitor_threads m));
        [unfold monitor_threads; perm|by apply NoDup_cons_2].
  - (* the wait in begin_write returns *)
    case_bool_decide as Hin; [|done]. injection Hstep as <-.
    assert (Hwr : NoDup (Monitor.woken_write m)) by by apply threads_NoDup.
    pose proof (remove_tid_perm t _ Hwr Hin) as Hp.
    pose proof (Permutation_length Hp) as Hl. cbn in Hl.
    split; [|cbn; rewrite ?length_app; cbn; lia].
    unfold monitor_threads in *. cbn.
    eapply NoDup_Permutation_proper; [|exact Hnd]. rewrite Hp at 2. perm.
  - (* end_write *)
    case_bool_decide as Hin; [|done]. injection Hstep as <-.
    assert (Hwr : NoDup (Monitor.writing m)) by by apply threads_NoDup.
    pose proof (remove_tid_perm t _ Hwr Hin) as Hp.
    pose proof (Permutation_length Hp) as Hl. cbn in Hl.
    unfold Monitor.end_write, Monitor.signal_read, Monitor.signal_write.
    cbn. unfold monitor_threads in Hnd.
    destruct (_ >? 0);
      [destruct (Monitor.can_read m) as [|t0 rest] eqn:Hcr
      |destruct (Monitor.can_write m) as [|t0 rest] eqn:Hcw].
    all: (split; [|cbn in *; rewrite ?length_app; cbn; lia]).
    all: unfold monitor_threads; cbn; rewrite ?Hcr, ?Hcw.
    all: apply (NoDup_cons_1_2 t).
    all: (eapply NoDup_Permutation_proper; [|exact Hnd]).
    all: rewrite Hp at 2; perm.
Qed.

Lemma run_counters es : ∀ m m',
  counters_agree m → Monitor.run m es = Some m' → counters_agree m'.
Proof.
  induction es as [|e es IH]; intros m m' Hm; cbn.
  - by intros [= <-].
  - destruct (Monitor.step m e) as [m1|] eqn:Hstep; [|done].
    apply IH. by eapply step_counters.
Qed.

Lemma init_counters : counters_agree Monitor.init.
Proof. repeat split; try done; [apply NoDup_nil_2|by left]. Qed.

Lemma reachable_counters m : Monitor.reachable m → counters_agree m.
Proof. intros [es Hrun]. exact (run_counters es _ _ init_counters Hrun). Qed.

(** X15: in every state the monitor can reach, whatever the
    interleaving, the counters tell where the threads are: [num_readers]
    is the number of threads between [begin_read] and [end_read],
    [readers_wait] and [writers_wait] are the numbers of threads inside
    the two waits, and [num_writers] is 0 or 1.  In particular no counter
    is ever negative. *)
Theorem monitor_counters_agree m :
  Monitor.reachable m →
  counters_agree m
  ∧ 0 ≤ Monitor.num_readers m ∧ 0 ≤ Monitor.readers_wait m
  ∧ 0 ≤ Monitor.writers_wait m.
Proof.
  intros Hreach. pose proof (reachable_counters m Hreach) as Hc.
  split; [done|]. destruct Hc as (_ & -> & -> & -> & _). lia.
Qed.

Lemma ex_monitor_reachable : Monitor.reachable ex_monitor.
Proof.
  exists [Monitor.BeginRead 1%nat; Monitor.BeginWrite 2%nat]. reflexivity.
Defined.

Lemma monitor_counters_agree_witness :
  counters_agree ex_monitor
  ∧ 0 ≤ Monitor.num_readers ex_monitor ∧ 0 ≤ Monitor.readers_wait ex_monitor
  ∧ 0 ≤ Monitor.writers_wait ex_monitor.
Proof. apply (monitor_counters_agree ex_monitor ex_monitor_reachable). Defined.

Lemma end_read_quiet m t :
  Monitor.reachable m → t ∈ Monitor.reading m →
  Monitor.end_read t m
  = Monitor.mk_monitor (Monitor.num_readers m - 1) (Monitor.num_writers m)
      (Monitor.readers_wait m) (Monitor.writers_wait m) (Monitor.can_read m)
      (Monitor.can_write m) (Monitor.woken_read m) (Monitor.woken_write m)
      (Monitor.remove_tid t (Monitor.reading m)) (Monitor.writing m).
Proof.
  intros Hreach Hin.
  destruct (reachable_counters m Hreach) as (_ & Hr & _).
  unfold Monitor.end_read. cbn zeta.
  destruct (Z.eqb_spec (Monitor.num_readers m) 0) as [H0|_]; [|done].
  destruct (Monitor.reading m); [by apply elem_of_nil in Hin|cbn in Hr; lia].
Qed.

(** X16: [end_read] never wakes a writer.  It tests the count before the
    decrement against 0, and in a reachable state the count of a thread
    that is reading is at least 1: the call only decrements the count and
    leaves both queues and the signalled threads as they are. *)
Theorem end_read_wakes_nobody m t :
  Monitor.reachable m → t ∈ Monitor.reading m →
  Monitor.end_read t m
  = Monitor.mk_monitor (Monitor.num_readers m - 1) (Monitor.num_writers m)
      (Monitor.readers_wait m) (Monitor.writers_wait m) (Monitor.can_read m)
      (Monitor.can_write m) (Monitor.woken_read m) (Monitor.woken_write m)
      (Monitor.remove_tid t (Monitor.reading m)) (Monitor.writing m).
Proof. apply end_read_quiet. Qed.

Lemma end_read_wakes_nobody_witness :
  Monitor.end_read 1%nat ex_monitor
  = Monitor.mk_monitor (Monitor.num_readers ex_monitor - 1)
      (Monitor.num_writers ex_monitor) (Monitor.readers_wait ex_monitor)
      (Monitor.writers_wait ex_monitor) (Monitor.can_read ex_monitor)
      (Monitor.can_write ex_monitor) (Monitor.woken_read ex_monitor)
      (Monitor.woken_write ex_monitor)
      (Monitor.remove_tid 1%nat (Monitor.reading ex_monitor))
      (Monitor.writing ex_monitor).
Proof.
  apply (end_read_wakes_nobody ex_monitor 1%nat ex_monitor_reachable).
  vm_compute. by left.
Defined.






(** ** Level order *)

Lemma level_order_loop_spec t : ∀ fuel q s,
  wf t →
  Forall (λ x, x ≠ E ∧ ∃ ctx, t = plug ctx x) q →
  (size_forest q ≤ fuel)%nat →
  level_order_loop fuel (ptr_of <$> q) (St s t)
  = Ok (tt, St (set_cout (cout s ++ (OutKey <$> bfs fuel q)) s) t).
Proof.
  induction fuel as [|fuel IH]; intros q s Hwf Hq Hfuel.
  { destruct q as [|[|a c l k r] q]; cbn.
    - unfold ret, St, set_cout. cbn. by rewrite app_nil_r.
    - by apply Forall_cons in Hq as [[? _] _].
    - unfold size_forest in Hfuel. cbn in Hfuel. rewrite !length_app in Hfuel.
      cbn in Hfuel. lia. }
  destruct q as [|[|a c l k r] q].
  - cbn. unfold ret, St, set_cout. cbn. by rewrite app_nil_r.
  - by apply Forall_cons in Hq as [[? _] _].
  - apply Forall_cons in Hq as [[_ [ctx Ht]] Hq].
    cbn [fmap list_fmap ptr_of level_order_loop bfs].
    rewrite Ht in Hwf |- *. run Hwf.
    rewrite (bind_Ok _ _ _ _ _ (print_St _ _ _)). run Hwf.
    destruct l as [|la lc ll lk lr], r as [|ra rc rl rk rr]; run Hwf.
    all: rewrite <- Ht in *.
    all: cbn [app kids].
    all: match goal with
         | |- level_order_loop _ ?ps (St ?s' _) = _ =>
           match goal with
           | |- context [bfs _ ?q'] =>
             replace ps with (ptr_of <$> q')
               by (rewrite ?fmap_app, <- ?app_assoc, ?app_nil_r; reflexivity);
             rewrite (IH q' s' Hwf)
           end
         end.
    all: try (unfold St, set_cout; cbn; rewrite ?fmap_cons, <- ?app_assoc;
              reflexivity).
    all: try (apply Forall_app; split; [done|]).
    all: repeat (apply Forall_cons; split; [split; [done|]|]).
    all: try apply Forall_nil.
    all: try first [ by exists (FL a c k (T ra rc rl rk rr) :: ctx)
                   | by exists (FL a c k E :: ctx)
                   | by exists (FR a c (T la lc ll lk lr) k :: ctx)
                   | by exists (FR a c E k :: ctx) ].
    all: unfold size_forest in *; cbn in Hfuel;
      rewrite ?bind_app, ?length_app in *; cbn in *;
      rewrite ?length_app in *; cbn in *.
    all: first [done|lia].
Qed.

Lemma size_forest_app A B :
  size_forest (A ++ B) = (size_forest A + size_forest B)%nat.
Proof. unfold size_forest. by rewrite bind_app, length_app. Qed.

Lemma size_forest_cons x q :
  size_forest (x :: q) = (length (keys x) + size_forest q)%nat.
Proof. unfold size_forest. cbn. by rewrite length_app. Qed.

Lemma size_forest_kids t : size_forest (kids t) = length (keys t).
Proof.
  destruct t; [done|]. unfold kids. rewrite size_forest_cons.
  unfold size_forest. cbn. lia.
Qed.

(** The queue hands the roots out first and the children after them. *)
Lemma bfs_app A : ∀ B fuel,
  Forall (λ x, x ≠ E) A →
  (size_forest (A ++ B) ≤ fuel)%nat →
  bfs fuel (A ++ B) = roots A ++ bfs (fuel - length A) (B ++ children A).
Proof.
  induction A as [|[|a c l k r] A IH]; intros B fuel HA Hfuel.
  - cbn. by rewrite Nat.sub_0_r, app_nil_r.
  - by apply Forall_cons in HA as [? _].
  - apply Forall_cons in HA as [_ HA].
    destruct fuel as [|fuel].
    all: cbn [app] in Hfuel; rewrite size_forest_cons in Hfuel;
      cbn [keys] in Hfuel; rewrite length_app in Hfuel; cbn in Hfuel.
    { lia. }
    cbn [app bfs]. rewrite <- app_assoc. rewrite IH; [|done|].
    + unfold roots, children. cbn. by rewrite <- !app_assoc.
    + rewrite !size_forest_app, !size_forest_kids in *. lia.
Qed.

Lemma kids_keys t : kids t ≫= keys = keys t.
Proof. destruct t; [done|]. cbn. by rewrite app_nil_r. Qed.

Lemma kids_not_E t : Forall (λ x, x ≠ E) (kids t).
Proof. destruct t; [constructor|]. by repeat constructor. Qed.

Lemma children_not_E q : Forall (λ x, x ≠ E) (children q).
Proof.
  unfold children. induction q as [|[|a c l k r] q IH]; cbn; [constructor|done|].
  rewrite <- app_assoc. repeat (apply Forall_app; split); try done;
    apply kids_not_E.
Qed.

Lemma keys_by_roots q :
  q ≫= keys ≡ₚ roots q ++ (children q ≫= keys).
Proof.
  unfold roots, children. induction q as [|[|a c l k r] q IH]; cbn; [done..|].
  rewrite !bind_app, !kids_keys, IH. perm.
Qed.

Lemma size_by_roots q :
  Forall (λ x, x ≠ E) q →
  size_forest q = (length q + size_forest (children q))%nat.
Proof.
  induction 1 as [|[|a c l k r] q Hx Hq IH]; [done..|].
  rewrite size_forest_cons, IH. unfold children. cbn [mbind list_bind].
  fold (children q). rewrite <- app_assoc, !size_forest_app, !size_forest_kids.
  cbn. rewrite length_app. cbn. lia.
Qed.

Lemma children_height h q :
  Forall (λ x, (height x ≤ S h)%nat) q →
  Forall (λ x, (height x ≤ h)%nat) (children q).
Proof.
  unfold children. induction 1 as [|[|a c l k r] q Hx Hq IH]; cbn;
    [constructor|done|].
  cbn in Hx. rewrite <- app_assoc.
  repeat (apply Forall_app; split); try done.
  - destruct l; [constructor|]. repeat constructor. lia.
  - destruct r; [constructor|]. repeat constructor. lia.
Qed.

Lemma bfs_by_levels h : ∀ q fuel,
  Forall (λ x, x ≠ E) q → Forall (λ x, (height x ≤ h)%nat) q →
  (size_forest q ≤ fuel)%nat →
  bfs fuel q = by_levels h q.
Proof.
  induction h as [|h IH]; intros q fuel Hne Hh Hfuel.
  - destruct q as [|[|a c l k r] q]; [by destruct fuel| |].
    + by apply Forall_cons in Hne as [? _].
    + apply Forall_cons in Hh as [Hh _]. cbn in Hh. lia.
  - cbn [by_levels]. rewrite <- (app_nil_r q) at 1.
    rewrite bfs_app by (done || by rewrite app_nil_r). cbn [app].
    rewrite (size_by_roots q Hne) in Hfuel.
    rewrite IH; [done|apply children_not_E|by apply children_height|lia].
Qed.

Lemma by_levels_perm h : ∀ q,
  Forall (λ x, (height x ≤ h)%nat) q → by_levels h q ≡ₚ q ≫= keys.
Proof.
  induction h as [|h IH]; intros q Hh.
  - cbn. induction Hh as [|[|a c l k r] q Hx Hq IHq]; cbn; [done|done|].
    cbn in Hx. lia.
  - cbn [by_levels]. rewrite IH by by apply children_height.
    by rewrite <- keys_by_roots.
Qed.

(** X18: [level_order] prints the keys of the tree level by level, the
    root first and every level from left to right; each key is printed
    once, the loop runs once for every node, and the tree is not
    changed.  On the empty tree it prints nothing. *)
Theorem level_order_by_levels s t fuel :
  wf t → (length (keys t) ≤ fuel)%nat →
  level_order fuel (St s t)
  = Ok (tt, St (set_cout (cout s ++ (OutKey <$> by_levels (height t) [t])) s)
              t)
  ∧ by_levels (height t) [t] ≡ₚ keys t.
Proof.
  intros Hwf Hfuel. split.
  - unfold level_order, level_order_helper.
    rewrite (bind_Ok _ _ _ _ _ (get_root_St s t)).
    destruct t as [|a c l k r].
    { cbn. unfold ret, St, set_cout. cbn. by rewrite app_nil_r. }
    cbn [ptr_of is_null].
    change [Some a] with (ptr_of <$> [T a c l k r]).
    rewrite (level_order_loop_spec _ fuel [T a c l k r] s Hwf).
    + rewrite (bfs_by_levels (height (T a c l k r)) [T a c l k r] fuel);
        try done; try by repeat constructor.
      unfold size_forest. cbn [mbind list_bind]. by rewrite app_nil_r.
    + repeat constructor; [done|by exists []].
    + unfold size_forest. cbn [mbind list_bind]. by rewrite app_nil_r.
  - rewrite by_levels_perm by by repeat constructor. cbn. by rewrite app_nil_r.
Qed.

Lemma level_order_by_levels_witness :
  level_order 3 ex_state
  = Ok (tt, St (set_cout (cout (RBTree_new [])
                          ++ (OutKey <$> by_levels (height ex_tree) [ex_tree]))
                  (RBTree_new [])) ex_tree)
  ∧ by_levels (height ex_tree) [ex_tree] ≡ₚ keys ex_tree.
Proof.
  apply (level_order_by_levels (RBTree_new []) ex_tree 3 ex_wf).
  cbn. lia.
Defined.

(** ** Composing operations *)

(** X19: [prefix_order] starts from the empty string: running it a second
    time gives the same object as running it once, the serialization is
    not appended twice. *)
Theorem prefix_order_twice s t lt fuel :
  wf t → last s = Some lt → (height t < fuel)%nat →
  (prefix_order fuel ;;; prefix_order fuel) (St s t)
  = prefix_order fuel (St s t).
Proof.
  intros Hwf Hlast Hfuel.
  rewrite (bind_Ok _ _ _ _ _ (prefix_order_spec s t lt fuel Hwf Hlast Hfuel)).
  rewrite (prefix_order_spec s t lt fuel Hwf Hlast Hfuel).
  by rewrite (prefix_order_spec _ t lt fuel Hwf) by done.
Qed.

Lemma prefix_order_twice_witness :
  (prefix_order 3 ;;; prefix_order 3) ex_loaded = prefix_order 3 ex_loaded.
Proof.
  apply (prefix_order_twice _ ex_tree (mk_tmp 15 red) 3 ex_wf).
  - reflexivity.
  - cbn. lia.
Defined.

Lemma steps_length st os sts : steps st os sts → length sts = length os.
Proof. induction 1; cbn; congruence. Qed.

Lemma keys_nil t : keys t = [] → t = E.
Proof. destruct t as [|a c l k r]; [done|]. cbn. by destruct (keys l). Qed.

(** X20: nothing is left behind.  Insert keys into an object fresh from
    the constructor, then delete keys, among them every key that was
    inserted: after the last delete the heap is empty and the root is
    NULL. *)
Theorem delete_all_frees_all tmp ks ds sts1 sts2 st :
  steps (RBTree_new tmp) (Insert <$> ks) sts1 →
  steps (default (RBTree_new tmp) (list.last sts1)) (Delete <$> ds) sts2 →
  (∀ k, k ∈ ks → k ∈ ds) →
  list.last sts2 = Some st →
  mem st = ∅ ∧ root st = None.
Proof.
  intros Hins Hdel Hall Hlast.
  destruct (steps_inserts ks (RBTree_new tmp) E sts1 (rep_new tmp) rb_inv_E Hins)
    as (T1 & Hrep1 & Hinv1 & Hk1).
  pose proof (steps_length _ _ _ Hdel) as Hlen. rewrite length_fmap in Hlen.
  rewrite last_lookup in Hlast.
  destruct (steps_deletes ds _ T1 sts2 Hrep1 Hinv1 Hdel _ st Hlast)
    as (T2 & Hrep2 & _ & Hk2).
  assert (HT : T2 = E).
  { apply keys_nil. apply elem_of_nil_inv. intros x Hx.
    apply Hk2 in Hx as [Hx Hnd]. apply Hk1 in Hx as [Hx|Hx%elem_of_nil]; [|done].
    apply Hnd. rewrite take_ge; [by apply Hall|].
    destruct sts2; [done|]. cbn in *. lia. }
  subst T2. destruct Hrep2 as (-> & -> & _). done.
Qed.

Lemma delete_all_frees_all_witness :
  mem (default (RBTree_new []) (list.last ex_emptied)) = ∅
  ∧ root (default (RBTree_new []) (list.last ex_emptied)) = None.
Proof.
  apply (delete_all_frees_all [] [10; 20; 30; 40] [40; 20; 10; 30]
           ex_inserted ex_emptied).
  - apply steps_exec. vm_compute. reflexivity.
  - apply steps_exec. vm_compute. reflexivity.
  - intros k. rewrite !elem_of_cons, !elem_of_nil. lia.
  - vm_compute. reflexivity.
Defined.


(** ** The monitor before the first wake-up *)

Lemma step_one_writer m e m' :
  counters_agree m → one_writer m → resume_event e = false →
  Monitor.step m e = Some m' → one_writer m'.
Proof.
  intros (_ & Hr & _) Hone He Hstep.
  destruct e as [t|t|t|t|t|t]; try done; cbn in Hstep.
  - destruct (Monitor.idle t m); [|done]. injection Hstep as <-.
    unfold Monitor.begin_read.
    destruct (Z.eqb_spec (Monitor.num_writers m) 1) as [H1|H1]; cbn [orb].
    { exact Hone. }
    destruct (_ >? _); [exact Hone|].
    destruct Hone as [[Hw H0]|(w & _ & ? & _)]; [|done].
    left. by cbn.
  - case_bool_decide as Hin; [|done]. injection Hstep as <-.
    unfold Monitor.end_read, Monitor.signal_write. cbn zeta.
    destruct Hone as [[Hw H0]|(w & Hw & H1 & Hrd)].
    + left. destruct (_ =? 0); [destruct (Monitor.can_write m)|]; by cbn.
    + rewrite Hrd in Hin. by apply elem_of_nil in Hin.
  - destruct (Monitor.idle t m); [|done]. injection Hstep as <-.
    unfold Monitor.begin_write.
    destruct (Z.eqb_spec (Monitor.num_writers m) 1) as [H1|H1]; cbn [orb].
    { exact Hone. }
    destruct (Z.gtb_spec (Monitor.num_readers m) 0) as [Hn|Hn]; [exact Hone|].
    destruct Hone as [[Hw H0]|(w & _ & ? & _)]; [|done].
    right. exists t. cbn. rewrite Hw. repeat split.
    destruct (Monitor.reading m); [done|cbn in Hr; lia].
  - case_bool_decide as Hin; [|done]. injection Hstep as <-.
    destruct Hone as [[Hw H0]|(w & Hw & H1 & Hrd)].
    { rewrite Hw in Hin. by apply elem_of_nil in Hin. }
    rewrite Hw in Hin. apply elem_of_cons in Hin as [->|Hin]; [|by apply elem_of_nil in Hin].
    left. unfold Monitor.end_write, Monitor.signal_read, Monitor.signal_write.
    cbn zeta. cbn [Monitor.readers_wait].
    destruct (_ >? 0);
      [destruct (Monitor.can_read m)|destruct (Monitor.can_write m)];
      cbn; rewrite Hw; unfold Monitor.remove_tid; cbn;
      by rewrite decide_False by naive_solver.
Qed.

Lemma run_one_writer es : ∀ m m',
  counters_agree m → one_writer m →
  forallb (λ e, negb (resume_event e)) es = true →
  Monitor.run m es = Some m' → one_writer m'.
Proof.
  induction es as [|e es IH]; intros m m' Hc Hone Hes; cbn.
  - by intros [= <-].
  - cbn in Hes. apply andb_true_iff in Hes as [He%negb_true_iff Hes].
    destruct (Monitor.step m e) as [m1|] eqn:Hstep; [|done].
    apply IH; [by eapply step_counters|by eapply step_one_writer|done].
Qed.

(** X21: up to the first return from a [pthread_cond_wait] the monitor
    does keep writers apart: in every state reached by calls of the four
    methods alone, at most one writer is in, and while it is in no reader
    is.  The writer admitted together with others needs a thread that
    resumes from its wait. *)
Theorem exclusive_before_first_resume es m :
  forallb (λ e, negb (resume_event e)) es = true →
  Monitor.run Monitor.init es = Some m →
  Monitor.exclusive m ∧ one_writer m.
Proof.
  intros Hes Hrun.
  assert (Hone : one_writer m).
  { apply (run_one_writer es Monitor.init m init_counters); [by left|done..]. }
  split; [|done].
  destruct (reachable_counters m ltac:(by exists es)) as (_ & Hr & _).
  unfold Monitor.exclusive.
  destruct Hone as [[Hw _]|(w & Hw & _ & Hrd)]; rewrite Hw.
  - split; [cbn; lia|done].
  - split; [cbn; lia|]. intros _. split; [done|]. by rewrite Hr, Hrd.
Qed.

Lemma exclusive_before_first_resume_witness :
  Monitor.exclusive ex_monitor_busy ∧ one_writer ex_monitor_busy.
Proof.
  apply (exclusive_before_first_resume
           [Monitor.BeginWrite 1%nat; Monitor.BeginRead 2%nat;
            Monitor.BeginWrite 3%nat]); reflexivity.
Defined.
